(** * SyMBac cell_simulation: stepping loop of the rigid-body cell simulation

    Shallow embedding of [src/SyMBac/cell_simulation.py]: [run_simulation],
    [update_pm_cells], [cell_adder], [update_cell_positions], [wipe_space]
    and [step_and_update].

    Python objects live in stores indexed by address, because cells, bodies
    and shapes are shared between the live list, the pymunk space and the
    recorded frames.  The pymunk engine, the [Cell] class, the trench
    builder and scipy's normal distribution are not part of this file of the
    repository: they are the fields of [Env]. *)

From Stdlib Require Import QArith ZArith Lia.
From stdpp Require Import base relations list.

Local Open Scope Z_scope.
Local Open Scope nat_scope.

(** ** Numbers *)

(** Python floats are read as rationals; only comparisons are used here. *)
Definition Qltb (a b : Q) : bool := negb (Qle_bool b a).

(** A float that may be infinite: the value of [norm.ppf]. *)
Inductive ext : Type :=
| neg_inf
| fin (q : Q)
| pos_inf
| not_a_number.

(** [u <= e] for a finite draw [u]. *)
Definition ext_leb (u : Q) (e : ext) : bool :=
  match e with
  | neg_inf => false
  | fin q => Qle_bool u q
  | pos_inf => true
  | not_a_number => false
  end.

(** ** Objects *)

(** A pymunk body: [body_type] is 0 for a dynamic body. *)
Record Body : Type := mkBody {
  body_type : Z;
  position : Q * Q;
  angle : Q
}.

(** A pymunk shape, with the address of [shape.body]. *)
Record Shape : Type := mkShape { shape_body : nat }.

Definition dummy_body : Body := mkBody 0 (0%Q, 0%Q) 0%Q.
Definition dummy_shape : Shape := mkShape 0.

(** What [Cell.create_pm_cell] returns: the pair [(body, shape)], or the
    keyword arguments of a daughter. *)
Inductive pm_result (K : Type) : Type :=
| body_and_shape
| daughter_details (d : K).
Arguments body_and_shape {K}.
Arguments daughter_details {K} d.

(** The static geometry left in the space by [trench_creator]. *)
Record Trench : Type := mkTrench {
  trench_body_objs : list Body;
  trench_shape_objs : list Shape;
  trench_bodies : list nat;
  trench_shapes : list nat
}.

(** The calls into the physics engine, in the order they are made. *)
Inductive Event : Type :=
| Ev_add_body (b : nat)
| Ev_add_shape (s : nat)
| Ev_remove_body (b : nat)
| Ev_remove_shape (s : nat)
| Ev_step (dt : Q).

(** ** The collaborators *)

Record Env : Type := mkEnv {
  Attrs : Type;                (* the attributes a Cell keeps to itself *)
  Kwargs : Type;               (* a dict of keyword arguments for Cell(...) *)
  RandomState : Type;          (* numpy's global random state *)
  kwargs_len : Kwargs -> nat;
  Cell_init : Kwargs -> RandomState -> Attrs * Body * RandomState;
  update_length : Attrs -> Attrs;
  is_dividing : Attrs -> bool;
  create_pm_cell : Attrs -> RandomState -> Attrs * Body * pm_result Kwargs * RandomState;
  update_position : Body -> Attrs -> Attrs;
  lysis_p : Attrs -> Q;
  trench_creator : Q -> Q -> Trench;
  integrate : Q -> list Body -> list Body;   (* space.step on the bodies of the space *)
  norm_rvs : RandomState -> Q * RandomState;
  norm_ppf : Q -> ext
}.

Section Simulation.

Context (E : Env).

(** A Cell object: the attributes this file reads or writes, and the rest. *)
Record Cell : Type := mkCell {
  body : nat;
  shape : nat;
  mother : option nat;
  daughter : option nat;
  t : option Z;
  attrs : Attrs E
}.

(** ** The state of a run *)

Record State : Type := mkState {
  cell_heap : list Cell;
  body_heap : list Body;
  shape_heap : list Shape;
  bodies : list nat (* space.bodies, in insertion order *);
  shapes : list nat (* space.shapes, in insertion order *);
  cells : list nat;
  cell_timeseries : list (list nat);
  x : Z (* x[0] *);
  historic_cells : list nat;
  rng : RandomState E;
  log : list Event;
  has_exit : bool (* pyglet.app.exit() was called *);
  saved : option (list (list nat) * (list nat * list nat)) (* the two pickle files *);
  pickled : option (list Cell * list Body * list Shape)
    (* the objects, as they were when the files were written *)
}.

Definition set_cell_heap (v : list Cell) (st : State) : State :=
  mkState v (body_heap st) (shape_heap st) (bodies st) (shapes st) (cells st)
    (cell_timeseries st) (x st) (historic_cells st) (rng st) (log st) (has_exit st)
    (saved st) (pickled st).
Definition set_body_heap (v : list Body) (st : State) : State :=
  mkState (cell_heap st) v (shape_heap st) (bodies st) (shapes st) (cells st)
    (cell_timeseries st) (x st) (historic_cells st) (rng st) (log st) (has_exit st)
    (saved st) (pickled st).
Definition set_shape_heap (v : list Shape) (st : State) : State :=
  mkState (cell_heap st) (body_heap st) v (bodies st) (shapes st) (cells st)
    (cell_timeseries st) (x st) (historic_cells st) (rng st) (log st) (has_exit st)
    (saved st) (pickled st).
Definition set_bodies (v : list nat) (st : State) : State :=
  mkState (cell_heap st) (body_heap st) (shape_heap st) v (shapes st) (cells st)
    (cell_timeseries st) (x st) (historic_cells st) (rng st) (log st) (has_exit st)
    (saved st) (pickled st).
Definition set_shapes (v : list nat) (st : State) : State :=
  mkState (cell_heap st) (body_heap st) (shape_heap st) (bodies st) v (cells st)
    (cell_timeseries st) (x st) (historic_cells st) (rng st) (log st) (has_exit st)
    (saved st) (pickled st).
Definition set_cells (v : list nat) (st : State) : State :=
  mkState (cell_heap st) (body_heap st) (shape_heap st) (bodies st) (shapes st) v
    (cell_timeseries st) (x st) (historic_cells st) (rng st) (log st) (has_exit st)
    (saved st) (pickled st).
Definition set_cell_timeseries (v : list (list nat)) (st : State) : State :=
  mkState (cell_heap st) (body_heap st) (shape_heap st) (bodies st) (shapes st) (cells st)
    v (x st) (historic_cells st) (rng st) (log st) (has_exit st) (saved st)
    (pickled st).
Definition set_x (v : Z) (st : State) : State :=
  mkState (cell_heap st) (body_heap st) (shape_heap st) (bodies st) (shapes st) (cells st)
    (cell_timeseries st) v (historic_cells st) (rng st) (log st) (has_exit st) (saved st)
    (pickled st).
Definition set_rng (v : RandomState E) (st : State) : State :=
  mkState (cell_heap st) (body_heap st) (shape_heap st) (bodies st) (shapes st) (cells st)
    (cell_timeseries st) (x st) (historic_cells st) v (log st) (has_exit st) (saved st)
    (pickled st).
Definition set_has_exit (v : bool) (st : State) : State :=
  mkState (cell_heap st) (body_heap st) (shape_heap st) (bodies st) (shapes st) (cells st)
    (cell_timeseries st) (x st) (historic_cells st) (rng st) (log st) v (saved st)
    (pickled st).
Definition set_saved (v : option (list (list nat) * (list nat * list nat))) (st : State)
  : State :=
  mkState (cell_heap st) (body_heap st) (shape_heap st) (bodies st) (shapes st) (cells st)
    (cell_timeseries st) (x st) (historic_cells st) (rng st) (log st) (has_exit st) v
    (pickled st).
Definition set_pickled (v : option (list Cell * list Body * list Shape)) (st : State)
  : State :=
  mkState (cell_heap st) (body_heap st) (shape_heap st) (bodies st) (shapes st) (cells st)
    (cell_timeseries st) (x st) (historic_cells st) (rng st) (log st) (has_exit st)
    (saved st) v.
Definition emit (e : Event) (st : State) : State :=
  mkState (cell_heap st) (body_heap st) (shape_heap st) (bodies st) (shapes st) (cells st)
    (cell_timeseries st) (x st) (historic_cells st) (rng st) (log st ++ [e]) (has_exit st)
    (saved st) (pickled st).

Definition get_body (st : State) (b : nat) : Body := default dummy_body (body_heap st !! b).
Definition get_shape (st : State) (s : nat) : Shape := default dummy_shape (shape_heap st !! s).

(** ** The physics world: [space.add], [space.remove], [space.step]

    [space.bodies] and [space.shapes] list what was added, in insertion
    order.  Removing an object that is not in the space leaves the space as it
    is. *)

Definition space_add_body (b : nat) (st : State) : State :=
  emit (Ev_add_body b) (set_bodies (bodies st ++ [b]) st).
Definition space_add_shape (s : nat) (st : State) : State :=
  emit (Ev_add_shape s) (set_shapes (shapes st ++ [s]) st).
Definition space_remove_body (b : nat) (st : State) : State :=
  emit (Ev_remove_body b) (set_bodies (filter (λ b', b' ≠ b) (bodies st)) st).
Definition space_remove_shape (s : nat) (st : State) : State :=
  emit (Ev_remove_shape s) (set_shapes (filter (λ s', s' ≠ s) (shapes st)) st).

(** The engine moves the bodies that are in the space, and only them. *)
Fixpoint write_back (bs : list nat) (vs : list Body) (h : list Body) : list Body :=
  match bs, vs with
  | b :: bs', v :: vs' => write_back bs' vs' (<[b := v]> h)
  | _, _ => h
  end.

Definition space_step (dt : Q) (st : State) : State :=
  let moved := integrate E dt (map (get_body st) (bodies st)) in
  emit (Ev_step dt) (set_body_heap (write_back (bodies st) moved (body_heap st)) st).

(** [for _ in range(n): space.step(dt)] *)
Fixpoint steps (n : nat) (dt : Q) (st : State) : State :=
  match n with
  | O => st
  | S n' => steps n' dt (space_step dt st)
  end.

(** ** Bounds *)

Definition out_of_bounds (ylim y : Q) : bool := Qltb y 0 || Qltb ylim y.

(** [shape.body.position.y] *)
Definition shape_y (st : State) (s : nat) : Q :=
  snd (position (get_body st (shape_body (get_shape st s)))).

(** [cell.shape.body.position.y] *)
Definition cell_y (st : State) (c : nat) : Q :=
  match cell_heap st !! c with
  | Some cell => shape_y st (shape cell)
  | None => 0%Q
  end.

Definition cell_lysis_p (st : State) (c : nat) : Q :=
  match cell_heap st !! c with
  | Some cell => lysis_p E (attrs cell)
  | None => 0%Q
  end.

(** ** step_and_update, lines 257-267: shapes out of the trench *)

Definition shapes_to_remove (ylim : Q) (st : State) : list (nat * nat) :=
  map (λ s, (shape_body (get_shape st s), s))
      (filter (λ s, out_of_bounds ylim (shape_y st s) = true) (shapes st)).

Fixpoint remove_shapes (dt : Q) (l : list (nat * nat)) (st : State) : State :=
  match l with
  | [] => st
  | (b, s) :: l' =>
      remove_shapes dt l' (space_step dt (space_remove_shape s (space_remove_body b st)))
  end.

Definition shape_removal_pass (dt ylim : Q) (st : State) : State :=
  remove_shapes dt (shapes_to_remove ylim st) st.

(** ** step_and_update, lines 286-299: cells out of the trench, and lysis *)

Fixpoint cells_to_remove (ylim : Q) (st : State) (l : list nat) (r : RandomState E)
  : list nat * RandomState E :=
  match l with
  | [] => ([], r)
  | c :: l' =>
      if out_of_bounds ylim (cell_y st c) then
        let '(cs, r') := cells_to_remove ylim st l' r in (c :: cs, r')
      else
        let '(u, r1) := norm_rvs E r in
        let '(cs, r') := cells_to_remove ylim st l' r1 in
        if ext_leb u (norm_ppf E (cell_lysis_p st c)) && (1 <? length (cells st))
        then (c :: cs, r') else (cs, r')
  end.

(** [list.remove]: the first occurrence. *)
Fixpoint remove_first (c : nat) (l : list nat) : list nat :=
  match l with
  | [] => []
  | a :: l' => if decide (a = c) then l' else a :: remove_first c l'
  end.

Fixpoint remove_cells (dt : Q) (l : list nat) (st : State) : State :=
  match l with
  | [] => st
  | c :: l' =>
      remove_cells dt l'
        (if decide (c ∈ cells st)
         then space_step dt (set_cells (remove_first c (cells st)) st)
         else st)
  end.

Definition cell_removal_pass (dt ylim : Q) (st : State) : State :=
  let '(cs, r) := cells_to_remove ylim st (cells st) (rng st) in
  remove_cells dt cs (set_rng r st).

(** ** wipe_space *)

Definition wipe_candidates (st : State) : list (nat * nat) :=
  filter (λ p, body_type (get_body st (fst p)) = 0%Z) (zip (bodies st) (shapes st)).

Definition wipe_space (st : State) : State :=
  let l := wipe_candidates st in
  foldl (λ s p, space_remove_shape p s) (foldl (λ s b, space_remove_body b s) st l.*1) l.*2.

(** ** update_pm_cells *)

(** A fresh body and the shape attached to it. *)
Definition new_pm (b : Body) (st : State) : nat * nat * State :=
  let bl := length (body_heap st) in
  let sl := length (shape_heap st) in
  (bl, sl, set_shape_heap (shape_heap st ++ [mkShape bl])
             (set_body_heap (body_heap st ++ [b]) st)).

Definition write_cell (c : nat) (v : Cell) (st : State) : State :=
  set_cell_heap (<[c := v]> (cell_heap st)) st.

(** Lines 177-181: the daughter built from [daughter_details], the two
    links, [cells.append]. *)
Definition spawn (c : nat) (d : Kwargs E) (st : State) : State :=
  let '(g, b, r) := Cell_init E d (rng st) in
  let '(bl, sl, st1) := new_pm b (set_rng r st) in
  let dl := length (cell_heap st1) in
  let st2 := set_cell_heap (cell_heap st1 ++ [mkCell bl sl (Some c) None None g]) st1 in
  let st3 :=
    match cell_heap st2 !! c with
    | Some m => write_cell c (mkCell (body m) (shape m) (mother m) (Some dl) (t m) (attrs m)) st2
    | None => st2
    end in
  set_cells (cells st3 ++ [dl]) st3.

Definition cell_adder (c : nat) (st : State) : State :=
  match cell_heap st !! c with
  | Some cell => space_add_shape (shape cell) (space_add_body (body cell) st)
  | None => st
  end.

(** The body of the loop over [cells], lines 173-186. *)
Definition visit (c : nat) (st : State) : State :=
  match cell_heap st !! c with
  | None => st
  | Some cell =>
      let g1 := update_length E (attrs cell) in
      let '(g2, b, ret, r) := create_pm_cell E g1 (rng st) in
      let '(bl, sl, st1) := new_pm b (set_rng r st) in
      let st2 := write_cell c (mkCell bl sl (mother cell) (daughter cell) (t cell) g2) st1 in
      let st3 :=
        if is_dividing E g1 then
          match ret with
          | daughter_details d => if 2 <? kwargs_len E d then spawn c d st2 else st2
          | body_and_shape => st2
          end
        else st2 in
      steps 150 (1 # 100) (cell_adder c st3)
  end.

(** [for cell in cells] iterates the list object itself: the iterator keeps
    an index and looks the list up again at every turn, so a daughter appended
    by the loop body is reached later in the same loop. *)
Fixpoint update_pm_cells_from (fuel i : nat) (st : State) : option State :=
  match cells st !! i with
  | None => Some st
  | Some c =>
      match fuel with
      | O => None
      | S fuel' => update_pm_cells_from fuel' (S i) (visit c st)
      end
  end.

Definition update_pm_cells (fuel : nat) (st : State) : option State :=
  update_pm_cells_from fuel 0 st.

(** ** update_cell_positions *)

Definition update_cell_position (c : nat) (st : State) : State :=
  match cell_heap st !! c with
  | Some cell =>
      write_cell c (mkCell (body cell) (shape cell) (mother cell) (daughter cell) (t cell)
                      (update_position E (get_body st (body cell)) (attrs cell))) st
  | None => st
  end.

Definition update_cell_positions (st : State) : State :=
  foldl (λ s c, update_cell_position c s) st (cells st).

(** ** copy.deepcopy

    A deep copy rebuilds everything reachable from its argument in fresh
    objects and keeps the sharing between them.  Here every object of the
    three stores is duplicated at the end of its store, references moved
    along; the duplicates that the copied list does not reach are garbage. *)

Definition shift_cell (nc nb ns : nat) (c : Cell) : Cell :=
  mkCell (nb + body c) (ns + shape c) (Nat.add nc <$> mother c) (Nat.add nc <$> daughter c)
         (t c) (attrs c).

Definition shift_shape (nb : nat) (s : Shape) : Shape := mkShape (nb + shape_body s).

Definition deepcopy (l : list nat) (st : State) : list nat * State :=
  let nc := length (cell_heap st) in
  let nb := length (body_heap st) in
  let ns := length (shape_heap st) in
  (Nat.add nc <$> l,
   set_cell_heap (cell_heap st ++ (shift_cell nc nb ns <$> cell_heap st))
     (set_body_heap (body_heap st ++ body_heap st)
        (set_shape_heap (shape_heap st ++ (shift_shape nb <$> shape_heap st)) st))).

(** Line 308: [cell_timeseries.append(deepcopy(cells))]. *)
Definition record_frame (st : State) : State :=
  let '(frame, st') := deepcopy (cells st) st in
  set_cell_timeseries (cell_timeseries st' ++ [frame]) st'.

(** Lines 310-315: the two pickles, [pyglet.app.exit()], and the return
    that leaves [x[0]] as it is.  [pickle.dump] writes what it is given by
    value: [saved] names what was dumped, [pickled] keeps the objects as they
    are at that moment. *)
Definition finalize (st : State) : State :=
  set_has_exit true
    (set_pickled (Some (cell_heap st, body_heap st, shape_heap st))
       (set_saved (Some (cell_timeseries st, (bodies st, shapes st))) st)).

(** ** step_and_update *)

(** Lines 257-305: the two removal passes, [wipe_space], [update_pm_cells],
    the [phys_iters] steps of the frame and [update_cell_positions]. *)
Definition advance (fuel : nat) (dt : Q) (iters : Z) (ylim : Q) (st : State) : option State :=
  let st1 := shape_removal_pass dt ylim st in
  let st2 := cell_removal_pass dt ylim st1 in
  let st3 := wipe_space st2 in
  st4 ← update_pm_cells fuel st3;
  Some (update_cell_positions (steps (Z.to_nat iters) dt st4)).

(** Lines 307-317: the frame is recorded once [x[0] > 1]; at
    [x[0] == sim_length-1] the run is saved and the function returns, and
    only otherwise is [x[0]] incremented. *)
Definition conclude (len : Z) (st : State) : State :=
  let st' := if (1 <? x st)%Z then record_frame st else st in
  if (x st' =? len - 1)%Z then finalize st' else set_x (x st' + 1)%Z st'.

Definition step_and_update (fuel : nat) (dt : Q) (iters : Z) (ylim : Q) (len : Z)
    (st : State) : option State :=
  conclude len <$> advance fuel dt iters ylim st.

(** ** run_simulation *)

Record Args : Type := mkArgs {
  trench_length : Q;
  trench_width : Q;
  pix_mic_conv : Q;
  resize_amount : Q;
  sim_length : Z;
  phys_iters : Z;
  show_window : bool;
  seed_kwargs : Kwargs E;        (* the keyword arguments of lines 77-96 *)
  seed_rng : RandomState E;
  clock : nat -> Q               (* the elapsed time pyglet hands to each tick *)
}.

Definition scale_factor (a : Args) : Q := (1 / pix_mic_conv a * resize_amount a)%Q.

(** [trench_length * scale_factor], passed on as [ylim]. *)
Definition ylim_of (a : Args) : Q := (trench_length a * scale_factor a)%Q.

(** Lines 61-120: the space with its trench, the seed cell, and
    [x = [0]], [cell_timeseries = []], [cells = [cell1]],
    [historic_cells = [cell1]]. *)
Definition initial_state (a : Args) : State :=
  let tr := trench_creator E (trench_width a * scale_factor a)%Q (ylim_of a) in
  let '(g, b, r) := Cell_init E (seed_kwargs a) (seed_rng a) in
  let bl := length (trench_body_objs tr) in
  let sl := length (trench_shape_objs tr) in
  mkState [mkCell bl sl None None None g]
          (trench_body_objs tr ++ [b]) (trench_shape_objs tr ++ [mkShape bl])
          (trench_bodies tr) (trench_shapes tr)
          [0] [] 0%Z [0] r [] false None None.

(** Lines 127-131: [for _ in tqdm(range(sim_length+2))]. *)
Fixpoint headless_loop (n fuel : nat) (dt : Q) (iters : Z) (ylim : Q) (len : Z) (st : State)
  : option State :=
  match n with
  | O => Some st
  | S n' =>
      st' ← step_and_update fuel dt iters ylim len st;
      headless_loop n' fuel dt iters ylim len st'
  end.

(** Lines 122-125: pyglet calls [step_and_update] at every tick of its clock
    until [pyglet.app.exit()] has been called. *)
Fixpoint window_loop (ticks fuel k : nat) (clk : nat -> Q) (iters : Z) (ylim : Q) (len : Z)
    (st : State) : option State :=
  match ticks with
  | O => None
  | S ticks' =>
      st' ← step_and_update fuel (clk k) iters ylim len st;
      if has_exit st' then Some st'
      else window_loop ticks' fuel (S k) clk iters ylim len st'
  end.

(** Lines 134-136: [cell.t = frame] on the cells of every recorded frame. *)
Definition set_t (v : Z) (c : Cell) : Cell :=
  mkCell (body c) (shape c) (mother c) (daughter c) (Some v) (attrs c).

Fixpoint stamp_frames (k : nat) (frames : list (list nat)) (h : list Cell) : list Cell :=
  match frames with
  | [] => h
  | f :: frames' =>
      stamp_frames (S k) frames' (foldl (λ h' c, alter (set_t (Z.of_nat k)) c h') h f)
  end.

(** The value returned is read off the final state: [cell_timeseries], the
    space and [historic_cells]. *)
Definition run_simulation (ticks fuel : nat) (a : Args) : option State :=
  st ← (if show_window a
        then window_loop ticks fuel 0 (clock a) (phys_iters a) (ylim_of a) (sim_length a)
               (initial_state a)
        else headless_loop (Z.to_nat (sim_length a + 2)) fuel (1 # 20) (phys_iters a)
               (ylim_of a) (sim_length a) (initial_state a));
  Some (set_cell_heap (stamp_frames 0 (cell_timeseries st) (cell_heap st)) st).

(** The content of [cell_timeseries.p]: [pickle.dump] writes the frames by
    value, every cell with its body and its shape as they are when the call
    is made.  It is read here as the frames with the three stores of that
    moment, in which the addresses of the frames are to be looked up. *)
Definition persisted_timeseries (st : State)
  : option (list (list nat) * (list Cell * list Body * list Shape)) :=
  '(frames, _) ← saved st; objs ← pickled st; Some (frames, objs).

End Simulation.

Arguments mkCell {E}.
Arguments mkState {E}.
Arguments mkArgs {E}.
Arguments body {E}.
Arguments shape {E}.
Arguments mother {E}.
Arguments daughter {E}.
Arguments t {E}.
Arguments attrs {E}.
Arguments cell_heap {E}.
Arguments body_heap {E}.
Arguments shape_heap {E}.
Arguments bodies {E}.
Arguments shapes {E}.
Arguments cells {E}.
Arguments cell_timeseries {E}.
Arguments x {E}.
Arguments historic_cells {E}.
Arguments rng {E}.
Arguments log {E}.
Arguments has_exit {E}.
Arguments set_cell_heap {E}.
Arguments set_body_heap {E}.
Arguments set_shape_heap {E}.
Arguments set_bodies {E}.
Arguments set_shapes {E}.
Arguments set_cells {E}.
Arguments set_cell_timeseries {E}.
Arguments set_x {E}.
Arguments set_rng {E}.
Arguments emit {E}.
Arguments set_has_exit {E}.
Arguments saved {E}.
Arguments set_saved {E}.
Arguments get_body {E}.
Arguments get_shape {E}.
Arguments space_add_body {E}.
Arguments space_add_shape {E}.
Arguments space_remove_body {E}.
Arguments space_remove_shape {E}.
Arguments space_step {E}.
Arguments steps {E} n dt st : simpl never.
Arguments shape_y {E}.
Arguments cell_y {E}.
Arguments cell_lysis_p {E}.
Arguments shapes_to_remove {E}.
Arguments remove_shapes {E}.
Arguments shape_removal_pass {E}.
Arguments cells_to_remove {E}.
Arguments remove_cells {E}.
Arguments cell_removal_pass {E}.
Arguments wipe_candidates {E}.
Arguments wipe_space {E}.
Arguments new_pm {E}.
Arguments write_cell {E}.
Arguments spawn {E}.
Arguments cell_adder {E}.
Arguments visit {E}.
Arguments update_pm_cells_from {E}.
Arguments update_pm_cells {E}.
Arguments update_cell_position {E}.
Arguments update_cell_positions {E}.
Arguments shift_cell {E}.
Arguments deepcopy {E}.
Arguments record_frame {E}.
Arguments finalize {E}.
Arguments advance {E}.
Arguments conclude {E}.
Arguments step_and_update {E}.
Arguments trench_length {E}.
Arguments trench_width {E}.
Arguments pix_mic_conv {E}.
Arguments resize_amount {E}.
Arguments sim_length {E}.
Arguments phys_iters {E}.
Arguments show_window {E}.
Arguments seed_kwargs {E}.
Arguments seed_rng {E}.
Arguments clock {E}.
Arguments scale_factor {E}.
Arguments ylim_of {E}.
Arguments initial_state {E}.
Arguments headless_loop {E}.
Arguments window_loop {E}.
Arguments set_t {E}.
Arguments stamp_frames {E}.
Arguments run_simulation {E}.
Arguments persisted_timeseries {E}.
Arguments pickled {E}.
Arguments set_pickled {E}.

(** ** A small instance of the collaborators *)

Module Toy.

(** Modelled from the spec: the Cell class (SyMBac.cell) is not in this
    file.  Section 4.2 gives its contract: a cell grows towards its maximum
    length, is ready to divide once it has reached it, and then hands half of
    its length to a daughter described by keyword arguments.  Lengths are
    whole numbers here and a newborn is kept two units short of its maximum. *)
Record attrs : Type := mkAttrs {
  len : nat;
  max_len : nat;
  pos : Q * Q;
  lysis : Q
}.

Definition init (d : attrs) (r : list Q) : attrs * Body * list Q :=
  let m := Nat.max 2 (max_len d) in
  (mkAttrs (Nat.min (len d) (m - 2)) m (pos d) (lysis d), mkBody 0 (pos d) 0%Q, r).

Definition grow (a : attrs) : attrs := mkAttrs (S (len a)) (max_len a) (pos a) (lysis a).

Definition ready (a : attrs) : bool := max_len a <=? len a.

Definition materialize (a : attrs) (r : list Q) : attrs * Body * pm_result attrs * list Q :=
  if ready a then
    let keep := Nat.div2 (len a) in
    (mkAttrs keep (max_len a) (pos a) (lysis a), mkBody 0 (pos a) 0%Q,
     daughter_details
       (mkAttrs (len a - keep) (max_len a)
                (fst (pos a), (snd (pos a) + inject_Z (Z.of_nat keep))%Q) (lysis a)),
     r)
  else (a, mkBody 0 (pos a) 0%Q, body_and_shape, r).

Definition sync (b : Body) (a : attrs) : attrs :=
  mkAttrs (len a) (max_len a) (position b) (lysis a).

(** One static wall with a body of its own, registered with its shape. *)
Definition walls (w l : Q) : Trench :=
  mkTrench [mkBody 2 (35%Q, 0%Q) 0%Q] [mkShape 0] [0] [0].

(** The draws are read off a list; [ppf] is a step function with the two
    infinite ends of the real one. *)
Definition draw (r : list Q) : Q * list Q :=
  match r with
  | [] => (0%Q, [])
  | u :: r' => (u, r')
  end.

Definition ppf (p : Q) : ext :=
  if Qle_bool p 0 then neg_inf
  else if Qle_bool 1 p then pos_inf
  else fin (p - (1 # 2))%Q.

Definition env : Env :=
  mkEnv attrs attrs (list Q) (λ _, 18) init grow ready materialize sync lysis walls
        (λ _ bs, bs) draw ppf.

Definition args (n : Z) (window : bool) : Args env :=
  @mkArgs env 1000%Q 2%Q 1%Q 1%Q n 2%Z window (mkAttrs 1 3 (40%Q, 100%Q) 0%Q) [] (λ _, 1 # 20)%Q.

(** One call of the headless loop, and the state after [n] of them. *)
Definition step (a : Args env) (st : State env) : State env :=
  default st
    (step_and_update 10 (1 # 20) (phys_iters a) (ylim_of a) (sim_length a) st).

Definition after (n : nat) (a : Args env) : State env :=
  Nat.iter n (step a) (initial_state a).

(** One cell, seeded below the trench. *)
Definition lost : State env :=
  initial_state
    (@mkArgs env 1000%Q 2%Q 1%Q 1%Q 5%Z 2%Z false
       (mkAttrs 1 3 (40%Q, (-1)%Q) 0%Q) [] (λ _, 1 # 20)%Q).

(** A wall shape hung on a static body that is not registered, as shapes on
    [space.static_body] are, and one cell with its body and shape. *)
Definition unpaired : State env :=
  @mkState env [@mkCell env 1 1 None None None (mkAttrs 1 3 (40%Q, 100%Q) 0%Q)]
          [mkBody 2 (35%Q, 0%Q) 0%Q; mkBody 0 (40%Q, 100%Q) 0%Q]
          [mkShape 0; mkShape 1]
          [1] [0; 1] [0] [] 0%Z [0] [] [] false None None.

End Toy.

(** * Notions used by the statements *)

Section Notions.

Context {E : Env}.

(** Every live cell is an object of the store. *)
Definition valid (st : State E) : Prop := Forall (λ c, c < length (cell_heap st)) (cells st).

(** Everything but the space and the bodies. *)
Definition logic (st : State E) :=
  (cell_heap st, shape_heap st, cells st, cell_timeseries st, x st, historic_cells st,
   rng st, has_exit st, saved st).

(** The counter, the recorded frames, the historic list and the files. *)
Definition control (st : State E) :=
  (cell_timeseries st, x st, historic_cells st, has_exit st, saved st).

(** One removal of a body with its shape, and the step that follows it. *)
Definition removal_trace (dt : Q) (l : list (nat * nat)) : list Event :=
  l ≫= λ p, [Ev_remove_body p.1; Ev_remove_shape p.2; Ev_step dt].

(** A body is dynamic when its [body_type] is 0. *)
Definition dynamic (st : State E) (b : nat) : Prop := body_type (get_body st b) = 0%Z.

#[global] Instance dynamic_dec (st : State E) (b : nat) : Decision (dynamic st b).
Proof. unfold dynamic. apply _. Defined.

(** [shape.body] *)
Definition body_of (st : State E) (s : nat) : nat := shape_body (get_shape st s).

(** Bodies and shapes were registered two by two, each body with its shape:
    the i-th shape of the space hangs on the i-th body. *)
Definition paired (st : State E) : Prop := body_of st <$> shapes st = bodies st.

(** Every shape of the space is an object of the store. *)
Definition shapes_ok (st : State E) : Prop :=
  Forall (λ s, s < length (shape_heap st)) (shapes st).

(** Every live cell is an object of the store, and is listed once. *)
Definition live_ok (st : State E) : Prop := NoDup (cells st) ∧ valid st.

(** Would the cell at [c] be ready to divide at its next visit? *)
Definition divides (st : State E) (c : nat) : bool :=
  match cell_heap st !! c with
  | Some cell => is_dividing E (update_length E (attrs cell))
  | None => false
  end.

(** A cell that has just been made does not divide at once: after its first
    growth step it is not yet ready. *)
Definition newborn_rests : Prop :=
  ∀ k r, is_dividing E (update_length E (Cell_init E k r).1.1) = false.

Definition weight (st : State E) (c : nat) : nat := if divides st c then 2 else 1.

(** The visits still to come, a daughter counted with its mother. *)
Definition pending (st : State E) (i : nat) : nat :=
  sum_list (weight st <$> drop i (cells st)).

(** The calls made for one cell: its body and shape are added, then the
    world is stepped 150 times by 1/100. *)
Definition settle_block (p : nat * nat) : list Event :=
  [Ev_add_body p.1; Ev_add_shape p.2] ++ replicate 150 (Ev_step (1 # 100)).

(** How many times the world was stepped. *)
Fixpoint count_steps (l : list Event) : nat :=
  match l with
  | [] => 0
  | Ev_step _ :: l' => S (count_steps l')
  | _ :: l' => count_steps l'
  end.

(** The counter and the number of recorded frames, one call later. *)
Definition tick (len : Z) (p : Z * nat) : Z * nat :=
  ((if (p.1 =? len - 1)%Z then p.1 else p.1 + 1)%Z, if (1 <? p.1)%Z then S p.2 else p.2).

Definition counters (st : State E) : Z * nat := (x st, length (cell_timeseries st)).

(** *** Objects that the live side of the run cannot reach

    [Pc], [Pb] and [Ps] pick addresses of cells, bodies and shapes.  They are
    guarded when they are addresses of objects that exist and neither a live
    cell nor a body of the space is among them. *)
Definition guarded (Pc Pb Ps : nat → Prop) (st : State E) : Prop :=
  (∀ l, Pc l → l < length (cell_heap st)) ∧
  (∀ l, Pb l → l < length (body_heap st)) ∧
  (∀ l, Ps l → l < length (shape_heap st)) ∧
  Forall (λ c, ¬ Pc c) (cells st) ∧
  Forall (λ b, ¬ Pb b) (bodies st).

(** The picked objects are the same in both states. *)
Definition agree (Pc Pb Ps : nat → Prop) (st st' : State E) : Prop :=
  (∀ l, Pc l → cell_heap st' !! l = cell_heap st !! l) ∧
  (∀ l, Pb l → body_heap st' !! l = body_heap st !! l) ∧
  (∀ l, Ps l → shape_heap st' !! l = shape_heap st !! l).

Definition keeps (Pc Pb Ps : nat → Prop) (st st' : State E) : Prop :=
  guarded Pc Pb Ps st → guarded Pc Pb Ps st' ∧ agree Pc Pb Ps st st'.

(** Every body of the space is an object of the store. *)
Definition space_ok (st : State E) : Prop :=
  Forall (λ b, b < length (body_heap st)) (bodies st).

(** Every live cell has a body and a shape in the store. *)
Definition refs_ok (st : State E) : Prop :=
  Forall (λ c, ∃ cell, cell_heap st !! c = Some cell ∧
                       body cell < length (body_heap st) ∧
                       shape cell < length (shape_heap st)) (cells st).

(** One call of [step_and_update], with whatever arguments. *)
Definition step_rel (st st' : State E) : Prop :=
  ∃ fuel dt iters ylim len, step_and_update fuel dt iters ylim len st = Some st'.

(** What a recorded cell holds, references followed to the end: the cell,
    its body [cell.body], its shape [cell.shape], and the body that the shape
    hangs on, [cell.shape.body]. *)
Definition snapshot_value (st : State E) (c : nat)
  : option (Cell E * Body * Shape * Body) :=
  cell ← cell_heap st !! c;
  b ← body_heap st !! body cell;
  s ← shape_heap st !! shape cell;
  sb ← body_heap st !! shape_body s;
  Some (cell, b, s, sb).

End Notions.

Arguments newborn_rests E : clear implicits.

(** * Further notions *)

Section MoreNotions.

Context {E : Env}.

(** [cell.body] and [cell.shape] of the cell at [c]. *)
Definition cell_body (st : State E) (c : nat) : nat := default 0 (body <$> cell_heap st !! c).
Definition cell_shape (st : State E) (c : nat) : nat := default 0 (shape <$> cell_heap st !! c).

(** A live cell whose body is inside the trench. *)
Definition in_bounds (ylim : Q) (st : State E) (c : nat) : Prop :=
  out_of_bounds ylim (cell_y st c) = false.

#[global] Instance in_bounds_dec ylim st c : Decision (in_bounds ylim st c).
Proof. unfold in_bounds. apply _. Defined.

(** [norm.rvs()], for the state it leaves. *)
Definition draw_once (r : RandomState E) : RandomState E := (norm_rvs E r).2.

(** What [update_position] makes of the cell at [c]. *)
Definition synced (st : State E) (cell : Cell E) : Cell E :=
  mkCell (body cell) (shape cell) (mother cell) (daughter cell) (t cell)
         (update_position E (get_body st (body cell)) (attrs cell)).

(** All the cells of all the recorded frames. *)
Definition recorded (st : State E) : list nat := concat (cell_timeseries st).

(** The recorded frames share no cell, with one another, with the live list
    or with [historic_cells], and every cell named is an object of the
    store. *)
Definition frames_apart (st : State E) : Prop :=
  live_ok st ∧ NoDup (recorded st) ∧
  Forall (λ c, c < length (cell_heap st)) (historic_cells st) ∧
  Forall (λ c, c < length (cell_heap st) ∧ (c ∉ cells st) ∧ (c ∉ historic_cells st))
         (recorded st).

(** No cell has been given its [t]. *)
Definition unstamped (h : list (Cell E)) : Prop := Forall (λ cell, t cell = None) h.

(** Whoever has a daughter is that daughter's mother. *)
Definition linked (h : list (Cell E)) : Prop :=
  ∀ c cell d, h !! c = Some cell → daughter cell = Some d →
              ∃ dc, h !! d = Some dc ∧ mother dc = Some c.

(** The state in which the calls of [step_and_update] leave the run, before
    the frames are stamped. *)
Definition drive (ticks fuel : nat) (a : Args E) : option (State E) :=
  if show_window a
  then window_loop ticks fuel 0 (clock a) (phys_iters a) (ylim_of a) (sim_length a)
         (initial_state a)
  else headless_loop (Z.to_nat (sim_length a + 2)) fuel (1 # 20) (phys_iters a)
         (ylim_of a) (sim_length a) (initial_state a).

End MoreNotions.

(** Further states of the small instance. *)
Module ToyMore.

(** A seed cell that lysis would always take, were it not alone. *)
Definition fragile_args : Args Toy.env :=
  @mkArgs Toy.env 1000%Q 2%Q 1%Q 1%Q 5%Z 2%Z false
          (Toy.mkAttrs 1 3 (40%Q, 100%Q) 1%Q) [] (λ _, 1 # 20)%Q.

(** After two frames the seed cell has divided: two cells, both fragile. *)
Definition fragile : State Toy.env := Toy.after 2 fragile_args.

(** The instance again, with an engine that moves every dynamic body of
    the space up by one at each step. *)
Definition drift (dt : Q) (bs : list Body) : list Body :=
  map (λ b, if (body_type b =? 0)%Z
            then mkBody 0 (fst (position b), (snd (position b) + 1)%Q) (angle b)
            else b) bs.

Definition moving : Env :=
  mkEnv Toy.attrs Toy.attrs (list Q) (λ _, 18) Toy.init Toy.grow Toy.ready Toy.materialize
        Toy.sync Toy.lysis Toy.walls drift Toy.draw Toy.ppf.

Definition moving_args : Args moving :=
  @mkArgs moving 1000%Q 2%Q 1%Q 1%Q 5%Z 2%Z false
          (Toy.mkAttrs 1 3 (40%Q, 100%Q) 0%Q) [] (λ _, 1 # 20)%Q.

Definition moving_step (st : State moving) : State moving :=
  default st (step_and_update 10 (1 # 20) 2 1000 5 st).

Definition moving_after (n : nat) : State moving :=
  Nat.iter n moving_step (initial_state moving_args).

(** A dynamic body below the trench with two shapes hung on it, as
    [space.add(body, shape1, shape2)] leaves them. *)
Definition shared : State Toy.env :=
  @mkState Toy.env []
          [mkBody 2 (35%Q, 0%Q) 0%Q; mkBody 0 (40%Q, (-1)%Q) 0%Q]
          [mkShape 0; mkShape 1; mkShape 1]
          [0; 1] [0; 1; 2] [] [] 0%Z [] [] [] false None None.

(** The live list has been emptied. *)
Definition extinct : State Toy.env := cell_removal_pass (1 # 20) 1000 Toy.lost.

End ToyMore.

(** * Properties *)

Section Facts.

Context {E : Env}.
Implicit Types (st : State E) (c b s i n : nat) (dt ylim : Q).

(** ** What the calls into the physics world leave alone *)

Lemma logic_control st st' : logic st' = logic st → control st' = control st.
Proof. unfold logic, control. congruence. Qed.

Lemma space_step_logic dt st : logic (space_step dt st) = logic st.
Proof. reflexivity. Qed.

Lemma space_step_space dt st :
  bodies (space_step dt st) = bodies st ∧ shapes (space_step dt st) = shapes st.
Proof. done. Qed.

Lemma space_step_log dt st : log (space_step dt st) = log st ++ [Ev_step dt].
Proof. reflexivity. Qed.

Lemma length_write_back bs vs (h : list Body) : length (write_back bs vs h) = length h.
Proof.
  revert vs h. induction bs as [|b bs IH]; intros [|v vs] h; simpl; try done.
  by rewrite IH, length_insert.
Qed.

Lemma write_back_other bs vs (h : list Body) l :
  l ∉ bs → write_back bs vs h !! l = h !! l.
Proof.
  revert vs h. induction bs as [|b bs IH]; intros [|v vs] h Hl; simpl; try done.
  apply not_elem_of_cons in Hl as [Hne Hl].
  rewrite IH by done. by apply list_lookup_insert_ne.
Qed.

Lemma steps_S n dt st : steps (S n) dt st = steps n dt (space_step dt st).
Proof. reflexivity. Qed.

Lemma steps_logic n dt st : logic (steps n dt st) = logic st.
Proof.
  revert st. induction n as [|n IH]; intros st; [done|]. by rewrite steps_S, IH.
Qed.

Lemma steps_space n dt st :
  bodies (steps n dt st) = bodies st ∧ shapes (steps n dt st) = shapes st.
Proof.
  revert st. induction n as [|n IH]; intros st; [done|].
  rewrite steps_S. by rewrite !(proj1 (IH _)), !(proj2 (IH _)).
Qed.

Lemma steps_log n dt st : log (steps n dt st) = log st ++ replicate n (Ev_step dt).
Proof.
  revert st. induction n as [|n IH]; intros st.
  - by rewrite app_nil_r.
  - rewrite steps_S, IH, space_step_log, <- app_assoc. done.
Qed.

Lemma steps_length_body_heap n dt st :
  length (body_heap (steps n dt st)) = length (body_heap st).
Proof.
  revert st. induction n as [|n IH]; intros st; [done|].
  rewrite steps_S, IH. simpl. apply length_write_back.
Qed.


(** ** The shape-removal pass *)

Lemma filter_out_cons (a : nat) (l k : list nat) :
  filter (λ y, y ∉ l) (filter (λ y, y ≠ a) k) = filter (λ y, y ∉ a :: l) k.
Proof.
  rewrite list_filter_filter. apply list_filter_iff. intros y.
  rewrite not_elem_of_cons. tauto.
Qed.

Lemma filter_out_nil (k : list nat) : filter (λ y, y ∉ @nil nat) k = k.
Proof.
  induction k as [|a k IH]; [done|].
  rewrite filter_cons_True by apply not_elem_of_nil. by rewrite IH.
Qed.

Lemma remove_shapes_spec dt l st :
  logic (remove_shapes dt l st) = logic st ∧
  log (remove_shapes dt l st) = log st ++ removal_trace dt l ∧
  bodies (remove_shapes dt l st) = filter (λ b, b ∉ l.*1) (bodies st) ∧
  shapes (remove_shapes dt l st) = filter (λ s, s ∉ l.*2) (shapes st) ∧
  length (body_heap (remove_shapes dt l st)) = length (body_heap st).
Proof.
  revert st. induction l as [|[b s] l IH]; intros st; simpl.
  - rewrite app_nil_r, !filter_out_nil. done.
  - destruct (IH (space_step dt (space_remove_shape s (space_remove_body b st))))
      as (Hl & Hg & Hb & Hs & Hn).
    rewrite Hl, Hg, Hb, Hs, Hn. simpl. rewrite !filter_out_cons.
    split_and!; try done.
    + by rewrite <- !app_assoc.
    + apply length_write_back.
Qed.

Lemma shapes_to_remove_snd ylim st :
  (shapes_to_remove ylim st).*2
  = filter (λ s, out_of_bounds ylim (shape_y st s) = true) (shapes st).
Proof.
  unfold shapes_to_remove. rewrite <- list_fmap_compose.
  apply list_fmap_id.
Qed.

(** ** The cell-removal pass *)

Lemma remove_cells_logic_but_cells dt l st :
  control (remove_cells dt l st) = control st ∧
  cell_heap (remove_cells dt l st) = cell_heap st ∧
  shape_heap (remove_cells dt l st) = shape_heap st ∧
  rng (remove_cells dt l st) = rng st ∧
  bodies (remove_cells dt l st) = bodies st ∧
  shapes (remove_cells dt l st) = shapes st ∧
  length (body_heap (remove_cells dt l st)) = length (body_heap st).
Proof.
  revert st. induction l as [|c l IH]; intros st; simpl; [done|].
  destruct (IH (if decide (c ∈ cells st)
                then space_step dt (set_cells (remove_first c (cells st)) st) else st))
    as (H1 & H2 & H3 & H4 & H5 & H6 & H7).
  rewrite H1, H2, H3, H4, H5, H6, H7.
  destruct (decide (c ∈ cells st)); simpl; split_and!; try done.
  apply length_write_back.
Qed.

Lemma cells_to_remove_single ylim st c r :
  cells st = [c] →
  (cells_to_remove ylim st [c] r).1
  = if out_of_bounds ylim (cell_y st c) then [c] else [].
Proof.
  intros Hc. simpl. destruct (out_of_bounds ylim (cell_y st c)); [done|].
  destruct (norm_rvs E r) as [u r1]. rewrite Hc. simpl.
  by rewrite andb_false_r.
Qed.

(** ** wipe_space *)

Lemma filter_ext_in {A} (P Q : A → Prop) `{∀ a, Decision (P a)} `{∀ a, Decision (Q a)}
    (l : list A) :
  (∀ a, a ∈ l → (P a ↔ Q a)) → filter P l = filter Q l.
Proof.
  induction l as [|a l IH]; intros HPQ; [done|].
  rewrite !filter_cons. rewrite IH by (intros; apply HPQ; by right).
  destruct (decide (P a)) as [HP|HP], (decide (Q a)) as [HQ|HQ]; try done.
  - apply HPQ in HP; [done|by left].
  - apply HPQ in HQ; [done|by left].
Qed.

Lemma foldl_remove_body l st :
  let st' := foldl (λ w b, space_remove_body b w) st l in
  logic st' = logic st ∧ body_heap st' = body_heap st ∧ shapes st' = shapes st ∧
  bodies st' = filter (λ b, b ∉ l) (bodies st) ∧
  log st' = log st ++ (Ev_remove_body <$> l).
Proof.
  revert st. induction l as [|b l IH]; intros st; simpl.
  - by rewrite app_nil_r, filter_out_nil.
  - destruct (IH (space_remove_body b st)) as (H1 & H2 & H3 & H4 & H5).
    rewrite H1, H2, H3, H4, H5. simpl. rewrite filter_out_cons, <- app_assoc. done.
Qed.

Lemma foldl_remove_shape l st :
  let st' := foldl (λ w p, space_remove_shape p w) st l in
  logic st' = logic st ∧ body_heap st' = body_heap st ∧ bodies st' = bodies st ∧
  shapes st' = filter (λ s, s ∉ l) (shapes st) ∧
  log st' = log st ++ (Ev_remove_shape <$> l).
Proof.
  revert st. induction l as [|b l IH]; intros st; simpl.
  - by rewrite app_nil_r, filter_out_nil.
  - destruct (IH (space_remove_shape b st)) as (H1 & H2 & H3 & H4 & H5).
    rewrite H1, H2, H3, H4, H5. simpl. rewrite filter_out_cons, <- app_assoc. done.
Qed.

Lemma wipe_space_spec st :
  let l := wipe_candidates st in
  logic (wipe_space st) = logic st ∧
  body_heap (wipe_space st) = body_heap st ∧
  bodies (wipe_space st) = filter (λ b, b ∉ l.*1) (bodies st) ∧
  shapes (wipe_space st) = filter (λ s, s ∉ l.*2) (shapes st) ∧
  log (wipe_space st) = log st ++ (Ev_remove_body <$> l.*1) ++ (Ev_remove_shape <$> l.*2).
Proof.
  intros l. unfold wipe_space. fold l.
  destruct (foldl_remove_body l.*1 st) as (H1 & H2 & H3 & H4 & H5).
  destruct (foldl_remove_shape l.*2 (foldl (λ w b, space_remove_body b w) st l.*1))
    as (G1 & G2 & G3 & G4 & G5).
  rewrite G1, G2, G3, G4, G5, H1, H2, H3, H4, H5, <- app_assoc. done.
Qed.

Lemma zip_filter_fst_snd (f : nat → nat) (P : nat → Prop) `{∀ a, Decision (P a)}
    (ss : list nat) :
  (filter (λ p, P p.1) (zip (f <$> ss) ss)).*1 = filter P (f <$> ss) ∧
  (filter (λ p, P p.1) (zip (f <$> ss) ss)).*2 = filter (λ a, P (f a)) ss.
Proof.
  induction ss as [|a ss [IH1 IH2]]; [done|].
  rewrite fmap_cons.
  change (zip (f a :: (f <$> ss)) (a :: ss)) with ((f a, a) :: zip (f <$> ss) ss).
  rewrite !filter_cons. cbn [fst].
  destruct (decide (P (f a))); rewrite ?fmap_cons; cbn [fst snd]; by rewrite IH1, IH2.
Qed.

Lemma wipe_candidates_paired st :
  paired st →
  (wipe_candidates st).*1 = filter (dynamic st) (bodies st) ∧
  (wipe_candidates st).*2 = filter (λ s, dynamic st (body_of st s)) (shapes st).
Proof.
  unfold paired, wipe_candidates. intros <-.
  exact (zip_filter_fst_snd (body_of st) (dynamic st) (shapes st)).
Qed.

Lemma filter_out_filter {A} `{EqDecision A} (P : A → Prop) `{∀ a, Decision (P a)}
    (l : list A) :
  filter (λ a, a ∉ filter P l) l = filter (λ a, ¬ P a) l.
Proof.
  apply filter_ext_in. intros a Ha. rewrite list_elem_of_filter. tauto.
Qed.

Lemma wipe_paired_lists st :
  paired st →
  bodies (wipe_space st) = filter (λ b, ¬ dynamic st b) (bodies st) ∧
  shapes (wipe_space st) = filter (λ s, ¬ dynamic st (body_of st s)) (shapes st).
Proof.
  intros Hp. destruct (wipe_space_spec st) as (_ & _ & Hb & Hs & _).
  destruct (wipe_candidates_paired st Hp) as [H1 H2].
  rewrite Hb, Hs, H1, H2. split.
  - apply filter_out_filter.
  - apply (filter_out_filter (λ s, dynamic st (body_of st s))).
Qed.

Lemma wipe_space_get st :
  (∀ b, get_body (wipe_space st) b = get_body st b) ∧
  (∀ s, body_of (wipe_space st) s = body_of st s).
Proof.
  destruct (wipe_space_spec st) as (Hl & Hb & _).
  unfold logic in Hl. unfold body_of, get_body, get_shape.
  split; intros; [by rewrite Hb|].
  by replace (shape_heap (wipe_space st)) with (shape_heap st) by congruence.
Qed.

(** ** update_pm_cells: one visit *)

Lemma steps_body_other n dt st l :
  l ∉ bodies st → body_heap (steps n dt st) !! l = body_heap st !! l.
Proof.
  revert st. induction n as [|n IH]; intros st Hl; [done|].
  rewrite steps_S, IH by done. simpl. by apply write_back_other.
Qed.

Opaque steps.

Lemma adder_spec c st v :
  cell_heap st !! c = Some v →
  let st' := steps 150 (1 # 100) (cell_adder c st) in
  logic st' = logic st ∧
  bodies st' = bodies st ++ [body v] ∧
  shapes st' = shapes st ++ [shape v] ∧
  log st' = log st ++ [Ev_add_body (body v); Ev_add_shape (shape v)]
                   ++ replicate 150 (Ev_step (1 # 100)) ∧
  length (body_heap st') = length (body_heap st) ∧
  (∀ l, l ∉ bodies st → l ≠ body v → body_heap st' !! l = body_heap st !! l).
Proof.
  intros Hc st'. subst st'. unfold cell_adder. rewrite Hc.
  rewrite steps_logic, steps_log, steps_length_body_heap.
  destruct (steps_space 150 (1 # 100) (space_add_shape (shape v) (space_add_body (body v) st)))
    as [-> ->].
  split_and!; try done.
  - simpl. by rewrite <- !app_assoc.
  - intros l Hl Hne. rewrite steps_body_other; [done|].
    simpl. rewrite not_elem_of_app, list_elem_of_singleton. done.
Qed.

Lemma visit_spec c st cell :
  cell_heap st !! c = Some cell →
  ∃ (g2 : Attrs E) (new : list (Cell E)),
    let bl := length (body_heap st) in
    let sl := length (shape_heap st) in
    let dl := length (cell_heap st) in
    control (visit c st) = control st ∧
    cells (visit c st) = cells st ++ seq dl (length new) ∧
    length new ≤ 1 ∧
    cell_heap (visit c st)
    = <[c := mkCell bl sl (mother cell)
                    (if new is [] then daughter cell else Some dl) (t cell) g2]>
        (cell_heap st) ++ new ∧
    Forall (λ d, is_dividing E (update_length E (attrs cell)) = true ∧
                 (∃ k r, attrs d = (Cell_init E k r).1.1) ∧
                 body d = S bl ∧ shape d = S sl) new ∧
    shape_heap (visit c st) = shape_heap st ++ mkShape bl :: ((λ _, mkShape (S bl)) <$> new) ∧
    length (body_heap (visit c st)) = S bl + length new ∧
    (∀ l, l < bl → l ∉ bodies st → body_heap (visit c st) !! l = body_heap st !! l) ∧
    bodies (visit c st) = bodies st ++ [bl] ∧
    shapes (visit c st) = shapes st ++ [sl] ∧
    log (visit c st) = log st ++ [Ev_add_body bl; Ev_add_shape sl]
                              ++ replicate 150 (Ev_step (1 # 100)).
Proof.
  intros Hc. pose proof (lookup_lt_Some _ _ _ Hc) as Hlt.
  unfold visit. rewrite Hc.
  destruct (create_pm_cell E (update_length E (attrs cell)) (rng st)) as [[[g2 b] ret] r] eqn:Hpm.
  cbn [new_pm].
  set (bl := length (body_heap (set_rng r st))).
  set (sl := length (shape_heap (set_rng r st))).
  set (st2 := write_cell c _ _).
  set (v := mkCell bl sl (mother cell) (daughter cell) (t cell) g2).
  assert (Hv : cell_heap st2 !! c = Some v) by (by apply list_lookup_insert_eq).
  assert (Hplain :
    let st' := steps 150 (1 # 100) (cell_adder c st2) in
    control st' = control st ∧
    cells st' = cells st ++ seq (length (cell_heap st)) 0 ∧
    0 ≤ 1 ∧
    cell_heap st' = <[c := v]> (cell_heap st) ++ [] ∧
    Forall (λ d, is_dividing E (update_length E (attrs cell)) = true ∧
                 (∃ k r, attrs d = (Cell_init E k r).1.1) ∧
                 body d = S bl ∧ shape d = S sl) [] ∧
    shape_heap st' = shape_heap st ++ mkShape bl :: ((λ _, mkShape (S bl)) <$> @nil (Cell E)) ∧
    length (body_heap st') = S bl + 0 ∧
    (∀ l, l < bl → l ∉ bodies st → body_heap st' !! l = body_heap st !! l) ∧
    bodies st' = bodies st ++ [bl] ∧
    shapes st' = shapes st ++ [sl] ∧
    log st' = log st ++ [Ev_add_body bl; Ev_add_shape sl]
                     ++ replicate 150 (Ev_step (1 # 100))).
  { destruct (adder_spec c st2 v Hv) as (Hl & Hb & Hs & Hg & Hn & Ho).
    cbn zeta. unfold logic in Hl. injection Hl as Hch Hsh Hce Hts Hx Hh Hr He Hsv.
    split_and!.
    - unfold control. by rewrite Hts, Hx, Hh, He, Hsv.
    - rewrite Hce. simpl. by rewrite app_nil_r.
    - lia.
    - rewrite Hch. simpl. by rewrite app_nil_r.
    - constructor.
    - by rewrite Hsh.
    - rewrite Hn. simpl. rewrite length_app. simpl. unfold bl. simpl. lia.
    - intros l Hl1 Hl2. unfold bl in Hl1. simpl in Hl1.
      rewrite Ho; [|exact Hl2|subst v bl; simpl; lia].
      simpl. by apply lookup_app_l.
    - by rewrite Hb.
    - by rewrite Hs.
    - by rewrite Hg. }
  destruct (is_dividing E (update_length E (attrs cell))) eqn:Hdiv;
    [destruct ret as [|d]; [|destruct (2 <? kwargs_len E d) eqn:Hlen]|];
    try (exists g2, []; exact Hplain).
  clear Hplain.
  unfold spawn.
  destruct (Cell_init E d (rng st2)) as [[gd bd] r2] eqn:Hinit.
  cbn [new_pm].
  set (dcell := mkCell _ _ (Some c) None None gd).
  set (st3 := set_cell_heap _ _).
  assert (H3 : cell_heap st3 !! c = Some v).
  { unfold st3. simpl. rewrite lookup_app_l by (by rewrite length_insert).
    by apply list_lookup_insert_eq. }
  rewrite H3.
  set (v' := mkCell (body v) (shape v) (mother v) _ (t v) (attrs v)).
  set (st4 := set_cells _ _).
  assert (Hv' : cell_heap st4 !! c = Some v').
  { unfold st4. simpl. apply list_lookup_insert_eq.
    rewrite length_app, length_insert. lia. }
  destruct (adder_spec c st4 v' Hv') as (Hl & Hb & Hs & Hg & Hn & Ho).
  exists g2, [dcell]. cbn zeta.
  unfold logic in Hl. injection Hl as Hch Hsh Hce Hts Hx Hh Hr He Hsv.
  split_and!.
  - unfold control. by rewrite Hts, Hx, Hh, He, Hsv.
  - rewrite Hce. simpl. by rewrite length_insert.
  - simpl. lia.
  - rewrite Hch. simpl.
    rewrite insert_app_l by (by rewrite length_insert).
    rewrite list_insert_insert_eq. subst v' v bl sl. simpl.
    by rewrite length_insert.
  - constructor; [|done]. split_and!; [done|by exists d, (rng st2); rewrite Hinit|..].
    + simpl. rewrite length_app. simpl. unfold bl. simpl. lia.
    + simpl. rewrite length_app. simpl. unfold sl. simpl. lia.
  - rewrite Hsh. simpl.
    rewrite <- app_assoc. simpl. rewrite length_app. simpl.
    unfold bl. simpl. do 3 f_equal. f_equal. lia.
  - rewrite Hn. simpl. rewrite !length_app. simpl. unfold bl. simpl. lia.
  - intros l Hl1 Hl2. unfold bl in Hl1. simpl in Hl1.
    rewrite Ho; [|exact Hl2|subst v' v bl; simpl; lia].
    simpl. rewrite !lookup_app_l; [done|done|]. rewrite length_app. lia.
  - by rewrite Hb.
  - by rewrite Hs.
  - by rewrite Hg.
Qed.

(** ** update_pm_cells: the loop over the live list *)

Lemma update_from_mono fuel fuel' i st st' :
  update_pm_cells_from fuel i st = Some st' → fuel ≤ fuel' →
  update_pm_cells_from fuel' i st = Some st'.
Proof.
  revert fuel' i st. induction fuel as [|fuel IH]; intros fuel' i st; simpl.
  - destruct (cells st !! i) eqn:Hi; [done|]. intros ? _. destruct fuel'; simpl; by rewrite Hi.
  - destruct (cells st !! i) eqn:Hi.
    + intros H Hle. destruct fuel' as [|fuel']; [lia|]. simpl. rewrite Hi.
      apply IH; [done|lia].
    + intros ? _. destruct fuel'; simpl; by rewrite Hi.
Qed.

(** An invariant of the loop holds when the loop is left. *)
Lemma update_from_ind (I : nat → State E → Prop) :
  (∀ i st c, I i st → cells st !! i = Some c → I (S i) (visit c st)) →
  ∀ fuel i st st',
    I i st → update_pm_cells_from fuel i st = Some st' →
    ∃ i', I i' st' ∧ cells st' !! i' = None.
Proof.
  intros Hstep fuel. induction fuel as [|fuel IH]; intros i st st' HI; simpl.
  - destruct (cells st !! i) eqn:Hi; [done|]. intros [= <-]. eauto.
  - destruct (cells st !! i) as [c|] eqn:Hi.
    + intros H. eapply IH; [|done]. by apply Hstep.
    + intros [= <-]. eauto.
Qed.

Lemma visit_live_ok st i c :
  live_ok st → cells st !! i = Some c → live_ok (visit c st).
Proof.
  intros [Hnd Hb] Hi. unfold valid in Hb.
  assert (Hc : c < length (cell_heap st)).
  { rewrite Forall_lookup in Hb. by eapply Hb. }
  apply lookup_lt_is_Some_2 in Hc as [cell Hc].
  destruct (visit_spec c st cell Hc)
    as (g2 & new & _ & Hcells & Hlen & Hheap & _).
  cbn zeta in *. unfold live_ok, valid. rewrite Hcells, Hheap. split.
  - apply NoDup_app. split_and!; [done| |apply NoDup_seq].
    intros y Hy. rewrite elem_of_seq. rewrite Forall_forall in Hb.
    specialize (Hb y Hy). lia.
  - rewrite length_app, length_insert. apply Forall_app. split.
    + eapply Forall_impl; [exact Hb|]. simpl. intros; lia.
    + apply Forall_forall. intros y. rewrite elem_of_seq. lia.
Qed.

Lemma weight_pos st c : 1 ≤ weight st c.
Proof. unfold weight. destruct (divides st c); lia. Qed.

Lemma sum_list_fmap_ext (f g : nat → nat) (l : list nat) :
  (∀ a, a ∈ l → f a = g a) → sum_list (f <$> l) = sum_list (g <$> l).
Proof.
  induction l as [|a l IH]; intros H; [done|]. csimpl.
  rewrite H by (by left). rewrite IH; [done|]. intros; apply H; by right.
Qed.

Lemma visit_pending st i c :
  newborn_rests E → live_ok st → cells st !! i = Some c →
  pending (visit c st) (S i) < pending st i.
Proof.
  intros Hrest [Hnd Hb] Hi. unfold valid in Hb.
  assert (Hc : c < length (cell_heap st)).
  { rewrite Forall_lookup in Hb. by eapply Hb. }
  apply lookup_lt_is_Some_2 in Hc as [cell Hc].
  pose proof (lookup_lt_Some _ _ _ Hc) as Hclt.
  destruct (visit_spec c st cell Hc)
    as (g2 & new & _ & Hcells & Hlen & Hheap & Hnew & _).
  cbn zeta in *. unfold pending. rewrite Hcells.
  rewrite (drop_S _ _ _ Hi).
  rewrite drop_app_le by (apply lookup_lt_Some in Hi; lia).
  rewrite fmap_app, sum_list_with_app, fmap_cons. csimpl.
  assert (Hrest_eq : sum_list (weight (visit c st) <$> drop (S i) (cells st))
                     = sum_list (weight st <$> drop (S i) (cells st))).
  { apply sum_list_fmap_ext. intros a Ha.
    assert (a ≠ c).
    { intros ->. rewrite <- (take_drop (S i) (cells st)) in Hnd.
      apply NoDup_app in Hnd as (_ & Hdisj & _).
      apply (Hdisj c); [|done].
      apply list_elem_of_lookup. exists i.
      rewrite lookup_take_lt by lia. done. }
    assert (a < length (cell_heap st)).
    { rewrite Forall_forall in Hb. apply Hb.
      apply list_elem_of_lookup in Ha as [j Hj]. rewrite lookup_drop in Hj.
      by eapply list_elem_of_lookup_2. }
    unfold weight, divides. rewrite Hheap.
    rewrite lookup_app_l by (by rewrite length_insert).
    by rewrite list_lookup_insert_ne. }
  rewrite Hrest_eq.
  destruct new as [|d new]; simpl; [pose proof (weight_pos st c); lia|].
  destruct new; [|simpl in Hlen; lia]. simpl.
  apply Forall_cons in Hnew as [(Hdiv & (k & r & Hk) & _) _].
  assert (weight st c = 2) as ->.
  { unfold weight, divides. by rewrite Hc, Hdiv. }
  assert (weight (visit c st) (length (cell_heap st)) = 1) as ->.
  { unfold weight, divides. rewrite Hheap.
    rewrite lookup_app_r by (by rewrite length_insert).
    rewrite length_insert, Nat.sub_diag. simpl. rewrite Hk. by rewrite Hrest. }
  lia.
Qed.

Lemma update_from_total fuel i st :
  newborn_rests E → live_ok st → pending st i ≤ fuel →
  ∃ st', update_pm_cells_from fuel i st = Some st'.
Proof.
  intros Hrest. revert i st. induction fuel as [|fuel IH]; intros i st Hok Hp; simpl.
  - destruct (cells st !! i) as [c|] eqn:Hi; [|eauto].
    unfold pending in Hp. rewrite (drop_S _ _ _ Hi) in Hp. simpl in Hp.
    pose proof (weight_pos st c). lia.
  - destruct (cells st !! i) as [c|] eqn:Hi; [|eauto].
    apply IH; [by eapply visit_live_ok|].
    pose proof (visit_pending st i c Hrest Hok Hi). lia.
Qed.

Lemma weights_bound st (l : list nat) : sum_list (weight st <$> l) ≤ 2 * length l.
Proof.
  induction l as [|a l IH]; csimpl; [lia|].
  unfold weight at 1. destruct (divides st a); lia.
Qed.

Lemma pending_bound st i : pending st i ≤ 2 * length (cells st).
Proof.
  unfold pending. pose proof (weights_bound st (drop i (cells st))) as H.
  rewrite length_drop in H. lia.
Qed.

Lemma update_from_live_ok fuel i st st' :
  live_ok st → update_pm_cells_from fuel i st = Some st' → live_ok st'.
Proof.
  intros Hok H.
  destruct (update_from_ind (λ _ w, live_ok w)
              (λ j w a Hw Hj, visit_live_ok w j a Hw Hj) fuel i st st' Hok H)
    as (_ & ? & _). done.
Qed.

(** ** update_pm_cells: what a whole pass does *)

Lemma visit_valid st i c : valid st → cells st !! i = Some c → valid (visit c st).
Proof.
  intros Hb Hi.
  assert (Hc : c < length (cell_heap st)).
  { unfold valid in Hb. rewrite Forall_lookup in Hb. by eapply Hb. }
  apply lookup_lt_is_Some_2 in Hc as [cell Hc].
  destruct (visit_spec c st cell Hc) as (g2 & new & _ & Hcells & Hlen & Hheap & _).
  cbn zeta in *. unfold valid. rewrite Hcells, Hheap.
  rewrite length_app, length_insert. apply Forall_app. split.
  - eapply Forall_impl; [exact Hb|]. simpl. intros; lia.
  - apply Forall_forall. intros y. rewrite elem_of_seq. lia.
Qed.

Lemma update_from_spec fuel i st st' :
  valid st → i ≤ length (cells st) →
  update_pm_cells_from fuel i st = Some st' →
  control st' = control st ∧
  cells st `prefix_of` cells st' ∧
  valid st' ∧
  ∃ bs : list (nat * nat),
    length bs = length (cells st') - i ∧
    log st' = log st ++ (bs ≫= settle_block) ∧
    bodies st' = bodies st ++ bs.*1 ∧
    shapes st' = shapes st ++ bs.*2.
Proof.
  intros Hv Hi Hrun.
  destruct (update_from_ind
    (λ j w, i ≤ j ∧ j ≤ length (cells w) ∧ valid w ∧ control w = control st ∧
            cells st `prefix_of` cells w ∧
            ∃ bs : list (nat * nat),
              length bs = j - i ∧
              log w = log st ++ (bs ≫= settle_block) ∧
              bodies w = bodies st ++ bs.*1 ∧
              shapes w = shapes st ++ bs.*2)) with (fuel := fuel) (i := i) (st := st) (st' := st')
    as (j & (Hij & Hj & Hv' & Hc' & Hp' & bs & Hbs & Hlog & Hbo & Hsh) & Hend); [| |done|].
  - intros j w c (Hij & Hj & Hvw & Hcw & Hpw & bs & Hbs & Hlog & Hbo & Hsh) Hjc.
    pose proof (visit_valid w j c Hvw Hjc) as Hvv.
    assert (Hc : c < length (cell_heap w)).
    { unfold valid in Hvw. rewrite Forall_lookup in Hvw. by eapply Hvw. }
    apply lookup_lt_is_Some_2 in Hc as [cell Hc].
    destruct (visit_spec c w cell Hc)
      as (g2 & new & Hctl & Hcells & _ & _ & _ & _ & _ & _ & Hb2 & Hs2 & Hl2).
    cbn zeta in *. apply lookup_lt_Some in Hjc.
    split_and!; [lia|rewrite Hcells, length_app; lia|done|congruence| |].
    + rewrite Hcells. by apply prefix_app_r.
    + exists (bs ++ [(length (body_heap w), length (shape_heap w))]).
      rewrite length_app, bind_app, bind_singleton, !fmap_app. simpl.
      split_and!; [lia|..].
      * rewrite Hl2, Hlog, <- !app_assoc. done.
      * rewrite Hb2, Hbo, <- !app_assoc. done.
      * rewrite Hs2, Hsh, <- !app_assoc. done.
  - split_and!; [lia|done|done|done|done|].
    exists []. rewrite Nat.sub_diag, !app_nil_r. done.
  - apply lookup_ge_None in Hend.
    split_and!; [done..|]. exists bs. split_and!; [lia|done..].
Qed.

(** ** The frame: what [advance] and [conclude] do to the bookkeeping *)

Lemma visit_control c st : control (visit c st) = control st.
Proof.
  destruct (cell_heap st !! c) as [cell|] eqn:Hc.
  - by destruct (visit_spec c st cell Hc) as (? & ? & ? & _).
  - unfold visit. by rewrite Hc.
Qed.

Lemma visit_cells_prefix c st : cells st `prefix_of` cells (visit c st).
Proof.
  destruct (cell_heap st !! c) as [cell|] eqn:Hc.
  - destruct (visit_spec c st cell Hc) as (? & ? & _ & -> & _). by apply prefix_app_r.
  - unfold visit. by rewrite Hc.
Qed.

Lemma update_pm_cells_control fuel st st' :
  update_pm_cells fuel st = Some st' →
  control st' = control st ∧ cells st `prefix_of` cells st'.
Proof.
  intros H.
  destruct (update_from_ind
              (λ _ w, control w = control st ∧ cells st `prefix_of` cells w))
    with (fuel := fuel) (i := 0) (st := st) (st' := st') as (_ & ? & _); [|done..].
  intros j w c [Hc Hp] _. rewrite visit_control. split; [done|].
  etrans; [exact Hp|]. apply visit_cells_prefix.
Qed.

Lemma remove_first_sublist c (l : list nat) : remove_first c l `sublist_of` l.
Proof.
  induction l as [|a l IH]; simpl; [done|].
  destruct (decide (a = c)); [by apply sublist_cons|by apply sublist_skip].
Qed.

Lemma remove_cells_sublist dt l st : cells (remove_cells dt l st) `sublist_of` cells st.
Proof.
  revert st. induction l as [|c l IH]; intros st; simpl; [done|].
  etrans; [apply IH|]. destruct (decide (c ∈ cells st)); [|done].
  simpl. apply remove_first_sublist.
Qed.

Lemma cell_removal_pass_spec dt ylim st :
  let st' := cell_removal_pass dt ylim st in
  control st' = control st ∧
  cell_heap st' = cell_heap st ∧
  shape_heap st' = shape_heap st ∧
  bodies st' = bodies st ∧
  shapes st' = shapes st ∧
  length (body_heap st') = length (body_heap st) ∧
  cells st' `sublist_of` cells st.
Proof.
  unfold cell_removal_pass.
  destruct (cells_to_remove ylim st (cells st) (rng st)) as [cs r].
  destruct (remove_cells_logic_but_cells dt cs (set_rng r st))
    as (H1 & H2 & H3 & _ & H5 & H6 & H7).
  cbn zeta. rewrite H1, H2, H3, H5, H6, H7. split_and!; try done.
  apply (remove_cells_sublist dt cs (set_rng r st)).
Qed.

Lemma update_cell_position_spec c st :
  let st' := update_cell_position c st in
  control st' = control st ∧ cells st' = cells st ∧
  body_heap st' = body_heap st ∧ shape_heap st' = shape_heap st ∧
  bodies st' = bodies st ∧ shapes st' = shapes st ∧ log st' = log st ∧
  length (cell_heap st') = length (cell_heap st) ∧
  (∀ l, l ≠ c → cell_heap st' !! l = cell_heap st !! l) ∧
  (∀ l, body <$> cell_heap st' !! l = body <$> cell_heap st !! l) ∧
  (∀ l, shape <$> cell_heap st' !! l = shape <$> cell_heap st !! l).
Proof.
  unfold update_cell_position.
  destruct (cell_heap st !! c) as [cell|] eqn:Hc; [|done].
  cbn zeta. simpl. rewrite length_insert. split_and!; try done.
  - intros l Hl. by apply list_lookup_insert_ne.
  - intros l. destruct (decide (l = c)) as [->|].
    + rewrite list_lookup_insert_eq by (by eapply lookup_lt_Some). by rewrite Hc.
    + by rewrite list_lookup_insert_ne.
  - intros l. destruct (decide (l = c)) as [->|].
    + rewrite list_lookup_insert_eq by (by eapply lookup_lt_Some). by rewrite Hc.
    + by rewrite list_lookup_insert_ne.
Qed.

Lemma update_positions_fold_spec (k : list nat) st :
  let st' := foldl (λ w c, update_cell_position c w) st k in
  control st' = control st ∧ cells st' = cells st ∧
  body_heap st' = body_heap st ∧ shape_heap st' = shape_heap st ∧
  bodies st' = bodies st ∧ shapes st' = shapes st ∧ log st' = log st ∧
  length (cell_heap st') = length (cell_heap st) ∧
  (∀ l, l ∉ k → cell_heap st' !! l = cell_heap st !! l) ∧
  (∀ l, body <$> cell_heap st' !! l = body <$> cell_heap st !! l) ∧
  (∀ l, shape <$> cell_heap st' !! l = shape <$> cell_heap st !! l).
Proof.
  revert st. induction k as [|c k IH]; intros st; [done|].
  cbn zeta. change (foldl _ st (c :: k))
    with (foldl (λ w a, update_cell_position a w) (update_cell_position c st) k).
  destruct (IH (update_cell_position c st))
    as (H1 & H2 & H3 & H4 & H5 & H6 & H7 & H8 & H9 & H10 & H11).
  destruct (update_cell_position_spec c st)
    as (G1 & G2 & G3 & G4 & G5 & G6 & G7 & G8 & G9 & G10 & G11).
  cbn zeta in *.
  rewrite H1, H2, H3, H4, H5, H6, H7, H8, G1, G2, G3, G4, G5, G6, G7, G8.
  split_and!; try done.
  - intros l Hl. apply not_elem_of_cons in Hl as [Hne Hl]. rewrite H9 by done. by apply G9.
  - intros l. by rewrite H10, G10.
  - intros l. by rewrite H11, G11.
Qed.

Lemma update_cell_positions_spec st :
  let st' := update_cell_positions st in
  control st' = control st ∧ cells st' = cells st ∧
  body_heap st' = body_heap st ∧ shape_heap st' = shape_heap st ∧
  bodies st' = bodies st ∧ shapes st' = shapes st ∧ log st' = log st ∧
  length (cell_heap st') = length (cell_heap st) ∧
  (∀ l, l ∉ cells st → cell_heap st' !! l = cell_heap st !! l) ∧
  (∀ l, body <$> cell_heap st' !! l = body <$> cell_heap st !! l) ∧
  (∀ l, shape <$> cell_heap st' !! l = shape <$> cell_heap st !! l).
Proof. apply update_positions_fold_spec. Qed.

Lemma advance_control fuel dt iters ylim st st' :
  advance fuel dt iters ylim st = Some st' → control st' = control st.
Proof.
  unfold advance. cbn zeta. intros H.
  destruct (update_pm_cells fuel _) as [st4|] eqn:H4; [|done].
  injection H as <-.
  destruct (update_cell_positions_spec (steps (Z.to_nat iters) dt st4)) as (-> & _).
  rewrite (logic_control _ _ (steps_logic _ _ _)).
  destruct (update_pm_cells_control _ _ _ H4) as [-> _].
  destruct (wipe_space_spec (cell_removal_pass dt ylim (shape_removal_pass dt ylim st)))
    as (Hw & _).
  rewrite (logic_control _ _ Hw).
  destruct (cell_removal_pass_spec dt ylim (shape_removal_pass dt ylim st)) as (-> & _).
  destruct (remove_shapes_spec dt (shapes_to_remove ylim st) st) as (Hs & _).
  apply (logic_control _ _ Hs).
Qed.

Lemma conclude_spec len st :
  let st' := conclude len st in
  x st' = (if (x st =? len - 1)%Z then x st else x st + 1)%Z ∧
  cell_timeseries st'
  = cell_timeseries st
    ++ (if (1 <? x st)%Z then [Nat.add (length (cell_heap st)) <$> cells st] else []) ∧
  has_exit st' = (if (x st =? len - 1)%Z then true else has_exit st) ∧
  saved st' = (if (x st =? len - 1)%Z
               then Some (cell_timeseries st', (bodies st', shapes st')) else saved st) ∧
  historic_cells st' = historic_cells st ∧
  cells st' = cells st ∧ bodies st' = bodies st ∧ shapes st' = shapes st ∧
  log st' = log st ∧ rng st' = rng st.
Proof.
  unfold conclude, record_frame, deepcopy, finalize.
  destruct (1 <? x st)%Z; cbn zeta; simpl;
    destruct (x st =? len - 1)%Z; simpl; rewrite ?app_nil_r; done.
Qed.

Lemma step_and_update_Some fuel dt iters ylim len st st' :
  step_and_update fuel dt iters ylim len st = Some st' ↔
  ∃ st6, advance fuel dt iters ylim st = Some st6 ∧ st' = conclude len st6.
Proof.
  unfold step_and_update. destruct (advance fuel dt iters ylim st) as [st6|]; simpl.
  - split; [intros [= <-]; eauto|intros (? & [= <-] & ->); done].
  - split; [done|intros (? & ? & _); done].
Qed.

Lemma step_and_update_counters fuel dt iters ylim len st st' :
  step_and_update fuel dt iters ylim len st = Some st' →
  counters st' = tick len (counters st) ∧
  historic_cells st' = historic_cells st ∧
  cell_timeseries st `prefix_of` cell_timeseries st' ∧
  has_exit st' = (if (x st =? len - 1)%Z then true else has_exit st) ∧
  saved st' = (if (x st =? len - 1)%Z
               then Some (cell_timeseries st', (bodies st', shapes st')) else saved st).
Proof.
  intros (st6 & Ha & ->)%step_and_update_Some.
  pose proof (advance_control _ _ _ _ _ _ Ha) as Hc.
  unfold control in Hc. injection Hc as Hts Hx Hh He Hs.
  destruct (conclude_spec len st6) as (G1 & G2 & G3 & G4 & G5 & _). cbn zeta in *.
  unfold counters, tick. simpl. rewrite G4, G1, G2, G3, G5, Hts, Hx, Hh, He, Hs.
  split_and!; try done.
  - rewrite length_app. destruct (1 <? x st)%Z; simpl; f_equal; lia.
  - by apply prefix_app_r.
Qed.

(** ** Every call returns *)

Lemma live_ok_transport st st' :
  cells st' `sublist_of` cells st →
  length (cell_heap st) ≤ length (cell_heap st') →
  live_ok st → live_ok st'.
Proof.
  intros Hsub Hlen [Hnd Hb]. unfold valid in Hb. split.
  - by eapply sublist_NoDup.
  - apply Forall_forall. intros c Hc. rewrite Forall_forall in Hb.
    eapply Nat.lt_le_trans; [|exact Hlen]. apply Hb.
    by eapply elem_of_sublist.
Qed.

Lemma conclude_live_ok len st : live_ok st → live_ok (conclude len st).
Proof.
  apply live_ok_transport.
  - by destruct (conclude_spec len st) as (_ & _ & _ & _ & _ & -> & _).
  - unfold conclude, record_frame, deepcopy, finalize.
    destruct (1 <? x st)%Z; cbn zeta; simpl;
      destruct (x st =? len - 1)%Z; simpl; rewrite ?length_app; lia.
Qed.

Lemma advance_total dt iters ylim st :
  newborn_rests E → live_ok st →
  ∃ st6, live_ok st6 ∧
         ∀ fuel, 2 * length (cells st) ≤ fuel → advance fuel dt iters ylim st = Some st6.
Proof.
  intros Hrest Hok. unfold advance. cbn zeta.
  set (st1 := shape_removal_pass dt ylim st).
  set (st2 := cell_removal_pass dt ylim st1).
  set (st3 := wipe_space st2).
  destruct (remove_shapes_spec dt (shapes_to_remove ylim st) st) as (H1 & _).
  fold (shape_removal_pass dt ylim st) in H1. fold st1 in H1.
  destruct (cell_removal_pass_spec dt ylim st1) as (_ & H2h & _ & _ & _ & _ & H2c).
  fold st2 in H2h, H2c.
  destruct (wipe_space_spec st2) as (H3 & _). fold st3 in H3.
  unfold logic in H1, H3. injection H1 as H1h _ H1c _. injection H3 as H3h _ H3c _.
  assert (Hok3 : live_ok st3).
  { apply (live_ok_transport st); [|by rewrite H3h, H2h, H1h|done].
    by rewrite H3c, <- H1c. }
  assert (Hlen : length (cells st3) ≤ length (cells st)).
  { rewrite H3c, <- H1c. by apply sublist_length. }
  destruct (update_from_total (pending st3 0) 0 st3 Hrest Hok3) as [st4 Hrun]; [done|].
  pose proof (update_from_live_ok _ _ _ _ Hok3 Hrun) as Hok4.
  exists (update_cell_positions (steps (Z.to_nat iters) dt st4)). split.
  - apply (live_ok_transport st4); [| |done].
    + destruct (update_cell_positions_spec (steps (Z.to_nat iters) dt st4)) as (_ & -> & _).
      pose proof (steps_logic (Z.to_nat iters) dt st4) as Hl. unfold logic in Hl.
      injection Hl as _ _ -> _. done.
    + destruct (update_cell_positions_spec (steps (Z.to_nat iters) dt st4))
        as (_ & _ & _ & _ & _ & _ & _ & -> & _).
      pose proof (steps_logic (Z.to_nat iters) dt st4) as Hl. unfold logic in Hl.
      injection Hl as -> _. done.
  - intros fuel Hfuel. unfold update_pm_cells.
    rewrite (update_from_mono _ fuel _ _ _ Hrun); [done|].
    pose proof (pending_bound st3 0). lia.
Qed.

Lemma step_and_update_total dt iters ylim len st :
  newborn_rests E → live_ok st →
  ∃ st', live_ok st' ∧
         ∀ fuel, 2 * length (cells st) ≤ fuel →
                 step_and_update fuel dt iters ylim len st = Some st'.
Proof.
  intros Hrest Hok.
  destruct (advance_total dt iters ylim st Hrest Hok) as (st6 & Hok6 & H6).
  exists (conclude len st6). split; [by apply conclude_live_ok|].
  intros fuel Hfuel. unfold step_and_update. by rewrite H6.
Qed.

(** ** The two drivers *)

Lemma headless_loop_total n dt iters ylim len st :
  newborn_rests E → live_ok st →
  ∃ st' fuel0, live_ok st' ∧
    ∀ fuel, fuel0 ≤ fuel → headless_loop n fuel dt iters ylim len st = Some st'.
Proof.
  intros Hrest. revert st. induction n as [|n IH]; intros st Hok.
  - exists st, 0. done.
  - destruct (step_and_update_total dt iters ylim len st Hrest Hok) as (st1 & Hok1 & H1).
    destruct (IH st1 Hok1) as (st' & f0 & Hok' & H').
    exists st', (Nat.max (2 * length (cells st)) f0). split; [done|].
    intros fuel Hfuel. simpl. rewrite H1 by lia. simpl. apply H'. lia.
Qed.

Lemma headless_loop_counters n fuel dt iters ylim len st st' :
  headless_loop n fuel dt iters ylim len st = Some st' →
  counters st' = Nat.iter n (tick len) (counters st) ∧
  historic_cells st' = historic_cells st.
Proof.
  revert st. induction n as [|n IH]; intros st; simpl.
  - by intros [= <-].
  - destruct (step_and_update fuel dt iters ylim len st) as [st1|] eqn:H1; [|done]. simpl.
    intros H. destruct (IH _ H) as [-> ->].
    destruct (step_and_update_counters _ _ _ _ _ _ _ H1) as (-> & -> & _).
    split; [|done]. by rewrite <- Nat.iter_succ_r.
Qed.

Lemma headless_loop_last n fuel dt iters ylim len st st' :
  headless_loop (S n) fuel dt iters ylim len st = Some st' →
  ∃ stp, headless_loop n fuel dt iters ylim len st = Some stp ∧
         step_and_update fuel dt iters ylim len stp = Some st'.
Proof.
  revert st. induction n as [|n IH]; intros st.
  - simpl. destruct (step_and_update fuel dt iters ylim len st) as [st1|] eqn:H1; [|done].
    simpl. intros [= <-]. eauto.
  - intros H. change (headless_loop (S (S n)) fuel dt iters ylim len st)
      with (step_and_update fuel dt iters ylim len st
              ≫= headless_loop (S n) fuel dt iters ylim len) in H.
    destruct (step_and_update fuel dt iters ylim len st) as [st1|] eqn:H1; [|done].
    simpl in H. destruct (IH _ H) as (stp & Hp & Hl).
    exists stp. split; [|done].
    change (headless_loop (S n) fuel dt iters ylim len st)
      with (step_and_update fuel dt iters ylim len st
              ≫= headless_loop n fuel dt iters ylim len).
    by rewrite H1.
Qed.

(** *** The counter, in closed form *)

Lemma tick_rise len k x n :
  (2 ≤ x)%Z → (x + Z.of_nat k ≤ len - 1)%Z →
  Nat.iter k (tick len) (x, n) = ((x + Z.of_nat k)%Z, n + k).
Proof.
  intros Hx. induction k as [|k IH]; intros Hk.
  - simpl. f_equal; lia.
  - rewrite Nat.iter_succ, IH by lia. unfold tick. simpl fst. simpl snd.
    destruct (Z.eqb_spec (x + Z.of_nat k) (len - 1)); [lia|].
    destruct (Z.ltb_spec 1 (x + Z.of_nat k)); [|lia].
    f_equal; lia.
Qed.

Lemma tick_stuck len k x n :
  x = (len - 1)%Z →
  Nat.iter k (tick len) (x, n) = (x, if (1 <? x)%Z then n + k else n).
Proof.
  intros Hx. induction k as [|k IH].
  - simpl. destruct (1 <? x)%Z; f_equal; lia.
  - rewrite Nat.iter_succ, IH. unfold tick. simpl fst. simpl snd.
    destruct (Z.eqb_spec x (len - 1)); [|lia].
    destruct (1 <? x)%Z; f_equal; lia.
Qed.

Lemma tick_start len : (3 ≤ len)%Z → Nat.iter 2 (tick len) (0%Z, 0) = (2%Z, 0).
Proof.
  intros Hlen.
  change (Nat.iter 2 (tick len) (0%Z, 0)) with (tick len (tick len (0%Z, 0))).
  assert (tick len (0%Z, 0) = (1%Z, 0)) as ->.
  { unfold tick. simpl fst. simpl snd. destruct (Z.eqb_spec 0 (len - 1)); [lia|done]. }
  unfold tick. simpl fst. simpl snd. destruct (Z.eqb_spec 1 (len - 1)); [lia|done].
Qed.

(** Up to the frame before the last one. *)
Lemma tick_before_last len :
  (3 ≤ len)%Z →
  Nat.iter (Z.to_nat (len - 1)) (tick len) (0%Z, 0) = ((len - 1)%Z, Z.to_nat (len - 3)).
Proof.
  intros Hlen.
  replace (Z.to_nat (len - 1)) with (Z.to_nat (len - 3) + 2) by lia.
  rewrite Nat.iter_add, tick_start by done.
  rewrite tick_rise by lia. f_equal; lia.
Qed.

Lemma tick_headless len :
  (3 ≤ len)%Z →
  Nat.iter (Z.to_nat (len + 2)) (tick len) (0%Z, 0) = ((len - 1)%Z, Z.to_nat len).
Proof.
  intros Hlen.
  replace (Z.to_nat (len + 2)) with (3 + Z.to_nat (len - 1)) by lia.
  rewrite Nat.iter_add, tick_before_last by done.
  rewrite tick_stuck by done.
  destruct (Z.ltb_spec 1 (len - 1)); [|lia]. f_equal. lia.
Qed.

Lemma tick_fst len m x0 n :
  (x0 ≤ len - 1)%Z →
  (Nat.iter m (tick len) (x0, n)).1 = Z.min (x0 + Z.of_nat m) (len - 1).
Proof.
  intros Hx. induction m as [|m IH].
  - simpl. lia.
  - rewrite Nat.iter_succ. unfold tick at 1. simpl fst. rewrite IH.
    destruct (Z.eqb_spec (Z.min (x0 + Z.of_nat m) (len - 1)) (len - 1)); lia.
Qed.

Lemma window_loop_total (clk : nat → Q) iters ylim len k :
  ∀ st j,
    newborn_rests E → live_ok st → has_exit st = false →
    (x st + Z.of_nat k = len - 1)%Z →
    ∃ st' fuel0,
      live_ok st' ∧
      counters st' = tick len (Nat.iter k (tick len) (counters st)) ∧
      historic_cells st' = historic_cells st ∧
      saved st' = Some (cell_timeseries st', (bodies st', shapes st')) ∧
      ∀ ticks fuel, S k ≤ ticks → fuel0 ≤ fuel →
        window_loop ticks fuel j clk iters ylim len st = Some st'.
Proof.
  induction k as [|k IH]; intros st j Hrest Hok Hexit Hx.
  - destruct (step_and_update_total (clk j) iters ylim len st Hrest Hok) as (st' & Hok' & H').
    destruct (step_and_update_counters _ _ _ _ _ _ _ (H' _ (Nat.le_refl _)))
      as (Hc & Hh & _ & He & Hs).
    assert ((x st =? len - 1)%Z = true) as Heq by (apply Z.eqb_eq; lia).
    rewrite Heq in He, Hs.
    exists st', (2 * length (cells st)). split_and!; try done.
    intros ticks fuel Ht Hf. destruct ticks as [|ticks]; [lia|]. simpl.
    rewrite H' by done. simpl. by rewrite He.
  - destruct (step_and_update_total (clk j) iters ylim len st Hrest Hok) as (st1 & Hok1 & H1).
    destruct (step_and_update_counters _ _ _ _ _ _ _ (H1 _ (Nat.le_refl _)))
      as (Hc & Hh & _ & He & Hs).
    assert ((x st =? len - 1)%Z = false) as Heq by (apply Z.eqb_neq; lia).
    rewrite Heq in He.
    assert (Hx1 : x st1 = (x st + 1)%Z).
    { apply (f_equal fst) in Hc. unfold counters, tick in Hc. simpl in Hc.
      by rewrite Heq in Hc. }
    destruct (IH st1 (S j) Hrest Hok1) as (st' & f0 & Hok' & Hc' & Hh' & Hs' & H');
      [congruence|lia|].
    exists st', (Nat.max (2 * length (cells st)) f0). split_and!; try done.
    + by rewrite Hc', Hc, <- Nat.iter_succ_r.
    + congruence.
    + intros ticks fuel Ht Hf. destruct ticks as [|ticks]; [lia|]. simpl.
      rewrite H1 by lia. simpl. rewrite He, Hexit. apply H'; lia.
Qed.

Lemma initial_state_spec (a : Args E) :
  live_ok (initial_state a) ∧
  counters (initial_state a) = (0%Z, 0) ∧
  has_exit (initial_state a) = false ∧
  historic_cells (initial_state a) = [0] ∧
  cells (initial_state a) = [0] ∧
  length (cell_heap (initial_state a)) = 1.
Proof.
  unfold initial_state. destruct (Cell_init E (seed_kwargs a) (seed_rng a)) as [[g b] r].
  cbn zeta. split_and!; try done. split; simpl.
  - apply NoDup_singleton.
  - repeat constructor.
Qed.

(** ** The run as a whole *)

Lemma run_simulation_fields ticks fuel (a : Args E) r :
  run_simulation ticks fuel a = Some r →
  ∃ st,
    (if show_window a
     then window_loop ticks fuel 0 (clock a) (phys_iters a) (ylim_of a) (sim_length a)
            (initial_state a)
     else headless_loop (Z.to_nat (sim_length a + 2)) fuel (1 # 20) (phys_iters a)
            (ylim_of a) (sim_length a) (initial_state a)) = Some st ∧
    cell_timeseries r = cell_timeseries st ∧ historic_cells r = historic_cells st ∧
    saved r = saved st ∧ cells r = cells st ∧ x r = x st.
Proof.
  unfold run_simulation. intros H.
  destruct (if show_window a then _ else _) as [st|]; [|done].
  simpl in H. injection H as <-. by exists st.
Qed.

(** What the saving branch leaves behind. *)
Lemma step_and_update_pickled fuel dt iters ylim len st st' :
  step_and_update fuel dt iters ylim len st = Some st' →
  (x st =? len - 1)%Z = true →
  pickled st' = Some (cell_heap st', body_heap st', shape_heap st').
Proof.
  intros (st6 & Ha & ->)%step_and_update_Some Hx.
  pose proof (advance_control _ _ _ _ _ _ Ha) as Hc. unfold control in Hc.
  injection Hc as _ Hx6 _. rewrite <- Hx6 in Hx.
  unfold conclude, record_frame, deepcopy, finalize.
  destruct (1 <? x st6)%Z; cbn zeta; simpl; by rewrite Hx.
Qed.

Lemma window_loop_pickled ticks fuel (clk : nat → Q) iters ylim len :
  ∀ k st st',
    has_exit st = false →
    window_loop ticks fuel k clk iters ylim len st = Some st' →
    pickled st' = Some (cell_heap st', body_heap st', shape_heap st').
Proof.
  induction ticks as [|ticks IH]; intros k st st' He; simpl; [done|].
  destruct (step_and_update fuel (clk k) iters ylim len st) as [st1|] eqn:H1; [|done].
  simpl. destruct (step_and_update_counters _ _ _ _ _ _ _ H1) as (_ & _ & _ & He1 & _).
  destruct (has_exit st1) eqn:Hx1.
  - intros [= <-]. apply (step_and_update_pickled _ _ _ _ _ _ _ H1).
    destruct (x st =? len - 1)%Z; [done|congruence].
  - by apply IH.
Qed.

(** With a newborn that does not divide at once, the calls of a run with
    [sim_length >= 2] all return, and the last of them has saved. *)
Lemma drive_returns (a : Args E) :
  newborn_rests E → (2 ≤ sim_length a)%Z →
  ∃ st ticks0 fuel0,
    (∀ ticks fuel, ticks0 ≤ ticks → fuel0 ≤ fuel → drive ticks fuel a = Some st) ∧
    saved st = Some (cell_timeseries st, (bodies st, shapes st)) ∧
    pickled st = Some (cell_heap st, body_heap st, shape_heap st) ∧
    length (cell_timeseries st)
    = if show_window a then Z.to_nat (sim_length a - 2)
      else if (sim_length a =? 2)%Z then 0 else Z.to_nat (sim_length a).
Proof.
  intros Hrest Hlen.
  destruct (initial_state_spec a) as (Hok & Hc0 & He0 & _).
  assert (Hx0 : x (initial_state a) = 0%Z) by (by injection Hc0).
  unfold drive. destruct (show_window a).
  - destruct (window_loop_total (clock a) (phys_iters a) (ylim_of a) (sim_length a)
                (Z.to_nat (sim_length a - 1)) (initial_state a) 0 Hrest Hok He0)
      as (st' & f0 & _ & Hc & _ & Hs & Hrun); [lia|].
    exists st', (S (Z.to_nat (sim_length a - 1))), f0. split_and!.
    + intros ticks fuel Ht Hf. by rewrite (Hrun ticks fuel Ht Hf).
    + exact Hs.
    + eapply window_loop_pickled; [exact He0|].
      apply (Hrun (S (Z.to_nat (sim_length a - 1))) f0); lia.
    + rewrite Hc0 in Hc. apply (f_equal snd) in Hc. unfold counters in Hc at 1.
      simpl snd in Hc at 1. rewrite Hc.
      destruct (decide (sim_length a = 2%Z)) as [Heq|Hne]; [by rewrite Heq|].
      rewrite tick_before_last by lia. unfold tick. simpl fst. simpl snd.
      destruct (Z.ltb_spec 1 (sim_length a - 1)); simpl; lia.
  - destruct (headless_loop_total (Z.to_nat (sim_length a + 2)) (1 # 20) (phys_iters a)
                (ylim_of a) (sim_length a) (initial_state a) Hrest Hok)
      as (st' & f0 & _ & Hrun).
    pose proof (Hrun f0 (Nat.le_refl _)) as Hrun0.
    destruct (headless_loop_counters _ _ _ _ _ _ _ _ Hrun0) as [Hc _].
    replace (Z.to_nat (sim_length a + 2)) with (S (Z.to_nat (sim_length a + 1))) in Hrun0
      by lia.
    apply headless_loop_last in Hrun0 as (stp & Hp & Hlast).
    destruct (headless_loop_counters _ _ _ _ _ _ _ _ Hp) as [Hcp _].
    destruct (step_and_update_counters _ _ _ _ _ _ _ Hlast) as (_ & _ & _ & _ & Hs).
    assert (Hxp : x stp = (sim_length a - 1)%Z).
    { apply (f_equal fst) in Hcp. simpl in Hcp. rewrite Hcp, Hc0.
      rewrite tick_fst by lia. lia. }
    pose proof (step_and_update_pickled _ _ _ _ _ _ _ Hlast) as Hpk.
    rewrite Hxp, Z.eqb_refl in Hs, Hpk.
    exists st', 0, f0. split_and!.
    + intros ticks fuel _ Hf. by rewrite (Hrun fuel Hf).
    + exact Hs.
    + by apply Hpk.
    + rewrite Hc0 in Hc. apply (f_equal snd) in Hc. unfold counters in Hc at 1.
      simpl snd in Hc at 1. rewrite Hc.
      destruct (Z.eqb_spec (sim_length a) 2) as [Heq|Hne]; [by rewrite Heq|].
      by rewrite tick_headless by lia.
Qed.

(** C10 (amended).  A call never takes the counter from at most
    [sim_length - 1] to above it.  A call entered with
    [x[0] == sim_length - 1] leaves the counter where it is, writes the two
    pickle files again and asks pyglet to exit; it appends a frame only when
    [x[0] > 1], so for [sim_length] 1 or 2 the repeated calls append
    nothing. *)
Theorem finalize_reentered fuel dt iters ylim len st st' :
  step_and_update fuel dt iters ylim len st = Some st' →
  ((x st ≤ len - 1)%Z → (x st' ≤ len - 1)%Z) ∧
  (x st = (len - 1)%Z →
   x st' = x st ∧
   length (cell_timeseries st')
   = length (cell_timeseries st) + (if (1 <? x st)%Z then 1 else 0) ∧
   saved st' = Some (cell_timeseries st', (bodies st', shapes st')) ∧
   has_exit st' = true).
Proof.
  intros H. destruct (step_and_update_counters _ _ _ _ _ _ _ H) as (Hc & _ & _ & He & Hs).
  unfold counters, tick in Hc. simpl in Hc. injection Hc as Hx Hn. split.
  - intros Hle. rewrite Hx. destruct (Z.eqb_spec (x st) (len - 1)); lia.
  - intros Heq. rewrite Heq, Z.eqb_refl in *. rewrite <- Heq in *.
    split_and!; try done. rewrite Hn. destruct (1 <? x st)%Z; lia.
Qed.

(** Nothing in the run ever adds to [historic_cells]. *)
Lemma historic_cells_only_seed ticks fuel (a : Args E) r :
  run_simulation ticks fuel a = Some r → historic_cells r = [0].
Proof.
  intros (st & Hloop & _ & -> & _)%run_simulation_fields.
  destruct (initial_state_spec a) as (_ & _ & _ & Hh & _).
  destruct (show_window a).
  - revert Hloop. generalize 0 at 1. generalize (initial_state a) Hh. clear Hh.
    induction ticks as [|ticks IH]; intros st0 Hh j; simpl; [done|].
    destruct (step_and_update fuel (clock a j) _ _ _ st0) as [st1|] eqn:H1; [|done]. simpl.
    destruct (step_and_update_counters _ _ _ _ _ _ _ H1) as (_ & Hh1 & _).
    destruct (has_exit st1).
    + intros [= <-]. congruence.
    + apply IH. congruence.
  - destruct (headless_loop_counters _ _ _ _ _ _ _ _ Hloop) as [_ ->]. done.
Qed.

(** ** The passes of a frame *)

Lemma shape_removal_pass_spec dt ylim st :
  let gone := filter (λ s, out_of_bounds ylim (shape_y st s) = true) (shapes st) in
  let st' := shape_removal_pass dt ylim st in
  log st' = log st
            ++ (gone ≫= λ s, [Ev_remove_body (body_of st s); Ev_remove_shape s; Ev_step dt]) ∧
  count_steps (log st') = count_steps (log st) + length gone ∧
  shapes st' = filter (λ s, out_of_bounds ylim (shape_y st s) ≠ true) (shapes st) ∧
  bodies st' = filter (λ b, b ∉ body_of st <$> gone) (bodies st) ∧
  (∀ s, s ∈ gone → (s ∉ shapes st') ∧ (body_of st s ∉ bodies st')).
Proof.
  intros gone st'.
  destruct (remove_shapes_spec dt (shapes_to_remove ylim st) st) as (_ & Hg & Hb & Hs & _).
  fold (shape_removal_pass dt ylim st) in Hg, Hb, Hs. fold st' in Hg, Hb, Hs.
  rewrite shapes_to_remove_snd in Hs. fold gone in Hs.
  assert (H1 : (shapes_to_remove ylim st).*1 = body_of st <$> gone).
  { unfold shapes_to_remove. by rewrite <- list_fmap_compose. }
  rewrite H1 in Hb.
  assert (Hlog : log st' = log st
            ++ (gone ≫= λ s, [Ev_remove_body (body_of st s); Ev_remove_shape s; Ev_step dt])).
  { rewrite Hg. f_equal. unfold removal_trace, shapes_to_remove. fold gone.
    by rewrite list_fmap_bind. }
  split_and!; try done.
  - rewrite Hlog. clear. generalize (log st). intros l.
    induction l as [|e l IH]; simpl.
    + induction gone as [|s g IH]; [done|]. rewrite bind_cons. simpl. by rewrite IH.
    + destruct e; simpl; by rewrite IH.
  - rewrite Hs. unfold gone. apply filter_out_filter.
  - intros s Hin. split.
    + rewrite Hs, list_elem_of_filter. tauto.
    + rewrite Hb, list_elem_of_filter. intros [Hn _]. apply Hn.
      by apply list_elem_of_fmap_2.
Qed.

Lemma filter_out_length (l G : list nat) :
  NoDup l → NoDup G → (∀ a, a ∈ G → a ∈ l) →
  length l = length (filter (λ a, a ∉ G) l) + length G.
Proof.
  intros Hl HG Hsub.
  pose proof (filter_app_complement (λ a, a ∉ G) l) as Hp.
  apply Permutation_length in Hp. rewrite length_app in Hp. rewrite <- Hp. f_equal.
  apply Permutation_length, NoDup_Permutation; [by apply NoDup_filter|done|].
  intros a. rewrite list_elem_of_filter. split.
  - intros [Hn _]. by destruct (decide (a ∈ G)).
  - intros Ha. split; [by intros Hn|by apply Hsub].
Qed.


(** C3 (amended).  With exactly one live cell the lysis test never removes
    it, whatever is drawn: the cell leaves the list if and only if it is out
    of the trench bounds, a removal that nothing guards. *)
Theorem single_cell_never_lysed dt ylim st c :
  cells st = [c] →
  cells (cell_removal_pass dt ylim st)
  = if out_of_bounds ylim (cell_y st c) then [] else [c].
Proof.
  intros Hc. unfold cell_removal_pass. rewrite Hc.
  pose proof (cells_to_remove_single ylim st c (rng st) Hc) as H1.
  destruct (cells_to_remove ylim st [c] (rng st)) as [cs r]. simpl in H1. subst cs.
  destruct (out_of_bounds ylim (cell_y st c)); simpl.
  - rewrite Hc. rewrite decide_True by (by left). simpl.
    by rewrite decide_True.
  - done.
Qed.

Lemma fmap_filter_comm (f : nat → nat) (P : nat → Prop) `{∀ a, Decision (P a)}
    (l : list nat) :
  f <$> filter (λ a, P (f a)) l = filter P (f <$> l).
Proof.
  induction l as [|a l IH]; [done|].
  rewrite fmap_cons, !filter_cons. destruct (decide (P (f a))); by rewrite ?fmap_cons, IH.
Qed.

Lemma wipe_paired_spec st :
  paired st →
  let st' := wipe_space st in
  bodies st' = filter (λ b, ¬ dynamic st b) (bodies st) ∧
  shapes st' = filter (λ s, ¬ dynamic st (body_of st s)) (shapes st) ∧
  Forall (λ b, ¬ dynamic st' b) (bodies st') ∧
  Forall (λ s, ¬ dynamic st' (body_of st' s)) (shapes st') ∧
  body_heap st' = body_heap st ∧ shape_heap st' = shape_heap st ∧
  paired st'.
Proof.
  intros Hp st'. destruct (wipe_paired_lists st Hp) as [Hb Hs].
  destruct (wipe_space_get st) as [Hgb Hgs].
  destruct (wipe_space_spec st) as (Hl & Hbh & _).
  fold st' in Hb, Hs, Hgb, Hgs, Hl, Hbh.
  assert (Hdyn : ∀ b, dynamic st' b ↔ dynamic st b).
  { intros b. unfold dynamic. by rewrite Hgb. }
  split_and!; try done.
  - rewrite Hb. apply Forall_forall. intros b [Hd _]%list_elem_of_filter. by rewrite Hdyn.
  - rewrite Hs. apply Forall_forall. intros s [Hd _]%list_elem_of_filter.
    by rewrite Hdyn, Hgs.
  - unfold logic in Hl. congruence.
  - unfold paired. rewrite Hb, Hs, <- Hp.
    rewrite <- (fmap_filter_comm (body_of st) (λ b, ¬ dynamic st b)).
    apply list_fmap_ext. intros _ s _. apply Hgs.
Qed.

(** C5 (amended).  In a space whose bodies and shapes were registered two
    by two, [wipe_space] removes every dynamic body with its shape and
    nothing else: the static bodies and their shapes stay, in their order,
    and afterwards the space holds no dynamic body and no shape on one. *)
Theorem wipe_space_paired st :
  paired st →
  let st' := wipe_space st in
  bodies st' = filter (λ b, ¬ dynamic st b) (bodies st) ∧
  shapes st' = filter (λ s, ¬ dynamic st (body_of st s)) (shapes st) ∧
  Forall (λ b, ¬ dynamic st' b) (bodies st') ∧
  Forall (λ s, ¬ dynamic st' (body_of st' s)) (shapes st') ∧
  body_heap st' = body_heap st ∧ shape_heap st' = shape_heap st ∧
  paired st'.
Proof. apply wipe_paired_spec. Qed.

Lemma count_steps_app (l k : list Event) :
  count_steps (l ++ k) = count_steps l + count_steps k.
Proof. induction l as [|[] l IH]; simpl; by rewrite ?IH. Qed.

Lemma count_steps_blocks (bs : list (nat * nat)) :
  count_steps (bs ≫= settle_block) = 150 * length bs.
Proof.
  induction bs as [|p bs IH]; [done|].
  rewrite bind_cons, count_steps_app, IH.
  change (count_steps (settle_block p)) with 150. simpl length. lia.
Qed.

(** C6 (amended).  A synchronization pass returns, and for every cell it
    visits, the daughters it appends included, it adds the cell's body and
    shape to the world and then steps the world 150 times by 1/100: the
    settling steps are 150 for each cell of the final list, run cell by cell
    between the registrations, not once after all of them. *)
Theorem settle_steps_per_cell st :
  newborn_rests E → live_ok st →
  ∃ st' (bs : list (nat * nat)),
    (∀ fuel, 2 * length (cells st) ≤ fuel → update_pm_cells fuel st = Some st') ∧
    length bs = length (cells st') ∧
    log st' = log st ++ (bs ≫= settle_block) ∧
    count_steps (log st') = count_steps (log st) + 150 * length (cells st') ∧
    bodies st' = bodies st ++ bs.*1 ∧
    shapes st' = shapes st ++ bs.*2.
Proof.
  intros Hrest Hok.
  destruct (update_from_total (pending st 0) 0 st Hrest Hok) as [st' Hrun]; [done|].
  destruct (update_from_spec _ _ _ _ (proj2 Hok) (Nat.le_0_l _) Hrun)
    as (_ & _ & _ & bs & Hlen & Hlog & Hb & Hs).
  exists st', bs. split_and!; try done.
  - intros fuel Hf. apply (update_from_mono _ _ _ _ _ Hrun).
    pose proof (pending_bound st 0). lia.
  - lia.
  - rewrite Hlog, count_steps_app, count_steps_blocks. lia.
Qed.

Lemma cells_to_remove_none ylim st (l : list nat) r :
  (∀ p, p == 0 → norm_ppf E p = neg_inf)%Q →
  Forall (λ c, out_of_bounds ylim (cell_y st c) = false ∧ (cell_lysis_p st c == 0)%Q) l →
  (cells_to_remove ylim st l r).1 = [].
Proof.
  intros Hppf. revert r. induction l as [|c l IH]; intros r Hl; [done|].
  apply Forall_cons in Hl as [[Hin Hp] Hl]. simpl. rewrite Hin.
  destruct (norm_rvs E r) as [u r1]. specialize (IH r1 Hl).
  destruct (cells_to_remove ylim st l r1) as [cs r']. simpl in IH. subst cs.
  by rewrite (Hppf _ Hp).
Qed.

(** C8.  When every live cell has lysis probability 0 and none is found
    out of the trench bounds, a call removes no cell: the live list after the
    call starts with the live list before it, so the live-cell count does not
    decrease. *)
Theorem population_non_decreasing fuel dt iters ylim len st st' :
  (∀ p, p == 0 → norm_ppf E p = neg_inf)%Q →
  Forall (λ c, cell_lysis_p st c == 0)%Q (cells st) →
  Forall (λ c, out_of_bounds ylim (cell_y (shape_removal_pass dt ylim st) c) = false)
         (cells st) →
  step_and_update fuel dt iters ylim len st = Some st' →
  cells st `prefix_of` cells st' ∧ length (cells st) ≤ length (cells st').
Proof.
  intros Hppf Hlys Hin (st6 & Ha & ->)%step_and_update_Some.
  assert (Hgoal : cells st `prefix_of` cells (conclude len st6));
    [|split; [done|by apply prefix_length]].
  destruct (conclude_spec len st6) as (_ & _ & _ & _ & _ & -> & _).
  unfold advance in Ha. cbn zeta in Ha.
  set (st1 := shape_removal_pass dt ylim st) in *.
  destruct (update_pm_cells fuel _) as [st4|] eqn:H4; [|done]. injection Ha as <-.
  destruct (update_cell_positions_spec (steps (Z.to_nat iters) dt st4)) as (_ & -> & _).
  pose proof (steps_logic (Z.to_nat iters) dt st4) as Hl. unfold logic in Hl.
  injection Hl as _ _ -> _.
  destruct (update_pm_cells_control _ _ _ H4) as [_ Hpre].
  etrans; [|exact Hpre].
  destruct (wipe_space_spec (cell_removal_pass dt ylim st1)) as (Hw & _).
  unfold logic in Hw. injection Hw as _ _ -> _.
  destruct (remove_shapes_spec dt (shapes_to_remove ylim st) st) as (Hsh & _).
  fold (shape_removal_pass dt ylim st) in Hsh. fold st1 in Hsh.
  unfold logic in Hsh. injection Hsh as H1h _ H1c _.
  unfold cell_removal_pass.
  pose proof (cells_to_remove_none ylim st1 (cells st1) (rng st1) Hppf) as Hnone.
  destruct (cells_to_remove ylim st1 (cells st1) (rng st1)) as [cs r].
  simpl in Hnone. rewrite Hnone.
  - simpl. by rewrite H1c.
  - rewrite H1c. apply Forall_forall. intros c Hc. rewrite Forall_forall in Hlys, Hin.
    split; [by apply Hin|]. unfold cell_lysis_p. rewrite H1h. by apply Hlys.
Qed.

(** ** Recorded frames are out of reach *)

Section Frozen.

Variables Pc Pb Ps : nat → Prop.

Lemma keeps_refl st : keeps Pc Pb Ps st st.
Proof. intros Hg. split; [done|]. by split_and!. Qed.

Lemma keeps_trans st st' st'' :
  keeps Pc Pb Ps st st' → keeps Pc Pb Ps st' st'' → keeps Pc Pb Ps st st''.
Proof.
  intros H1 H2 Hg. destruct (H1 Hg) as [Hg' (A1 & A2 & A3)].
  destruct (H2 Hg') as [Hg'' (B1 & B2 & B3)]. split; [done|].
  split_and!; intros l Hl; [rewrite B1, A1|rewrite B2, A2|rewrite B3, A3]; done.
Qed.

(** Stores may grow and may be written outside the picked addresses; the
    live lists may lose members and gain fresh ones. *)
Lemma keeps_intro st st' :
  (guarded Pc Pb Ps st →
   (∀ l, Pc l → cell_heap st' !! l = cell_heap st !! l) ∧
   (∀ l, Pb l → body_heap st' !! l = body_heap st !! l) ∧
   (∀ l, Ps l → shape_heap st' !! l = shape_heap st !! l) ∧
   length (cell_heap st) ≤ length (cell_heap st') ∧
   length (body_heap st) ≤ length (body_heap st') ∧
   length (shape_heap st) ≤ length (shape_heap st') ∧
   (∀ c, c ∈ cells st' → c ∈ cells st ∨ length (cell_heap st) ≤ c) ∧
   (∀ b, b ∈ bodies st' → b ∈ bodies st ∨ length (body_heap st) ≤ b)) →
  keeps Pc Pb Ps st st'.
Proof.
  intros H Hg. destruct (H Hg) as (A1 & A2 & A3 & L1 & L2 & L3 & C & B).
  destruct Hg as (G1 & G2 & G3 & G4 & G5). split; [|done].
  split_and!.
  - intros l Hl. specialize (G1 l Hl). lia.
  - intros l Hl. specialize (G2 l Hl). lia.
  - intros l Hl. specialize (G3 l Hl). lia.
  - apply Forall_forall. intros c Hc HP. destruct (C c Hc) as [Hin|Hge].
    + rewrite Forall_forall in G4. by apply (G4 c).
    + specialize (G1 c HP). lia.
  - apply Forall_forall. intros b Hb HP. destruct (B b Hb) as [Hin|Hge].
    + rewrite Forall_forall in G5. by apply (G5 b).
    + specialize (G2 b HP). lia.
Qed.

Lemma keeps_space_step dt st : keeps Pc Pb Ps st (space_step dt st).
Proof.
  apply keeps_intro. intros (_ & _ & _ & _ & G5). simpl.
  rewrite length_write_back. split_and!; try done; try (intros; by left).
  intros l Hl. apply write_back_other. intros Hin.
  rewrite Forall_forall in G5. by apply (G5 l).
Qed.

Lemma keeps_steps n dt st : keeps Pc Pb Ps st (steps n dt st).
Proof.
  revert st. induction n as [|n IH]; intros st; [apply keeps_refl|].
  rewrite steps_S. eapply keeps_trans; [apply keeps_space_step|apply IH].
Qed.

(** A call that writes no store and only takes members off the live lists. *)
Lemma keeps_shrink st st' :
  cell_heap st' = cell_heap st → body_heap st' = body_heap st →
  shape_heap st' = shape_heap st →
  cells st' ⊆ cells st → bodies st' ⊆ bodies st →
  keeps Pc Pb Ps st st'.
Proof.
  intros H1 H2 H3 Hc Hb. apply keeps_intro. intros _. rewrite H1, H2, H3.
  split_and!; try done; intros a Ha; left; [by apply Hc|by apply Hb].
Qed.

Lemma keeps_remove_shapes dt l st : keeps Pc Pb Ps st (remove_shapes dt l st).
Proof.
  revert st. induction l as [|[b s] l IH]; intros st; [apply keeps_refl|]. simpl.
  eapply keeps_trans; [|apply IH].
  eapply keeps_trans; [|apply keeps_space_step].
  apply keeps_shrink; try done. simpl. intros a [_ Ha]%list_elem_of_filter. done.
Qed.

Lemma keeps_remove_cells dt l st : keeps Pc Pb Ps st (remove_cells dt l st).
Proof.
  revert st. induction l as [|c l IH]; intros st; [apply keeps_refl|]. simpl.
  eapply keeps_trans; [|apply IH].
  destruct (decide (c ∈ cells st)); [|apply keeps_refl].
  eapply keeps_trans; [|apply keeps_space_step].
  apply keeps_shrink; try done. simpl. apply sublist_subseteq, remove_first_sublist.
Qed.

Lemma keeps_cell_removal_pass dt ylim st :
  keeps Pc Pb Ps st (cell_removal_pass dt ylim st).
Proof.
  unfold cell_removal_pass.
  destruct (cells_to_remove ylim st (cells st) (rng st)) as [cs r].
  eapply keeps_trans; [|apply keeps_remove_cells].
  by apply keeps_shrink.
Qed.

Lemma keeps_wipe_space st : keeps Pc Pb Ps st (wipe_space st).
Proof.
  destruct (wipe_space_spec st) as (Hl & Hb & Hbo & _).
  unfold logic in Hl. injection Hl as Hch Hsh Hce _.
  apply keeps_shrink; try done.
  - by rewrite Hce.
  - rewrite Hbo. intros a [_ Ha]%list_elem_of_filter. done.
Qed.

Lemma keeps_visit st i c : cells st !! i = Some c → keeps Pc Pb Ps st (visit c st).
Proof.
  intros Hi. destruct (cell_heap st !! c) as [cell|] eqn:Hc.
  - destruct (visit_spec c st cell Hc)
      as (g2 & new & _ & Hce & _ & Hch & _ & Hsh & Hbl & Hbo & Hbs & _).
    cbn zeta in *. apply keeps_intro. intros (G1 & G2 & G3 & G4 & G5).
    rewrite Hce, Hch, Hsh, Hbl, Hbs, !length_app, length_insert.
    split_and!; try lia.
    + intros l Hl. rewrite lookup_app_l by (rewrite length_insert; by apply G1).
      apply list_lookup_insert_ne. intros ->.
      rewrite Forall_forall in G4. apply (G4 l); [|done].
      by eapply list_elem_of_lookup_2.
    + intros l Hl. apply Hbo; [by apply G2|].
      intros Hin. rewrite Forall_forall in G5. by apply (G5 l).
    + intros l Hl. apply lookup_app_l. by apply G3.
    + intros a [Ha|Ha]%elem_of_app; [by left|right].
      apply elem_of_seq in Ha. lia.
    + intros a [Ha|Ha]%elem_of_app; [by left|right].
      apply list_elem_of_singleton in Ha. lia.
  - unfold visit. rewrite Hc. apply keeps_refl.
Qed.

Lemma keeps_update_pm_cells fuel st st' :
  update_pm_cells fuel st = Some st' → keeps Pc Pb Ps st st'.
Proof.
  intros H.
  destruct (update_from_ind (λ _ w, keeps Pc Pb Ps st w))
    with (fuel := fuel) (i := 0) (st := st) (st' := st') as (_ & ? & _);
    [|apply keeps_refl|done..].
  intros j w c Hk Hj. eapply keeps_trans; [exact Hk|]. by eapply keeps_visit.
Qed.

Lemma keeps_update_cell_positions st : keeps Pc Pb Ps st (update_cell_positions st).
Proof.
  destruct (update_cell_positions_spec st)
    as (_ & Hce & Hbh & Hsh & Hbo & _ & _ & Hlen & Hother & _).
  apply keeps_intro. intros (_ & _ & _ & G4 & _).
  rewrite Hce, Hbh, Hsh, Hbo, Hlen. split_and!; try done; try (intros; by left).
  intros l Hl. apply Hother. intros Hin.
  rewrite Forall_forall in G4. by apply (G4 l).
Qed.

Lemma keeps_conclude len st : keeps Pc Pb Ps st (conclude len st).
Proof.
  apply keeps_intro. intros (G1 & G2 & G3 & _).
  destruct (conclude_spec len st) as (_ & _ & _ & _ & _ & -> & -> & _).
  unfold conclude, record_frame, deepcopy, finalize.
  destruct (1 <? x st)%Z; cbn zeta; simpl;
    destruct (x st =? len - 1)%Z; simpl; rewrite ?length_app;
    (split_and!; [..|by left|by left]; try done; try lia;
     intros l Hl; apply lookup_app_l; auto).
Qed.

Lemma keeps_advance fuel dt iters ylim st st' :
  advance fuel dt iters ylim st = Some st' → keeps Pc Pb Ps st st'.
Proof.
  unfold advance. cbn zeta. intros H.
  destruct (update_pm_cells fuel _) as [st4|] eqn:H4; [|done]. injection H as <-.
  eapply keeps_trans; [apply keeps_remove_shapes|]. fold (shape_removal_pass dt ylim st).
  eapply keeps_trans; [apply keeps_cell_removal_pass|].
  eapply keeps_trans; [apply keeps_wipe_space|].
  eapply keeps_trans; [by apply (keeps_update_pm_cells fuel)|].
  eapply keeps_trans; [apply keeps_steps|apply keeps_update_cell_positions].
Qed.

Lemma keeps_step_and_update fuel dt iters ylim len st st' :
  step_and_update fuel dt iters ylim len st = Some st' → keeps Pc Pb Ps st st'.
Proof.
  intros (st6 & Ha & ->)%step_and_update_Some.
  eapply keeps_trans; [by eapply keeps_advance|apply keeps_conclude].
Qed.

End Frozen.

(** ** After a pass every reference of the live side is sound *)

Lemma visit_space_ok st i c :
  space_ok st → cells st !! i = Some c → space_ok (visit c st).
Proof.
  intros Hs Hi. destruct (cell_heap st !! c) as [cell|] eqn:Hc.
  - destruct (visit_spec c st cell Hc)
      as (g2 & new & _ & _ & _ & _ & _ & _ & Hbl & _ & Hbs & _).
    cbn zeta in *. unfold space_ok. rewrite Hbs, Hbl. apply Forall_app. split.
    + eapply Forall_impl; [exact Hs|]. simpl. intros; lia.
    + apply Forall_singleton. lia.
  - unfold visit. by rewrite Hc.
Qed.

Lemma update_pm_cells_sound fuel st st' :
  valid st → space_ok st → update_pm_cells fuel st = Some st' →
  valid st' ∧ space_ok st' ∧ refs_ok st'.
Proof.
  intros Hv Hs Hrun.
  set (good := λ (w : State E) (a : nat),
         ∃ cell, cell_heap w !! a = Some cell ∧
                 body cell < length (body_heap w) ∧
                 shape cell < length (shape_heap w)).
  destruct (update_from_ind
    (λ j w, valid w ∧ space_ok w ∧
            ∀ j' a, j' < j → cells w !! j' = Some a → good w a))
    with (fuel := fuel) (i := 0) (st := st) (st' := st')
    as (j & (Hv' & Hs' & Hgood) & Hend); [| |done|].
  - intros j w c (Hvw & Hsw & Hgw) Hj.
    split_and!; [by eapply visit_valid|by eapply visit_space_ok|].
    assert (Hc : c < length (cell_heap w)).
    { unfold valid in Hvw. rewrite Forall_lookup in Hvw. by eapply Hvw. }
    apply lookup_lt_is_Some_2 in Hc as [cell Hc].
    pose proof (lookup_lt_Some _ _ _ Hc) as Hclt.
    destruct (visit_spec c w cell Hc)
      as (g2 & new & _ & Hce & _ & Hch & _ & Hsh & Hbl & _).
    cbn zeta in *. intros j' a Hlt Ha.
    rewrite Hce in Ha. rewrite lookup_app_l in Ha
      by (apply lookup_lt_Some in Hj; lia).
    unfold good. rewrite Hch, Hsh, Hbl, length_app. simpl length.
    destruct (decide (a = c)) as [->|Hne].
    + eexists. split.
      * rewrite lookup_app_l by (by rewrite length_insert).
        by apply list_lookup_insert_eq.
      * simpl. split; lia.
    + assert (j' < j) as Hlt'.
      { destruct (decide (j' = j)) as [->|]; [congruence|lia]. }
      destruct (Hgw j' a Hlt' Ha) as (cl & Hcl & Hb & Hsp).
      exists cl. split; [|lia].
      rewrite lookup_app_l by (rewrite length_insert; by eapply lookup_lt_Some).
      by rewrite list_lookup_insert_ne.
  - split_and!; [done..|]. intros; lia.
  - split_and!; [done..|]. apply Forall_lookup. intros j' a Ha.
    apply (Hgood j' a); [|done].
    apply lookup_ge_None in Hend. apply lookup_lt_Some in Ha. lia.
Qed.

Lemma advance_sound fuel dt iters ylim st st6 :
  valid st → space_ok st → advance fuel dt iters ylim st = Some st6 →
  valid st6 ∧ space_ok st6 ∧ refs_ok st6.
Proof.
  intros Hv Hs. unfold advance. cbn zeta. intros H.
  destruct (update_pm_cells fuel _) as [st4|] eqn:Hrun; [|done]. injection H as <-.
  set (st1 := shape_removal_pass dt ylim st) in *.
  set (st2 := cell_removal_pass dt ylim st1) in *.
  destruct (remove_shapes_spec dt (shapes_to_remove ylim st) st) as (A1 & _ & A2 & _ & A3).
  fold (shape_removal_pass dt ylim st) in A1, A2, A3. fold st1 in A1, A2, A3.
  unfold logic in A1. injection A1 as A1h _ A1c _.
  destruct (cell_removal_pass_spec dt ylim st1) as (_ & B1 & _ & B2 & _ & B3 & B4).
  fold st2 in B1, B2, B3, B4.
  destruct (wipe_space_spec st2) as (C1 & C2 & C3 & _).
  unfold logic in C1. injection C1 as C1h _ C1c _.
  assert (Hv3 : valid (wipe_space st2)).
  { unfold valid. rewrite C1h, C1c, B1, A1h. apply Forall_forall. intros c Hc.
    unfold valid in Hv. rewrite Forall_forall in Hv. apply Hv.
    rewrite <- A1c. by eapply elem_of_sublist. }
  assert (Hs3 : space_ok (wipe_space st2)).
  { unfold space_ok. rewrite C2, C3, B2, B3, A2, A3. apply Forall_forall.
    intros b [_ [_ Hb]%list_elem_of_filter]%list_elem_of_filter.
    unfold space_ok in Hs. rewrite Forall_forall in Hs. by apply Hs. }
  destruct (update_pm_cells_sound _ _ _ Hv3 Hs3 Hrun) as (Hv4 & Hs4 & Hr4).
  pose proof (steps_logic (Z.to_nat iters) dt st4) as D1.
  unfold logic in D1. injection D1 as D1h D1s D1c _.
  destruct (steps_space (Z.to_nat iters) dt st4) as [D2 _].
  pose proof (steps_length_body_heap (Z.to_nat iters) dt st4) as D3.
  destruct (update_cell_positions_spec (steps (Z.to_nat iters) dt st4))
    as (_ & E1 & E2 & E3 & E4 & _ & _ & E5 & _ & E6 & E7).
  split_and!.
  - unfold valid. rewrite E1, E5, D1h, D1c. done.
  - unfold space_ok. rewrite E4, E2, D2, D3. done.
  - unfold refs_ok. rewrite E1, E2, E3, D1c, D3, D1s.
    eapply Forall_impl; [exact Hr4|]. simpl. intros c (cell & Hc & Hb & Hsp).
    specialize (E6 c). specialize (E7 c). rewrite D1h, Hc in E6, E7. simpl in E6, E7.
    destruct (cell_heap (update_cell_positions _) !! c) as [cell'|]; [|done].
    simpl in E6, E7. exists cell'. split; [done|]. split; congruence.
Qed.

(** The two conditions hold again after a call, so they hold all along a run
    that starts with them. *)
Lemma step_and_update_sound fuel dt iters ylim len st st' :
  valid st → space_ok st →
  step_and_update fuel dt iters ylim len st = Some st' →
  valid st' ∧ space_ok st'.
Proof.
  intros Hv Hs (st6 & Ha & ->)%step_and_update_Some.
  destruct (advance_sound _ _ _ _ _ _ Hv Hs Ha) as (Hv6 & Hs6 & _).
  destruct (conclude_spec len st6) as (_ & _ & _ & _ & _ & Hc & Hb & _).
  assert (Hlen : length (cell_heap st6) ≤ length (cell_heap (conclude len st6)) ∧
                 length (body_heap st6) ≤ length (body_heap (conclude len st6))).
  { unfold conclude, record_frame, deepcopy, finalize.
    destruct (1 <? x st6)%Z; cbn zeta; simpl;
      destruct (x st6 =? len - 1)%Z; simpl; rewrite ?length_app; lia. }
  destruct Hlen as [Hlc Hlb]. split.
  - unfold valid. rewrite Hc. eapply Forall_impl; [exact Hv6|]. simpl. intros; lia.
  - unfold space_ok. rewrite Hb. eapply Forall_impl; [exact Hs6|]. simpl. intros; lia.
Qed.

Lemma conclude_record len st :
  (1 <? x st)%Z = true →
  let nc := length (cell_heap st) in
  let nb := length (body_heap st) in
  let ns := length (shape_heap st) in
  cell_heap (conclude len st) = cell_heap st ++ (shift_cell nc nb ns <$> cell_heap st) ∧
  body_heap (conclude len st) = body_heap st ++ body_heap st ∧
  shape_heap (conclude len st) = shape_heap st ++ (shift_shape nb <$> shape_heap st).
Proof.
  intros Hx. unfold conclude, record_frame, deepcopy, finalize. rewrite Hx.
  cbn zeta. simpl. by destruct (x st =? len - 1)%Z.
Qed.

Lemma later_keeps Pc Pb Ps st st' :
  rtc step_rel st st' →
  keeps Pc Pb Ps st st' ∧ cell_timeseries st `prefix_of` cell_timeseries st'.
Proof.
  induction 1 as [st|st st1 st2 (fuel & dt & iters & ylim & len & Hstep) _ [IH1 IH2]].
  - split; [apply keeps_refl|done].
  - split.
    + eapply keeps_trans; [by eapply keeps_step_and_update|done].
    + destruct (step_and_update_counters _ _ _ _ _ _ _ Hstep) as (_ & _ & Hp & _).
      by etrans.
Qed.

(** ** Which passes collect first and apply afterwards *)

Lemma filter_absent (c : nat) (l : list nat) : c ∉ l → filter (λ a, a ≠ c) l = l.
Proof.
  induction l as [|a l IH]; intros Hc; [done|].
  apply not_elem_of_cons in Hc as [Hne Hc].
  rewrite filter_cons_True by done. by rewrite IH.
Qed.

Lemma remove_first_filter (c : nat) (l : list nat) :
  NoDup l → remove_first c l = filter (λ a, a ≠ c) l.
Proof.
  induction l as [|a l IH]; intros Hnd; [done|].
  apply NoDup_cons in Hnd as [Ha Hnd]. simpl.
  destruct (decide (a = c)) as [->|Hne].
  - rewrite filter_cons_False by (intros H; by apply H). by rewrite filter_absent.
  - rewrite filter_cons_True by done. by rewrite IH.
Qed.

Lemma remove_cells_filter dt (l : list nat) st :
  NoDup (cells st) →
  cells (remove_cells dt l st) = filter (λ c, c ∉ l) (cells st).
Proof.
  revert st. induction l as [|c l IH]; intros st Hnd; simpl.
  - by rewrite filter_out_nil.
  - destruct (decide (c ∈ cells st)) as [Hin|Hout].
    + rewrite IH; simpl.
      * rewrite remove_first_filter by done. apply filter_out_cons.
      * rewrite remove_first_filter by done. by apply NoDup_filter.
    + rewrite IH by done. apply filter_ext_in. intros a Ha.
      rewrite not_elem_of_cons. split; [|tauto]. intros H. split; [|done].
      intros ->. done.
Qed.

(** C4 (amended).  The shape-removal pass, the cell-removal pass and
    [wipe_space] choose their candidates on the state they are entered in and
    then take exactly the candidates out.  The division and growth pass does
    not: it appends daughters to the list it is iterating and reaches them
    in the same pass, so that when it returns every cell of the grown list
    has had its body and shape added to the world. *)
Theorem passes_discipline dt ylim fuel st st' :
  live_ok st → update_pm_cells fuel st = Some st' →
  shapes (shape_removal_pass dt ylim st)
  = filter (λ s, s ∉ (shapes_to_remove ylim st).*2) (shapes st) ∧
  bodies (shape_removal_pass dt ylim st)
  = filter (λ b, b ∉ (shapes_to_remove ylim st).*1) (bodies st) ∧
  cells (cell_removal_pass dt ylim st)
  = filter (λ c, c ∉ (cells_to_remove ylim st (cells st) (rng st)).1) (cells st) ∧
  bodies (wipe_space st) = filter (λ b, b ∉ (wipe_candidates st).*1) (bodies st) ∧
  shapes (wipe_space st) = filter (λ s, s ∉ (wipe_candidates st).*2) (shapes st) ∧
  cells st `prefix_of` cells st' ∧
  ∃ bs : list (nat * nat),
    length bs = length (cells st') ∧
    log st' = log st ++ (bs ≫= settle_block) ∧
    bodies st' = bodies st ++ bs.*1 ∧
    shapes st' = shapes st ++ bs.*2.
Proof.
  intros [Hnd Hv] Hrun.
  destruct (remove_shapes_spec dt (shapes_to_remove ylim st) st) as (_ & _ & A1 & A2 & _).
  destruct (wipe_space_spec st) as (_ & _ & B1 & B2 & _).
  destruct (update_from_spec _ _ _ _ Hv (Nat.le_0_l _) Hrun)
    as (_ & Hpre & _ & bs & Hlen & Hlog & Hb & Hs).
  split_and!; try done.
  - unfold cell_removal_pass.
    destruct (cells_to_remove ylim st (cells st) (rng st)) as [cs r].
    by rewrite remove_cells_filter.
  - exists bs. split_and!; [lia|done..].
Qed.

(** ** The pairing lasts through a call *)

Lemma paired_transport st st' (new : list (nat * nat)) :
  paired st → shapes_ok st →
  (∀ s, s < length (shape_heap st) → shape_heap st' !! s = shape_heap st !! s) →
  shapes st' = shapes st ++ new.*2 → bodies st' = bodies st ++ new.*1 →
  Forall (λ p, shape_heap st' !! p.2 = Some (mkShape p.1)) new →
  length (shape_heap st) ≤ length (shape_heap st') →
  paired st' ∧ shapes_ok st'.
Proof.
  intros Hp Hok Hsame Hs Hb Hnew Hlen. split.
  - unfold paired. rewrite Hs, Hb, fmap_app. f_equal.
    + rewrite <- Hp. apply Forall_fmap_ext. eapply Forall_impl; [exact Hok|].
      simpl. intros s Hlt. unfold body_of, get_shape. by rewrite Hsame.
    + clear Hs Hb. induction new as [|[b s] new IH]; [done|].
      apply Forall_cons in Hnew as [Hbs Hnew]. rewrite !fmap_cons, IH by done.
      simpl in *. f_equal. unfold body_of, get_shape. by rewrite Hbs.
  - unfold shapes_ok. rewrite Hs. apply Forall_app. split.
    + eapply Forall_impl; [exact Hok|]. simpl. intros; lia.
    + apply Forall_fmap. eapply Forall_impl; [exact Hnew|]. simpl.
      intros p Hp'. by eapply lookup_lt_Some.
Qed.

Lemma paired_shrink st st' (P : nat → Prop) `{∀ b, Decision (P b)} :
  paired st → shapes_ok st → shape_heap st' = shape_heap st →
  bodies st' = filter P (bodies st) →
  shapes st' = filter (λ s, P (body_of st s)) (shapes st) →
  paired st' ∧ shapes_ok st'.
Proof.
  intros Hp Hok Hh Hb Hs. split.
  - unfold paired. rewrite Hb, Hs, <- Hp, <- fmap_filter_comm.
    apply list_fmap_ext. intros _ s _. unfold body_of, get_shape. by rewrite Hh.
  - unfold shapes_ok. rewrite Hs, Hh. apply Forall_forall.
    intros s [_ Hin]%list_elem_of_filter.
    unfold shapes_ok in Hok. rewrite Forall_forall in Hok. by apply Hok.
Qed.

Lemma shape_removal_pass_paired dt ylim st :
  paired st → shapes_ok st →
  paired (shape_removal_pass dt ylim st) ∧ shapes_ok (shape_removal_pass dt ylim st).
Proof.
  intros Hp Hok.
  destruct (shape_removal_pass_spec dt ylim st) as (_ & _ & Hs & Hb & _).
  cbn zeta in *.
  destruct (remove_shapes_spec dt (shapes_to_remove ylim st) st) as (Hl & _).
  fold (shape_removal_pass dt ylim st) in Hl. unfold logic in Hl.
  injection Hl as _ Hsh _.
  set (gone := filter (λ s, out_of_bounds ylim (shape_y st s) = true) (shapes st)) in *.
  apply (paired_shrink st _ (λ b, b ∉ body_of st <$> gone)); try done.
  rewrite Hs. apply filter_ext_in. intros s Hin. split.
  - intros Hno [s' [Heq Hs']]%list_elem_of_fmap. apply Hno.
    apply list_elem_of_filter in Hs' as [Hoob _].
    unfold shape_y in *. unfold body_of in Heq. by rewrite Heq.
  - intros Hno Hoob. apply Hno. apply list_elem_of_fmap_2.
    apply list_elem_of_filter. done.
Qed.

Lemma visit_paired st i c :
  paired st ∧ shapes_ok st → cells st !! i = Some c →
  paired (visit c st) ∧ shapes_ok (visit c st).
Proof.
  intros [Hp Hok] Hi. destruct (cell_heap st !! c) as [cell|] eqn:Hc.
  - destruct (visit_spec c st cell Hc)
      as (g2 & new & _ & _ & _ & _ & _ & Hsh & _ & _ & Hb & Hs & _).
    cbn zeta in *.
    apply (paired_transport st _ [(length (body_heap st), length (shape_heap st))]);
      try done.
    + intros s Hlt. rewrite Hsh. by apply lookup_app_l.
    + apply Forall_singleton. simpl. rewrite Hsh.
      rewrite lookup_app_r by done. by rewrite Nat.sub_diag.
    + rewrite Hsh, length_app. lia.
  - unfold visit. by rewrite Hc.
Qed.

(** With a trench whose bodies and shapes are registered two by two, and a
    [Cell] whose shape hangs on its body, the pairing that [wipe_space]
    relies on holds at every call of the run. *)
Lemma step_and_update_paired fuel dt iters ylim len st st' :
  paired st → shapes_ok st →
  step_and_update fuel dt iters ylim len st = Some st' →
  paired st' ∧ shapes_ok st'.
Proof.
  intros Hp Hok (st6 & Ha & ->)%step_and_update_Some.
  unfold advance in Ha. cbn zeta in Ha.
  destruct (update_pm_cells fuel _) as [st4|] eqn:Hrun; [|done]. injection Ha as <-.
  destruct (shape_removal_pass_paired dt ylim st Hp Hok) as [Hp1 Hok1].
  set (st1 := shape_removal_pass dt ylim st) in *.
  destruct (cell_removal_pass_spec dt ylim st1) as (_ & _ & B1 & B2 & B3 & _).
  set (st2 := cell_removal_pass dt ylim st1) in *.
  assert (Hp2 : paired st2 ∧ shapes_ok st2).
  { unfold paired, shapes_ok, body_of, get_shape. rewrite B1, B2, B3. done. }
  destruct Hp2 as [Hp2 Hok2].
  destruct (wipe_paired_spec st2 Hp2) as (_ & C1 & _ & _ & _ & C2 & Hp3).
  cbn zeta in *.
  assert (Hok3 : shapes_ok (wipe_space st2)).
  { unfold shapes_ok. rewrite C1, C2. apply Forall_forall.
    intros s [_ Hin]%list_elem_of_filter.
    unfold shapes_ok in Hok2. rewrite Forall_forall in Hok2. by apply Hok2. }
  destruct (update_from_ind (λ _ w, paired w ∧ shapes_ok w))
    with (fuel := fuel) (i := 0) (st := wipe_space st2) (st' := st4)
    as (_ & [Hp4 Hok4] & _); [|done..|].
  { intros j w a Hw Hj. by eapply visit_paired. }
  pose proof (steps_logic (Z.to_nat iters) dt st4) as D1.
  unfold logic in D1. injection D1 as _ D1s _.
  destruct (steps_space (Z.to_nat iters) dt st4) as [D2 D3].
  destruct (update_cell_positions_spec (steps (Z.to_nat iters) dt st4))
    as (_ & _ & _ & E1 & E2 & E3 & _).
  set (st6 := update_cell_positions _) in *.
  destruct (conclude_spec len st6) as (_ & _ & _ & _ & _ & _ & F1 & F2 & _).
  apply (paired_transport st6 _ []); rewrite ?app_nil_r; try done.
  - unfold paired, body_of, get_shape. rewrite E1, E2, E3, D1s, D2, D3. exact Hp4.
  - unfold shapes_ok. rewrite E1, E3, D1s, D3. exact Hok4.
  - intros s Hlt. unfold conclude, record_frame, deepcopy, finalize.
    destruct (1 <? x st6)%Z; cbn zeta; simpl;
      destruct (x st6 =? len - 1)%Z; simpl; try done; by apply lookup_app_l.
  - unfold conclude, record_frame, deepcopy, finalize.
    destruct (1 <? x st6)%Z; cbn zeta; simpl;
      destruct (x st6 =? len - 1)%Z; simpl; rewrite ?length_app; lia.
Qed.

(** * Further properties of the code *)

(** ** The live list through a call *)

Lemma advance_live_ok fuel dt iters ylim st st6 :
  live_ok st → advance fuel dt iters ylim st = Some st6 → live_ok st6.
Proof.
  intros Hok. unfold advance. cbn zeta. intros H.
  destruct (update_pm_cells fuel _) as [st4|] eqn:Hrun; [|done]. injection H as <-.
  set (st1 := shape_removal_pass dt ylim st) in *.
  set (st2 := cell_removal_pass dt ylim st1) in *.
  destruct (remove_shapes_spec dt (shapes_to_remove ylim st) st) as (A1 & _).
  fold (shape_removal_pass dt ylim st) in A1. fold st1 in A1.
  unfold logic in A1. injection A1 as A1h _ A1c _.
  destruct (cell_removal_pass_spec dt ylim st1) as (_ & B1 & _ & _ & _ & _ & B2).
  fold st2 in B1, B2.
  destruct (wipe_space_spec st2) as (C1 & _).
  unfold logic in C1. injection C1 as C1h _ C1c _.
  assert (Hok3 : live_ok (wipe_space st2)).
  { apply (live_ok_transport st); [|by rewrite C1h, B1, A1h|done].
    by rewrite C1c, <- A1c. }
  pose proof (update_from_live_ok _ _ _ _ Hok3 Hrun) as Hok4.
  apply (live_ok_transport st4); [| |done].
  - destruct (update_cell_positions_spec (steps (Z.to_nat iters) dt st4)) as (_ & -> & _).
    pose proof (steps_logic (Z.to_nat iters) dt st4) as Hl. unfold logic in Hl.
    injection Hl as _ _ -> _. done.
  - destruct (update_cell_positions_spec (steps (Z.to_nat iters) dt st4))
      as (_ & _ & _ & _ & _ & _ & _ & -> & _).
    pose proof (steps_logic (Z.to_nat iters) dt st4) as Hl. unfold logic in Hl.
    injection Hl as -> _. done.
Qed.

Lemma step_live_ok fuel dt iters ylim len st st' :
  live_ok st → step_and_update fuel dt iters ylim len st = Some st' → live_ok st'.
Proof.
  intros Hok (st6 & Ha & ->)%step_and_update_Some.
  apply conclude_live_ok. by eapply advance_live_ok.
Qed.

(** X1.  A call keeps the live list sound: if no cell is listed twice and
    every listed cell exists before the call, the same holds after it. *)
Theorem live_list_stays_sound fuel dt iters ylim len st st' :
  live_ok st → step_and_update fuel dt iters ylim len st = Some st' →
  NoDup (cells st') ∧ Forall (λ c, is_Some (cell_heap st' !! c)) (cells st').
Proof.
  intros Hok Hstep. destruct (step_live_ok _ _ _ _ _ _ _ Hok Hstep) as [Hnd Hv].
  split; [done|]. eapply Forall_impl; [exact Hv|]. simpl.
  intros c Hc. by apply lookup_lt_is_Some_2.
Qed.

(** ** Extinction *)

Lemma update_pm_cells_nil fuel st : cells st = [] → update_pm_cells fuel st = Some st.
Proof.
  intros Hc. unfold update_pm_cells. destruct fuel; simpl; by rewrite Hc.
Qed.

(** X2.  An empty live list stays empty: the call returns whatever the fuel,
    visits nothing, and the frame it records, if it records one, is empty. *)
Theorem extinction_is_permanent fuel dt iters ylim len st :
  cells st = [] →
  ∃ st', step_and_update fuel dt iters ylim len st = Some st' ∧
         cells st' = [] ∧
         cell_timeseries st'
         = cell_timeseries st ++ (if (1 <? x st)%Z then [[]] else []).
Proof.
  intros Hc. unfold step_and_update, advance. cbn zeta.
  set (st1 := shape_removal_pass dt ylim st).
  destruct (remove_shapes_spec dt (shapes_to_remove ylim st) st) as (A1 & _).
  fold (shape_removal_pass dt ylim st) in A1. fold st1 in A1.
  unfold logic in A1. injection A1 as _ _ A1c A1t A1x _.
  assert (Hc2 : cells (cell_removal_pass dt ylim st1) = []).
  { pose proof (cell_removal_pass_spec dt ylim st1) as (_ & _ & _ & _ & _ & _ & Hsub).
    rewrite A1c, Hc in Hsub. by apply sublist_nil_r in Hsub. }
  destruct (cell_removal_pass_spec dt ylim st1) as (B1 & _).
  set (st2 := cell_removal_pass dt ylim st1) in *.
  destruct (wipe_space_spec st2) as (C1 & _).
  unfold logic in C1. injection C1 as _ _ C1c C1t C1x _.
  rewrite update_pm_cells_nil by (by rewrite C1c). simpl.
  set (st5 := steps (Z.to_nat iters) dt (wipe_space st2)).
  pose proof (steps_logic (Z.to_nat iters) dt (wipe_space st2)) as D1.
  fold st5 in D1. unfold logic in D1. injection D1 as _ _ D1c D1t D1x _.
  destruct (update_cell_positions_spec st5) as (E1 & E2 & _).
  set (st6 := update_cell_positions st5) in *.
  unfold control in E1, B1. injection E1 as E1t E1x _. injection B1 as B1t B1x _.
  destruct (conclude_spec len st6) as (_ & F1 & _ & _ & _ & F2 & _).
  eexists. split; [done|]. rewrite F1, F2, E2, D1c, C1c, Hc2.
  split; [done|]. rewrite E1t, E1x, D1t, D1x, C1t, C1x, B1t, B1x, A1t, A1x. done.
Qed.

Lemma remove_cells_all dt (l : list nat) st :
  cells st = l → cells (remove_cells dt l st) = [].
Proof.
  revert st. induction l as [|c l IH]; intros st Hc; simpl; [done|].
  rewrite Hc. rewrite decide_True by (by left). apply IH. simpl.
  by rewrite decide_True.
Qed.

Lemma cells_to_remove_all ylim st (l : list nat) r :
  1 < length (cells st) →
  Forall (λ c, out_of_bounds ylim (cell_y st c) = true ∨
               norm_ppf E (cell_lysis_p st c) = pos_inf) l →
  (cells_to_remove ylim st l r).1 = l.
Proof.
  intros Hlen. revert r. induction l as [|c l IH]; intros r Hl; [done|].
  apply Forall_cons in Hl as [Hc Hl]. simpl.
  destruct (out_of_bounds ylim (cell_y st c)) eqn:Hoob.
  - specialize (IH r Hl). destruct (cells_to_remove ylim st l r) as [cs r'].
    simpl in *. by rewrite IH.
  - destruct Hc as [?|Hp]; [done|]. destruct (norm_rvs E r) as [u r1].
    specialize (IH r1 Hl). destruct (cells_to_remove ylim st l r1) as [cs r'].
    rewrite Hp. simpl ext_leb. apply Nat.ltb_lt in Hlen. rewrite Hlen.
    simpl in *. by rewrite IH.
Qed.

(** X3.  The guard [len(cells) > 1] is read while the candidates are
    collected, before any cell has been taken out: with two cells or more,
    if every cell is out of the trench or certain to lyse (its [ppf] is
    [+inf]), the pass removes them all and the live list is left empty. *)
Theorem lysis_can_empty_the_list dt ylim st :
  1 < length (cells st) →
  Forall (λ c, out_of_bounds ylim (cell_y st c) = true ∨
               norm_ppf E (cell_lysis_p st c) = pos_inf) (cells st) →
  cells (cell_removal_pass dt ylim st) = [].
Proof.
  intros Hlen Hall. unfold cell_removal_pass.
  pose proof (cells_to_remove_all ylim st (cells st) (rng st) Hlen Hall) as H.
  destruct (cells_to_remove ylim st (cells st) (rng st)) as [cs r]. simpl in H. subst cs.
  by apply remove_cells_all.
Qed.

(** ** The random draws of the removal pass *)

Lemma cells_to_remove_rng ylim st (l : list nat) r :
  (cells_to_remove ylim st l r).2
  = Nat.iter (length (filter (in_bounds ylim st) l)) draw_once r.
Proof.
  revert r. induction l as [|c l IH]; intros r; [done|]. simpl.
  rewrite filter_cons.
  destruct (out_of_bounds ylim (cell_y st c)) eqn:Hoob.
  - rewrite decide_False by (unfold in_bounds; congruence). specialize (IH r).
    destruct (cells_to_remove ylim st l r) as [cs r']. done.
  - rewrite decide_True by done. simpl length. rewrite Nat.iter_succ_r.
    unfold draw_once at 2. destruct (norm_rvs E r) as [u r1]. specialize (IH r1).
    destruct (cells_to_remove ylim st l r1) as [cs r']. simpl in *.
    by destruct (_ && _).
Qed.

(** X4.  The removal pass draws one normal variate for each live cell that is
    inside the trench, in list order, and none for a cell that is out of it:
    the random state it leaves is the one entered, advanced that many
    times. *)
Theorem removal_pass_draws dt ylim st :
  rng (cell_removal_pass dt ylim st)
  = Nat.iter (length (filter (in_bounds ylim st) (cells st))) draw_once (rng st).
Proof.
  unfold cell_removal_pass.
  pose proof (cells_to_remove_rng ylim st (cells st) (rng st)) as H.
  destruct (cells_to_remove ylim st (cells st) (rng st)) as [cs r]. simpl in H.
  destruct (remove_cells_logic_but_cells dt cs (set_rng r st)) as (_ & _ & _ & -> & _).
  done.
Qed.

(** ** How often a call steps the world *)

Lemma remove_first_length c (l : list nat) :
  c ∈ l → S (length (remove_first c l)) = length l.
Proof.
  induction l as [|a l IH]; [by intros ?%elem_of_nil|]. simpl.
  destruct (decide (a = c)) as [->|Hne]; [done|].
  intros [?|Hin]%elem_of_cons; [congruence|]. simpl. by rewrite IH.
Qed.

Lemma remove_cells_steps dt (l : list nat) st :
  count_steps (log (remove_cells dt l st)) + length (cells (remove_cells dt l st))
  = count_steps (log st) + length (cells st).
Proof.
  revert st. induction l as [|c l IH]; intros st; [done|]. simpl.
  rewrite IH. destruct (decide (c ∈ cells st)) as [Hin|]; [|done].
  rewrite space_step_log, count_steps_app.
  assert (cells (space_step dt (set_cells (remove_first c (cells st)) st))
          = remove_first c (cells st)) as -> by done.
  simpl. pose proof (remove_first_length _ _ Hin). lia.
Qed.

Lemma count_steps_replicate n dt : count_steps (replicate n (Ev_step dt)) = n.
Proof. induction n; simpl; congruence. Qed.

Lemma count_steps_removals (bs ss : list nat) :
  count_steps ((Ev_remove_body <$> bs) ++ (Ev_remove_shape <$> ss)) = 0.
Proof.
  rewrite count_steps_app.
  assert (count_steps (Ev_remove_body <$> bs) = 0) as -> by (induction bs; done).
  by induction ss.
Qed.

Lemma advance_steps fuel dt iters ylim st st6 :
  valid st → advance fuel dt iters ylim st = Some st6 →
  let gone := filter (λ s, out_of_bounds ylim (shape_y st s) = true) (shapes st) in
  let kept := cells (cell_removal_pass dt ylim (shape_removal_pass dt ylim st)) in
  length kept ≤ length (cells st) ∧
  count_steps (log st6)
  = count_steps (log st) + length gone + (length (cells st) - length kept)
    + 150 * length (cells st6) + Z.to_nat iters.
Proof.
  intros Hv. unfold advance. cbn zeta. intros H.
  destruct (update_pm_cells fuel _) as [st4|] eqn:Hrun; [|done]. injection H as <-.
  destruct (shape_removal_pass_spec dt ylim st) as (_ & A2 & _).
  destruct (remove_shapes_spec dt (shapes_to_remove ylim st) st) as (A1 & _).
  fold (shape_removal_pass dt ylim st) in A1.
  set (st1 := shape_removal_pass dt ylim st) in *.
  unfold logic in A1. injection A1 as A1h _ A1c _.
  destruct (cell_removal_pass_spec dt ylim st1) as (_ & B1 & _ & _ & _ & _ & B2).
  assert (B3 : count_steps (log (cell_removal_pass dt ylim st1))
               + length (cells (cell_removal_pass dt ylim st1))
               = count_steps (log st1) + length (cells st1)).
  { unfold cell_removal_pass.
    destruct (cells_to_remove ylim st1 (cells st1) (rng st1)) as [cs r].
    by rewrite remove_cells_steps. }
  set (st2 := cell_removal_pass dt ylim st1) in *.
  destruct (wipe_space_spec st2) as (C1 & _ & _ & _ & C2).
  unfold logic in C1. injection C1 as C1h _ C1c _.
  assert (Hv3 : valid (wipe_space st2)).
  { unfold valid in *. rewrite C1h, C1c, B1, A1h.
    apply Forall_forall. intros c Hc. rewrite Forall_forall in Hv. apply Hv.
    rewrite <- A1c. by eapply elem_of_sublist. }
  destruct (update_from_spec fuel 0 _ _ Hv3 (Nat.le_0_l _) Hrun)
    as (_ & _ & _ & bs & D1 & D2 & _).
  pose proof (steps_log (Z.to_nat iters) dt st4) as F1.
  pose proof (steps_logic (Z.to_nat iters) dt st4) as F2.
  unfold logic in F2. injection F2 as _ _ F2c _.
  destruct (update_cell_positions_spec (steps (Z.to_nat iters) dt st4))
    as (_ & G1 & _ & _ & _ & _ & G2 & _).
  pose proof (sublist_length _ _ B2) as Hle. rewrite A1c in Hle.
  split; [exact Hle|].
  rewrite G2, G1, F1, F2c, count_steps_app, count_steps_replicate, D2, count_steps_app,
    count_steps_blocks, D1, C2, count_steps_app, count_steps_removals.
  rewrite A1c in B3. lia.
Qed.

(** X5.  The number of times one call steps the world: once for every shape
    taken out by the first pass, once for every cell taken off the live list
    by the second, 150 times for every cell that is live when the call ends,
    and [phys_iters] times for the frame. *)
Theorem world_steps_per_call fuel dt iters ylim len st st' :
  valid st → step_and_update fuel dt iters ylim len st = Some st' →
  let gone := filter (λ s, out_of_bounds ylim (shape_y st s) = true) (shapes st) in
  let kept := cells (cell_removal_pass dt ylim (shape_removal_pass dt ylim st)) in
  count_steps (log st')
  = count_steps (log st) + length gone + (length (cells st) - length kept)
    + 150 * length (cells st') + Z.to_nat iters.
Proof.
  intros Hv (st6 & Ha & ->)%step_and_update_Some.
  destruct (advance_steps _ _ _ _ _ _ Hv Ha) as (_ & H).
  destruct (conclude_spec len st6) as (_ & _ & _ & _ & _ & -> & _ & _ & -> & _). exact H.
Qed.

(** ** Cells that have left the live list *)

(** X6.  A cell that is not on the live list is out of the simulation for
    good: no later call puts it back on the list, and no later call writes
    to it. *)
Theorem dead_cell_stays_dead st st' c :
  c < length (cell_heap st) → c ∉ cells st → rtc step_rel st st' →
  (c ∉ cells st') ∧ cell_heap st' !! c = cell_heap st !! c.
Proof.
  intros Hc Hout Hrun.
  destruct (later_keeps (λ l, l = c) (λ _, False) (λ _, False) st st' Hrun) as [Hk _].
  destruct Hk as [(_ & _ & _ & Hlive & _) (Hag & _)].
  { split_and!; try done.
    - by intros ? ->.
    - apply Forall_forall. by intros a Ha ->.
    - apply Forall_forall. by intros ? _ []. }
  split; [|by apply Hag]. rewrite Forall_forall in Hlive. intros Hin.
  by apply (Hlive c Hin).
Qed.

(** ** Growth of the live list in one call *)

Lemma update_from_doubles fuel st st' :
  newborn_rests E → live_ok st → update_pm_cells fuel st = Some st' →
  length (cells st') ≤ 2 * length (cells st).
Proof.
  intros Hrest Hok Hrun.
  destruct (update_from_ind
              (λ j w, live_ok w ∧ j + pending w j ≤ 2 * length (cells st))
              ) with (fuel := fuel) (i := 0) (st := st) (st' := st')
    as (j & [_ Hj] & Hnone).
  - intros i w c [Hw Hi] Hc. split; [by eapply visit_live_ok|].
    pose proof (visit_pending w i c Hrest Hw Hc). lia.
  - split; [done|]. pose proof (pending_bound st 0). lia.
  - exact Hrun.
  - apply lookup_ge_None in Hnone. lia.
Qed.

(** X7.  When a newborn does not divide at once, a call can at most double
    the live list: every cell divides once at most in a pass, and its
    daughter, visited by the same pass, does not. *)
Theorem population_at_most_doubles fuel dt iters ylim len st st' :
  newborn_rests E → live_ok st →
  step_and_update fuel dt iters ylim len st = Some st' →
  length (cells st') ≤ 2 * length (cells st).
Proof.
  intros Hrest Hok (st6 & Ha & ->)%step_and_update_Some.
  destruct (conclude_spec len st6) as (_ & _ & _ & _ & _ & -> & _).
  revert Ha. unfold advance. cbn zeta. intros H.
  destruct (update_pm_cells fuel _) as [st4|] eqn:Hrun; [|done]. injection H as <-.
  destruct (remove_shapes_spec dt (shapes_to_remove ylim st) st) as (A1 & _).
  fold (shape_removal_pass dt ylim st) in A1.
  set (st1 := shape_removal_pass dt ylim st) in *.
  unfold logic in A1. injection A1 as A1h _ A1c _.
  destruct (cell_removal_pass_spec dt ylim st1) as (_ & B1 & _ & _ & _ & _ & B2).
  set (st2 := cell_removal_pass dt ylim st1) in *.
  destruct (wipe_space_spec st2) as (C1 & _).
  unfold logic in C1. injection C1 as C1h _ C1c _.
  assert (Hok3 : live_ok (wipe_space st2)).
  { apply (live_ok_transport st); [|by rewrite C1h, B1, A1h|done].
    by rewrite C1c, <- A1c. }
  pose proof (update_from_doubles _ _ _ Hrest Hok3 Hrun) as Hd.
  destruct (update_cell_positions_spec (steps (Z.to_nat iters) dt st4)) as (_ & -> & _).
  pose proof (steps_logic (Z.to_nat iters) dt st4) as Hl. unfold logic in Hl.
  injection Hl as _ _ -> _.
  pose proof (sublist_length _ _ B2) as Hle. rewrite C1c in Hd. rewrite A1c in Hle. lia.
Qed.

(** ** The world that [update_pm_cells] builds *)

Lemma NoDup_take_lookup (l : list nat) j c :
  NoDup l → l !! j = Some c → c ∉ take j l.
Proof.
  intros Hnd Hj (i & Hi & Hlt)%elem_of_take.
  pose proof (NoDup_lookup _ _ _ _ Hnd Hi Hj). lia.
Qed.

Lemma visit_refs st c cell :
  cell_heap st !! c = Some cell →
  cell_body (visit c st) c = length (body_heap st) ∧
  cell_shape (visit c st) c = length (shape_heap st) ∧
  body_of (visit c st) (length (shape_heap st)) = length (body_heap st) ∧
  length (body_heap st) < length (body_heap (visit c st)) ∧
  shape_heap st `prefix_of` shape_heap (visit c st) ∧
  length (shape_heap st) < length (shape_heap (visit c st)) ∧
  ∀ a, a ≠ c → a < length (cell_heap st) →
       cell_body (visit c st) a = cell_body st a ∧
       cell_shape (visit c st) a = cell_shape st a.
Proof.
  intros Hc. pose proof (lookup_lt_Some _ _ _ Hc) as Hlt.
  destruct (visit_spec c st cell Hc)
    as (g2 & new & _ & _ & _ & Hh & _ & Hsh & Hbl & _). cbn zeta in *.
  unfold cell_body, cell_shape, body_of, get_shape. rewrite Hh, Hsh.
  split_and!.
  - rewrite lookup_app_l by (by rewrite length_insert).
    by rewrite list_lookup_insert_eq.
  - rewrite lookup_app_l by (by rewrite length_insert).
    by rewrite list_lookup_insert_eq.
  - rewrite lookup_app_r by done. by rewrite Nat.sub_diag.
  - lia.
  - by eexists.
  - rewrite length_app. simpl. lia.
  - intros a Hne Ha.
    rewrite lookup_app_l by (by rewrite length_insert).
    by rewrite list_lookup_insert_ne.
Qed.

(** What holds of the cells that the loop has visited so far. *)
Lemma update_pm_cells_world fuel st st' :
  live_ok st → update_pm_cells fuel st = Some st' →
  bodies st' = bodies st ++ (cell_body st' <$> cells st') ∧
  shapes st' = shapes st ++ (cell_shape st' <$> cells st') ∧
  Forall (λ c, length (body_heap st) ≤ cell_body st' c < length (body_heap st') ∧
               length (shape_heap st) ≤ cell_shape st' c < length (shape_heap st') ∧
               body_of st' (cell_shape st' c) = cell_body st' c) (cells st') ∧
  NoDup (cell_body st' <$> cells st') ∧
  NoDup (cell_shape st' <$> cells st').
Proof.
  intros Hok Hrun.
  set (nb := length (body_heap st)). set (ns := length (shape_heap st)).
  destruct (update_from_ind
    (λ j w, live_ok w ∧ j ≤ length (cells w) ∧
            nb ≤ length (body_heap w) ∧ ns ≤ length (shape_heap w) ∧
            bodies w = bodies st ++ (cell_body w <$> take j (cells w)) ∧
            shapes w = shapes st ++ (cell_shape w <$> take j (cells w)) ∧
            Forall (λ c, nb ≤ cell_body w c < length (body_heap w) ∧
                         ns ≤ cell_shape w c < length (shape_heap w) ∧
                         body_of w (cell_shape w c) = cell_body w c) (take j (cells w)) ∧
            NoDup (cell_body w <$> take j (cells w)) ∧
            NoDup (cell_shape w <$> take j (cells w))))
    with (fuel := fuel) (i := 0) (st := st) (st' := st')
    as (j & (_ & _ & _ & _ & Hb & Hs & Hall & Hnb & Hns) & Hnone).
  - intros j w c (Hw & Hj & Hnb & Hns & Hb & Hs & Hall & Hdb & Hds) Hc.
    pose proof (visit_live_ok w j c Hw Hc) as Hw'.
    destruct Hw as [Hnd Hv].
    assert (Hclt : c < length (cell_heap w)).
    { unfold valid in Hv. rewrite Forall_lookup in Hv. by eapply Hv. }
    destruct (lookup_lt_is_Some_2 _ _ Hclt) as [cell Hcell].
    destruct (visit_spec c w cell Hcell)
      as (g2 & new & _ & Hcs & _ & _ & _ & _ & _ & _ & Hbs & Hss & _). cbn zeta in *.
    destruct (visit_refs w c cell Hcell) as (R1 & R2 & R3 & R4 & R5 & R6 & R7).
    pose proof (lookup_lt_Some _ _ _ Hc) as Hjlt.
    assert (Htake : take (S j) (cells (visit c w)) = take j (cells w) ++ [c]).
    { rewrite Hcs, take_app_le by lia. by apply take_S_r. }
    assert (Hold : ∀ a, a ∈ take j (cells w) →
                        cell_body (visit c w) a = cell_body w a ∧
                        cell_shape (visit c w) a = cell_shape w a).
    { intros a Ha. apply R7.
      - intros ->. exact (NoDup_take_lookup _ _ _ Hnd Hc Ha).
      - unfold valid in Hv. rewrite Forall_forall in Hv. apply Hv.
        apply elem_of_take in Ha as (i & Hi & _). by eapply list_elem_of_lookup_2. }
    assert (Hfb : cell_body (visit c w) <$> take j (cells w)
                  = cell_body w <$> take j (cells w)).
    { apply list_fmap_ext. intros i a Hi. apply Hold. by eapply list_elem_of_lookup_2. }
    assert (Hfs : cell_shape (visit c w) <$> take j (cells w)
                  = cell_shape w <$> take j (cells w)).
    { apply list_fmap_ext. intros i a Hi. apply Hold. by eapply list_elem_of_lookup_2. }
    rewrite Htake, !fmap_app, Hfb, Hfs. simpl. rewrite R1, R2.
    split_and!.
    + done.
    + rewrite Hcs, length_app. lia.
    + lia.
    + lia.
    + by rewrite Hbs, Hb, <- app_assoc.
    + by rewrite Hss, Hs, <- app_assoc.
    + apply Forall_app. split.
      * rewrite Forall_forall in Hall. apply Forall_forall. intros a Ha.
        destruct (Hall a Ha) as (B1 & B2 & B3).
        destruct (Hold a Ha) as [-> ->]. split_and!; try lia.
        rewrite <- B3. unfold body_of, get_shape.
        destruct R5 as [k ->]. by rewrite lookup_app_l by lia.
      * apply Forall_singleton. rewrite R1, R2. split_and!; lia.
    + apply NoDup_app. split_and!; [done| |apply NoDup_singleton].
      intros b Hin ->%list_elem_of_singleton.
      apply list_elem_of_fmap in Hin as (a & Ha1 & Ha2).
      rewrite Forall_forall in Hall. destruct (Hall a Ha2) as (B1 & _). lia.
    + apply NoDup_app. split_and!; [done| |apply NoDup_singleton].
      intros b Hin ->%list_elem_of_singleton.
      apply list_elem_of_fmap in Hin as (a & Ha1 & Ha2).
      rewrite Forall_forall in Hall. destruct (Hall a Ha2) as (_ & B2 & _). lia.
  - subst nb ns. simpl. rewrite !app_nil_r.
    split_and!; try done; try lia; try apply NoDup_nil_2.
  - exact Hrun.
  - apply lookup_ge_None in Hnone. rewrite take_ge in * by lia. done.
Qed.

(** X8.  What [update_pm_cells] adds to the space is one body and one shape
    for every cell that is live when it returns, daughters included, in the
    order of the live list; nothing that was in the space is moved or taken
    out. *)
Theorem world_gains_live_cells fuel st st' :
  live_ok st → update_pm_cells fuel st = Some st' →
  bodies st' = bodies st ++ (cell_body st' <$> cells st') ∧
  shapes st' = shapes st ++ (cell_shape st' <$> cells st').
Proof.
  intros Hok Hrun. destruct (update_pm_cells_world _ _ _ Hok Hrun) as (? & ? & _). done.
Qed.

(** X9.  After [update_pm_cells] every live cell has a body and a shape made
    during that pass, its shape hangs on its body, and no two live cells
    share a body or a shape. *)
Theorem live_cells_own_their_bodies fuel st st' :
  live_ok st → update_pm_cells fuel st = Some st' →
  Forall (λ c, length (body_heap st) ≤ cell_body st' c < length (body_heap st') ∧
               length (shape_heap st) ≤ cell_shape st' c < length (shape_heap st') ∧
               body_of st' (cell_shape st' c) = cell_body st' c) (cells st') ∧
  NoDup (cell_body st' <$> cells st') ∧
  NoDup (cell_shape st' <$> cells st').
Proof.
  intros Hok Hrun. destruct (update_pm_cells_world _ _ _ Hok Hrun) as (_ & _ & ?). done.
Qed.

(** ** update_cell_positions *)

Lemma synced_body_heap st st' cell :
  body_heap st' = body_heap st → synced st' cell = synced st cell.
Proof. intros H. unfold synced, get_body. by rewrite H. Qed.

Lemma update_cell_position_self a st :
  cell_heap (update_cell_position a st) !! a = synced st <$> cell_heap st !! a.
Proof.
  unfold update_cell_position. destruct (cell_heap st !! a) as [cell|] eqn:Ha.
  - simpl. rewrite list_lookup_insert_eq; [done|]. by eapply lookup_lt_Some.
  - by rewrite Ha.
Qed.

Lemma update_positions_fold_sync (k : list nat) st c :
  NoDup k →
  cell_heap (foldl (λ w a, update_cell_position a w) st k) !! c
  = if decide (c ∈ k) then synced st <$> cell_heap st !! c else cell_heap st !! c.
Proof.
  revert st. induction k as [|a k IH]; intros st Hnd.
  - cbn [foldl]. by destruct (decide (c ∈ [])) as [?%elem_of_nil|].
  - apply NoDup_cons in Hnd as [Ha Hnd]. simpl. rewrite (IH _ Hnd).
    destruct (update_cell_position_spec a st) as (_ & _ & Hbh & _ & _ & _ & _ & _ & Hne & _).
    cbn zeta in *.
    destruct (decide (c = a)) as [->|Hca].
    + rewrite decide_False by done. rewrite decide_True by (by left).
      apply update_cell_position_self.
    + rewrite (Hne c Hca). destruct (decide (c ∈ k)) as [Hin|Hout].
      * rewrite decide_True by (by right).
        destruct (cell_heap st !! c); [|done]. simpl. f_equal.
        by apply synced_body_heap.
      * rewrite decide_False; [done|]. by intros [?|?]%elem_of_cons.
Qed.

(** X10.  [update_cell_positions] hands every live cell the state of its own
    body, once, and writes to nothing else: a live cell is left as
    [update_position] makes it from its body in the space, and a cell that is
    not live is left as it was. *)
Theorem positions_follow_bodies st c :
  NoDup (cells st) →
  cell_heap (update_cell_positions st) !! c
  = if decide (c ∈ cells st) then synced st <$> cell_heap st !! c else cell_heap st !! c.
Proof. intros Hnd. unfold update_cell_positions. by apply update_positions_fold_sync. Qed.

(** ** Runs with [sim_length <= 0] *)

Lemma step_never_saves fuel dt iters ylim len st st' :
  (len ≤ 0)%Z → (0 ≤ x st)%Z → has_exit st = false → saved st = None →
  step_and_update fuel dt iters ylim len st = Some st' →
  x st' = (x st + 1)%Z ∧ has_exit st' = false ∧ saved st' = None ∧
  ((x st ≤ 1)%Z → cell_timeseries st' = cell_timeseries st).
Proof.
  intros Hlen Hx He Hs (st6 & Ha & ->)%step_and_update_Some.
  pose proof (advance_control _ _ _ _ _ _ Ha) as Hc. unfold control in Hc.
  injection Hc as Ht6 Hx6 _ He6 Hs6.
  destruct (conclude_spec len st6) as (-> & -> & -> & -> & _).
  assert ((x st6 =? len - 1)%Z = false) as -> by lia.
  rewrite Hx6, He6, Hs6, Ht6. split_and!; try done.
  intros Hle. assert ((1 <? x st)%Z = false) as -> by lia. by rewrite app_nil_r.
Qed.

Lemma window_loop_never ticks (clk : nat → Q) iters ylim len :
  ∀ fuel k st,
    (len ≤ 0)%Z → (0 ≤ x st)%Z → has_exit st = false → saved st = None →
    window_loop ticks fuel k clk iters ylim len st = None.
Proof.
  induction ticks as [|ticks IH]; intros fuel k st Hlen Hx He Hs; [done|]. simpl.
  destruct (step_and_update fuel (clk k) iters ylim len st) as [st'|] eqn:Hstep; [|done].
  destruct (step_never_saves _ _ _ _ _ _ _ Hlen Hx He Hs Hstep) as (Hx' & He' & Hs' & _).
  simpl. rewrite He'. apply IH; [done|lia|done|done].
Qed.

(** X11.  With the pyglet window and [sim_length <= 0] no call ever reaches
    [pyglet.app.exit()]: the counter starts at 0 and only goes up, so it
    never equals [sim_length - 1], and the event loop is not ended by the
    simulation however many ticks it is given. *)
Theorem window_run_never_exits (a : Args E) ticks fuel :
  show_window a = true → (sim_length a ≤ 0)%Z → run_simulation ticks fuel a = None.
Proof.
  intros Hw Hlen. unfold run_simulation. rewrite Hw.
  destruct (initial_state_spec a) as (_ & Hc & He & _).
  unfold counters in Hc. injection Hc as Hx _.
  rewrite window_loop_never; [done|done|lia|done|].
  unfold initial_state. by destruct (Cell_init E _ _) as [[? ?] ?].
Qed.

Lemma headless_loop_never n fuel dt iters ylim len :
  ∀ st st',
    (len ≤ 0)%Z → (0 ≤ x st)%Z → has_exit st = false → saved st = None →
    headless_loop n fuel dt iters ylim len st = Some st' →
    x st' = (x st + Z.of_nat n)%Z ∧ saved st' = None ∧
    ((x st + Z.of_nat n ≤ 2)%Z → cell_timeseries st' = cell_timeseries st).
Proof.
  induction n as [|n IH]; intros st st' Hlen Hx He Hs; simpl.
  - intros [= <-]. split_and!; [lia|done|done].
  - destruct (step_and_update fuel dt iters ylim len st) as [st1|] eqn:Hstep; [|done].
    simpl. intros Hrun.
    destruct (step_never_saves _ _ _ _ _ _ _ Hlen Hx He Hs Hstep) as (Hx' & He' & Hs' & Ht).
    destruct (IH st1 st' Hlen ltac:(lia) He' Hs' Hrun) as (Hx2 & Hs2 & Ht2).
    split_and!; [lia|done|]. intros Hle. rewrite Ht2 by lia. apply Ht. lia.
Qed.

(** X12.  A headless run with [sim_length <= 0] makes [sim_length + 2] calls
    if that is positive and none otherwise, two at most: it returns an empty
    time series and writes no file. *)
Theorem headless_run_without_frames (a : Args E) ticks fuel r :
  show_window a = false → (sim_length a ≤ 0)%Z →
  run_simulation ticks fuel a = Some r →
  cell_timeseries r = [] ∧ saved r = None ∧ x r = Z.max 0 (sim_length a + 2).
Proof.
  intros Hw Hlen Hrun.
  destruct (run_simulation_fields _ _ _ _ Hrun) as (st & Hloop & -> & _ & -> & _ & ->).
  rewrite Hw in Hloop.
  destruct (initial_state_spec a) as (_ & Hc & He & _).
  unfold counters in Hc. injection Hc as Hx Hl. apply nil_length_inv in Hl.
  assert (Hs : saved (initial_state a) = None).
  { unfold initial_state. by destruct (Cell_init E _ _) as [[? ?] ?]. }
  assert (Hx0 : (0 ≤ x (initial_state a))%Z) by lia.
  destruct (headless_loop_never _ _ _ _ _ _ _ _ Hlen Hx0 He Hs Hloop)
    as (Hx' & Hs' & Ht).
  split_and!; [|done|lia]. rewrite Ht by lia. done.
Qed.

(** ** The recorded frames and their time stamps *)

Lemma visit_heap_grows c st : length (cell_heap st) ≤ length (cell_heap (visit c st)).
Proof.
  destruct (cell_heap st !! c) as [cell|] eqn:Hc.
  - destruct (visit_spec c st cell Hc) as (g2 & new & _ & _ & _ & -> & _).
    rewrite length_app, length_insert. lia.
  - unfold visit. by rewrite Hc.
Qed.

Lemma advance_heap_grows fuel dt iters ylim st st6 :
  advance fuel dt iters ylim st = Some st6 →
  length (cell_heap st) ≤ length (cell_heap st6).
Proof.
  unfold advance. cbn zeta. intros H.
  destruct (update_pm_cells fuel _) as [st4|] eqn:Hrun; [|done]. injection H as <-.
  destruct (remove_shapes_spec dt (shapes_to_remove ylim st) st) as (A1 & _).
  fold (shape_removal_pass dt ylim st) in A1.
  set (st1 := shape_removal_pass dt ylim st) in *.
  unfold logic in A1. injection A1 as A1h _.
  destruct (cell_removal_pass_spec dt ylim st1) as (_ & B1 & _).
  set (st2 := cell_removal_pass dt ylim st1) in *.
  destruct (wipe_space_spec st2) as (C1 & _).
  unfold logic in C1. injection C1 as C1h _.
  destruct (update_cell_positions_spec (steps (Z.to_nat iters) dt st4))
    as (_ & _ & _ & _ & _ & _ & _ & -> & _).
  pose proof (steps_logic (Z.to_nat iters) dt st4) as Hl. unfold logic in Hl.
  injection Hl as -> _.
  destruct (update_from_ind (λ _ w, length (cell_heap st) ≤ length (cell_heap w)))
    with (fuel := fuel) (i := 0) (st := wipe_space st2) (st' := st4) as (j & Hj & _).
  - intros i w c Hw _. pose proof (visit_heap_grows c w). lia.
  - by rewrite C1h, B1, A1h.
  - exact Hrun.
  - exact Hj.
Qed.

Lemma conclude_plain len st :
  (1 <? x st)%Z = false → cell_heap (conclude len st) = cell_heap st.
Proof. intros Hx. unfold conclude, finalize. rewrite Hx. by destruct (_ =? _)%Z. Qed.

Lemma step_frames_apart fuel dt iters ylim len st st' :
  frames_apart st → step_and_update fuel dt iters ylim len st = Some st' →
  frames_apart st'.
Proof.
  intros (Hok & Hnd & Hhist & Hall) (st6 & Ha & ->)%step_and_update_Some.
  pose proof (advance_live_ok _ _ _ _ _ _ Hok Ha) as Hok6.
  pose proof (advance_heap_grows _ _ _ _ _ _ Ha) as Hgrow.
  pose proof (advance_control _ _ _ _ _ _ Ha) as Hc. unfold control in Hc.
  injection Hc as Ht6 _ Hh6 _ _.
  destruct (keeps_advance (λ l, l ∈ recorded st) (λ _, False) (λ _, False)
              _ _ _ _ _ _ Ha) as [(G1 & _ & _ & G2 & _) _].
  { rewrite Forall_forall in Hall. split_and!; try done.
    - intros l Hl. by apply Hall.
    - apply Forall_forall. intros c Hc Hin. by destruct (Hall c Hin) as (_ & ? & _).
    - apply Forall_forall. by intros ? _ []. }
  rewrite Forall_forall in G2, Hall, Hhist.
  destruct (conclude_spec len st6) as (_ & Hser & _ & _ & Hh & Hcs & _). cbn zeta in *.
  split; [by apply conclude_live_ok|].
  unfold recorded. rewrite Hser, Hh, Hcs, Hh6, Ht6.
  destruct (1 <? x st6)%Z eqn:Hx.
  - destruct (conclude_record len st6 Hx) as (Hch & _). cbn zeta in *.
    rewrite Hch, length_app, length_fmap, concat_app. simpl. rewrite app_nil_r.
    fold (recorded st). destruct Hok6 as [Hnd6 Hv6].
    unfold valid in Hv6. rewrite Forall_forall in Hv6.
    split_and!.
    + apply NoDup_app. split_and!; [done| |apply NoDup_fmap_2; [intros ? ? ?; lia|done]].
      intros c Hc (a & -> & Ha')%list_elem_of_fmap. specialize (G1 _ Hc). lia.
    + apply Forall_forall. intros c Hc. specialize (Hhist c Hc). lia.
    + apply Forall_app. split; apply Forall_forall.
      * intros c Hc. destruct (Hall c Hc) as (_ & _ & Hout).
        specialize (G1 c Hc). split_and!; [lia| |done].
        intros Hin. by apply (G2 c Hin).
      * intros c (a & -> & Ha')%list_elem_of_fmap. pose proof (Hv6 a Ha') as Hlt.
        split_and!; [lia| |].
        -- intros Hin. pose proof (Hv6 _ Hin). lia.
        -- intros Hin. pose proof (Hhist _ Hin). lia.
  - rewrite (conclude_plain len st6 Hx), app_nil_r. fold (recorded st).
    split_and!; [done| |].
    + apply Forall_forall. intros c Hc. specialize (Hhist c Hc). lia.
    + apply Forall_forall. intros c Hc. destruct (Hall c Hc) as (_ & _ & Hout).
      specialize (G1 c Hc). split_and!; [done| |done].
      intros Hin. by apply (G2 c Hin).
Qed.

Lemma drive_invariant (I : State E → Prop) :
  (∀ fuel dt iters ylim len st st',
     I st → step_and_update fuel dt iters ylim len st = Some st' → I st') →
  ∀ ticks fuel (a : Args E) st,
    I (initial_state a) → drive ticks fuel a = Some st → I st.
Proof.
  intros Hstep ticks fuel a st H0. unfold drive. destruct (show_window a).
  - generalize 0 at 1. generalize (clock a). revert H0. generalize (initial_state a).
    induction ticks as [|ticks IH]; intros st0 H0 clk k; simpl; [done|].
    destruct (step_and_update fuel (clk k) _ _ _ st0) as [st1|] eqn:Hs; [|done].
    simpl. pose proof (Hstep _ _ _ _ _ _ _ H0 Hs) as H1.
    destruct (has_exit st1); [by intros [= <-]|]. by apply IH.
  - revert H0. generalize (initial_state a).
    induction (Z.to_nat (sim_length a + 2)) as [|n IH]; intros st0 H0; simpl;
      [by intros [= <-]|].
    destruct (step_and_update fuel _ _ _ _ st0) as [st1|] eqn:Hs; [|done].
    simpl. apply IH. by eapply Hstep.
Qed.

Lemma initial_frames_apart (a : Args E) : frames_apart (initial_state a).
Proof.
  destruct (initial_state_spec a) as (Hok & Hc & _ & Hh & _ & Hl).
  unfold counters in Hc. injection Hc as _ Ht. apply nil_length_inv in Ht.
  unfold frames_apart, recorded. rewrite Ht, Hh, Hl. simpl.
  split_and!; [done|apply NoDup_nil_2| |by apply Forall_nil].
  apply Forall_singleton. lia.
Qed.

Lemma stamp_one (v : Z) (f : list nat) (h : list (Cell E)) c :
  foldl (λ h' a, alter (set_t v) a h') h f !! c
  = if decide (c ∈ f) then set_t v <$> h !! c else h !! c.
Proof.
  revert h. induction f as [|a f IH]; intros h.
  - cbn [foldl]. by destruct (decide (c ∈ [])) as [?%elem_of_nil|].
  - cbn [foldl]. rewrite IH. destruct (decide (c = a)) as [->|Hne].
    + rewrite list_lookup_alter_eq.
      destruct (decide (a ∈ a :: f)) as [_|Hn]; [|by destruct Hn; left].
      destruct (decide (a ∈ f)); destruct (h !! a); done.
    + rewrite list_lookup_alter_ne by done.
      destruct (decide (c ∈ f)) as [Hin|Hout].
      * by rewrite decide_True by (by right).
      * rewrite decide_False; [done|]. by intros [?|?]%elem_of_cons.
Qed.

Lemma elem_of_concat_lookup (ls : list (list nat)) k f c :
  ls !! k = Some f → c ∈ f → c ∈ concat ls.
Proof.
  revert k. induction ls as [|l ls IH]; intros [|k] Hk Hc; simpl in *; try done.
  - injection Hk as ->. apply elem_of_app. by left.
  - apply elem_of_app. right. by eapply IH.
Qed.

Lemma stamp_frames_spec (frames : list (list nat)) :
  ∀ j (h : list (Cell E)),
    NoDup (concat frames) →
    (∀ k f c, frames !! k = Some f → c ∈ f →
              stamp_frames j frames h !! c = set_t (Z.of_nat (j + k)) <$> h !! c) ∧
    (∀ c, c ∉ concat frames → stamp_frames j frames h !! c = h !! c).
Proof.
  induction frames as [|f frames IH]; intros j h Hnd.
  - split; [by intros k f c ?|done].
  - simpl in Hnd. apply NoDup_app in Hnd as (_ & Hdis & Hnd').
    simpl. destruct (IH (S j) (foldl (λ h' c, alter (set_t (Z.of_nat j)) c h') h f) Hnd')
      as [IH1 IH2].
    split.
    + intros [|k] f' c Hk Hc; simpl in Hk.
      * injection Hk as <-. rewrite IH2 by (by apply Hdis).
        rewrite stamp_one, decide_True by done. by rewrite Nat.add_0_r.
      * rewrite (IH1 k f' c Hk Hc), stamp_one.
        assert (Hout : c ∉ f).
        { intros Hin. apply (Hdis c Hin). by eapply elem_of_concat_lookup. }
        rewrite decide_False by done. by rewrite Nat.add_succ_r.
    + intros c Hc. rewrite not_elem_of_app in Hc. destruct Hc as [Hf Hrest].
      rewrite IH2 by done. by rewrite stamp_one, decide_False.
Qed.

Lemma run_simulation_frames ticks fuel (a : Args E) r :
  run_simulation ticks fuel a = Some r →
  ∃ st, drive ticks fuel a = Some st ∧ frames_apart st ∧
        r = set_cell_heap (stamp_frames 0 (cell_timeseries st) (cell_heap st)) st.
Proof.
  unfold run_simulation. fold (drive ticks fuel a). intros H.
  destruct (drive ticks fuel a) as [st|] eqn:Hloop; [|done].
  simpl in H. injection H as <-. exists st. split; [done|]. split; [|done].
  eapply (drive_invariant frames_apart); [|apply initial_frames_apart|exact Hloop].
  intros. by eapply step_frames_apart.
Qed.

(** X13.  The frames of the returned time series are made of cells of their
    own: no cell is in a frame twice or in two frames, and none is on the
    live list or in [historic_cells]. *)
Theorem frames_share_no_cell ticks fuel (a : Args E) r :
  run_simulation ticks fuel a = Some r →
  NoDup (recorded r) ∧
  Forall (λ c, (c ∉ cells r) ∧ (c ∉ historic_cells r)) (recorded r).
Proof.
  intros (st & _ & (_ & Hnd & _ & Hall) & ->)%run_simulation_frames.
  split; [exact Hnd|]. eapply Forall_impl; [exact Hall|]. simpl. by intros c (_ & ? & ?).
Qed.

(** X14.  When the run returns, every cell of frame [k] of the time series
    carries [t = k]; the cells that are in no frame, the live ones and those
    of [historic_cells] among them, are as the last call left them. *)
Theorem frames_are_stamped ticks fuel (a : Args E) r :
  run_simulation ticks fuel a = Some r →
  (∀ k f c, cell_timeseries r !! k = Some f → c ∈ f →
            t <$> cell_heap r !! c = Some (Some (Z.of_nat k))) ∧
  (∀ st c, drive ticks fuel a = Some st → c ∈ cells r ++ historic_cells r →
           cell_heap r !! c = cell_heap st !! c).
Proof.
  intros (st & Hd & Hf & ->)%run_simulation_frames.
  destruct Hf as (_ & Hnd & _ & Hall).
  destruct (stamp_frames_spec (cell_timeseries st) 0 (cell_heap st) Hnd) as [S1 S2].
  rewrite Forall_forall in Hall. split.
  - simpl. intros k f c Hk Hc. rewrite (S1 k f c Hk Hc). simpl.
    destruct (Hall c) as (Hlt & _).
    { by eapply elem_of_concat_lookup. }
    apply lookup_lt_is_Some_2 in Hlt as [cell ->]. done.
  - intros st0 c Hd0 Hc. rewrite Hd in Hd0. injection Hd0 as <-. simpl in *.
    apply S2. intros Hin. destruct (Hall c Hin) as (_ & H1 & H2).
    apply elem_of_app in Hc as [?|?]; done.
Qed.

(** ** Mothers and daughters *)

Lemma steps_cell_heap n dt st : cell_heap (steps n dt st) = cell_heap st.
Proof.
  pose proof (steps_logic n dt st) as Hl. unfold logic in Hl. by injection Hl as -> _.
Qed.

Lemma settle_cell_heap c st :
  cell_heap (steps 150 (1 # 100) (cell_adder c st)) = cell_heap st.
Proof.
  rewrite steps_cell_heap. unfold cell_adder. by destruct (cell_heap st !! c).
Qed.

Lemma visit_links c st cell :
  cell_heap st !! c = Some cell →
  ∃ (v : Cell E) (new : list (Cell E)),
    cell_heap (visit c st) = <[c := v]> (cell_heap st) ++ new ∧
    mother v = mother cell ∧
    daughter v = (if new is [] then daughter cell else Some (length (cell_heap st))) ∧
    length new ≤ 1 ∧
    Forall (λ d, mother d = Some c ∧ daughter d = None) new ∧
    t v = t cell ∧ Forall (λ d, t d = None) new.
Proof.
  intros Hc. pose proof (lookup_lt_Some _ _ _ Hc) as Hlt.
  unfold visit. rewrite Hc.
  destruct (create_pm_cell E (update_length E (attrs cell)) (rng st)) as [[[g2 b] ret] r].
  cbn [new_pm]. rewrite settle_cell_heap.
  set (bl := length (body_heap (set_rng r st))).
  set (sl := length (shape_heap (set_rng r st))).
  set (v := mkCell bl sl (mother cell) (daughter cell) (t cell) g2).
  set (st2 := write_cell c v _).
  assert (Hplain : ∃ (v : Cell E) (new : list (Cell E)),
    cell_heap st2 = <[c := v]> (cell_heap st) ++ new ∧
    mother v = mother cell ∧
    daughter v = (if new is [] then daughter cell else Some (length (cell_heap st))) ∧
    length new ≤ 1 ∧
    Forall (λ d, mother d = Some c ∧ daughter d = None) new ∧
    t v = t cell ∧ Forall (λ d, t d = None) new).
  { exists v, []. simpl. rewrite app_nil_r. split_and!; try done. lia. }
  destruct (is_dividing E (update_length E (attrs cell)));
    [destruct ret as [|d]; [|destruct (2 <? kwargs_len E d)]|]; try exact Hplain.
  clear Hplain. unfold spawn.
  destruct (Cell_init E d (rng st2)) as [[gd bd] r2].
  cbn [new_pm].
  set (dcell := mkCell _ _ (Some c) None None gd).
  set (st3 := set_cell_heap _ _).
  assert (H3 : cell_heap st3 !! c = Some v).
  { unfold st3. simpl. rewrite lookup_app_l by (by rewrite length_insert).
    by apply list_lookup_insert_eq. }
  rewrite H3.
  exists (mkCell (body v) (shape v) (mother v) (Some (length (cell_heap st))) (t v) (attrs v)),
         [dcell].
  split_and!; try done.
  - simpl. rewrite insert_app_l by (by rewrite length_insert).
    rewrite list_insert_insert_eq. simpl. by rewrite ?length_insert.
  - by apply Forall_singleton.
  - by apply Forall_singleton.
Qed.

Lemma linked_ext (h h' : list (Cell E)) :
  (∀ l, mother <$> h' !! l = mother <$> h !! l) →
  (∀ l, daughter <$> h' !! l = daughter <$> h !! l) →
  linked h → linked h'.
Proof.
  intros Hm Hd Hl c cell d Hc Hdau.
  pose proof (Hd c) as Hdc. rewrite Hc in Hdc. simpl in Hdc.
  destruct (h !! c) as [cell0|] eqn:Hc0; [|done]. injection Hdc as Hdc.
  destruct (Hl c cell0 d Hc0) as (dc & Hdl & Hmo); [congruence|].
  pose proof (Hm d) as Hmd. rewrite Hdl in Hmd. simpl in Hmd.
  destruct (h' !! d) as [dc'|]; [|done]. injection Hmd as Hmd.
  exists dc'. split; [done|congruence].
Qed.

Lemma visit_linked c st : linked (cell_heap st) → linked (cell_heap (visit c st)).
Proof.
  intros Hl. destruct (cell_heap st !! c) as [cell|] eqn:Hc.
  2:{ unfold visit. by rewrite Hc. }
  pose proof (lookup_lt_Some _ _ _ Hc) as Hlt.
  destruct (visit_links c st cell Hc) as (v & new & -> & Hm & Hd & Hlen & Hnew & _).
  assert (Hmo : ∀ l, mother <$> <[c := v]> (cell_heap st) !! l = mother <$> cell_heap st !! l).
  { intros l. destruct (decide (l = c)) as [->|Hne].
    - rewrite list_lookup_insert_eq by done. rewrite Hc. simpl. by rewrite Hm.
    - by rewrite list_lookup_insert_ne. }
  destruct new as [|dn [|? ?]]; [| |simpl in Hlen; lia].
  - rewrite app_nil_r. eapply linked_ext; [exact Hmo| |exact Hl].
    intros l. destruct (decide (l = c)) as [->|Hne].
    + rewrite list_lookup_insert_eq by done. rewrite Hc. simpl. by rewrite Hd.
    + by rewrite list_lookup_insert_ne.
  - apply Forall_singleton in Hnew as [Hnm Hnd].
    intros c1 cell1 d Hc1 Hdau.
    destruct (decide (c1 < length (cell_heap st))) as [Hin|Hout].
    + rewrite lookup_app_l in Hc1 by (by rewrite length_insert).
      destruct (decide (c1 = c)) as [->|Hne].
      * rewrite list_lookup_insert_eq in Hc1 by done. injection Hc1 as <-.
        rewrite Hd in Hdau. injection Hdau as <-.
        exists dn. split; [|done].
        rewrite lookup_app_r by (by rewrite length_insert).
        by rewrite length_insert, Nat.sub_diag.
      * rewrite list_lookup_insert_ne in Hc1 by done.
        destruct (Hl c1 cell1 d Hc1 Hdau) as (dc & Hdl & Hdm).
        pose proof (lookup_lt_Some _ _ _ Hdl) as Hdlt.
        pose proof (Hmo d) as Hmd. rewrite Hdl in Hmd. simpl in Hmd.
        destruct (<[c := v]> (cell_heap st) !! d) as [dc'|] eqn:Hd'; [|done].
        injection Hmd as Hmd. exists dc'. split; [|congruence].
        rewrite lookup_app_l by (by rewrite length_insert). done.
    + pose proof (lookup_lt_Some _ _ _ Hc1) as Hc1lt.
      rewrite length_app, length_insert in Hc1lt. simpl in Hc1lt.
      assert (c1 = length (cell_heap st)) as -> by lia.
      rewrite lookup_app_r in Hc1 by (by rewrite length_insert).
      rewrite length_insert, Nat.sub_diag in Hc1. injection Hc1 as <-. congruence.
Qed.

Lemma deepcopy_linked (h : list (Cell E)) nb ns :
  linked h → linked (h ++ (shift_cell (length h) nb ns <$> h)).
Proof.
  intros Hl c cell d Hc Hdau.
  destruct (decide (c < length h)) as [Hin|Hout].
  - rewrite lookup_app_l in Hc by done.
    destruct (Hl c cell d Hc Hdau) as (dc & Hdl & Hdm).
    exists dc. split; [|done]. rewrite lookup_app_l; [done|]. by eapply lookup_lt_Some.
  - rewrite lookup_app_r in Hc by lia. rewrite list_lookup_fmap in Hc.
    destruct (h !! (c - length h)) as [cell0|] eqn:Hc0; [|done].
    injection Hc as <-. simpl in Hdau.
    destruct (daughter cell0) as [d0|] eqn:Hd0; [|done]. injection Hdau as <-.
    destruct (Hl _ cell0 d0 Hc0 Hd0) as (dc & Hdl & Hdm).
    exists (shift_cell (length h) nb ns dc). split.
    + rewrite lookup_app_r by lia. rewrite list_lookup_fmap.
      replace (length h + d0 - length h) with d0 by lia. by rewrite Hdl.
    + simpl. rewrite Hdm. simpl. f_equal. lia.
Qed.

Lemma step_linked fuel dt iters ylim len st st' :
  live_ok st ∧ linked (cell_heap st) →
  step_and_update fuel dt iters ylim len st = Some st' →
  live_ok st' ∧ linked (cell_heap st').
Proof.
  intros [Hok Hl] Hstep. split; [by eapply step_live_ok|].
  apply step_and_update_Some in Hstep as (st6 & Ha & ->).
  assert (Hl6 : linked (cell_heap st6)).
  { revert Ha. unfold advance. cbn zeta. intros H.
    destruct (update_pm_cells fuel _) as [st4|] eqn:Hrun; [|done]. injection H as <-.
    destruct (remove_shapes_spec dt (shapes_to_remove ylim st) st) as (A1 & _).
    fold (shape_removal_pass dt ylim st) in A1.
    set (st1 := shape_removal_pass dt ylim st) in *.
    unfold logic in A1. injection A1 as A1h _ A1c _.
    destruct (cell_removal_pass_spec dt ylim st1) as (_ & B1 & _ & _ & _ & _ & B2).
    set (st2 := cell_removal_pass dt ylim st1) in *.
    destruct (wipe_space_spec st2) as (C1 & _).
    unfold logic in C1. injection C1 as C1h _ C1c _.
    assert (Hok3 : live_ok (wipe_space st2)).
    { apply (live_ok_transport st); [|by rewrite C1h, B1, A1h|done].
      by rewrite C1c, <- A1c. }
    destruct (update_from_live_ok _ _ _ _ Hok3 Hrun) as [Hnd4 _].
    assert (Hl4 : linked (cell_heap st4)).
    { destruct (update_from_ind (λ _ w, linked (cell_heap w)))
        with (fuel := fuel) (i := 0) (st := wipe_space st2) (st' := st4) as (j & Hj & _).
      - intros i w c Hw _. by apply visit_linked.
      - by rewrite C1h, B1, A1h.
      - exact Hrun.
      - exact Hj. }
    pose proof (steps_logic (Z.to_nat iters) dt st4) as Hlg. unfold logic in Hlg.
    injection Hlg as F1 _ F2 _.
    unfold update_cell_positions.
    apply (linked_ext (cell_heap (steps (Z.to_nat iters) dt st4))); [| |by rewrite F1].
    - intros l. rewrite update_positions_fold_sync by (by rewrite F2).
      destruct (decide _); [|done]. by destruct (cell_heap _ !! l).
    - intros l. rewrite update_positions_fold_sync by (by rewrite F2).
      destruct (decide _); [|done]. by destruct (cell_heap _ !! l). }
  destruct (1 <? x st6)%Z eqn:Hx.
  - destruct (conclude_record len st6 Hx) as (-> & _). by apply deepcopy_linked.
  - by rewrite conclude_plain.
Qed.

Lemma stamp_frames_links (frames : list (list nat)) :
  ∀ j (h : list (Cell E)) l,
    mother <$> stamp_frames j frames h !! l = mother <$> h !! l ∧
    daughter <$> stamp_frames j frames h !! l = daughter <$> h !! l.
Proof.
  induction frames as [|f frames IH]; intros j h l; [done|]. simpl.
  destruct (IH (S j) (foldl (λ h' c, alter (set_t (Z.of_nat j)) c h') h f) l) as [-> ->].
  rewrite stamp_one. destruct (decide _); [|done]. by destruct (h !! l).
Qed.


(** ** Cells that have left the trench *)

Lemma cells_to_remove_out ylim st (l : list nat) r c :
  c ∈ l → out_of_bounds ylim (cell_y st c) = true →
  c ∈ (cells_to_remove ylim st l r).1.
Proof.
  intros Hin Hout. revert r. induction l as [|a l IH]; intros r; [by apply elem_of_nil in Hin|].
  simpl. apply elem_of_cons in Hin as [->|Hin].
  - rewrite Hout. destruct (cells_to_remove ylim st l r) as [cs r']. by left.
  - specialize (IH Hin). destruct (out_of_bounds ylim (cell_y st a)).
    + specialize (IH r). destruct (cells_to_remove ylim st l r) as [cs r']. by right.
    + destruct (norm_rvs E r) as [u r1]. specialize (IH r1).
      destruct (cells_to_remove ylim st l r1) as [cs r'].
      destruct (_ && _); [by right|done].
Qed.

(** X16.  No cell that is out of the trench when the removal pass starts is
    on the live list when it ends, the last cell included: the guard
    [len(cells) > 1] protects against lysis only. *)
Theorem escaped_cells_are_dropped dt ylim st :
  NoDup (cells st) →
  Forall (in_bounds ylim st) (cells (cell_removal_pass dt ylim st)).
Proof.
  intros Hnd. unfold cell_removal_pass.
  pose proof (λ c, cells_to_remove_out ylim st (cells st) (rng st) c) as Hout.
  destruct (cells_to_remove ylim st (cells st) (rng st)) as [cs r]. simpl in Hout.
  rewrite remove_cells_filter by done. simpl.
  apply Forall_forall. intros c [Hc Hin]%list_elem_of_filter.
  unfold in_bounds. destruct (out_of_bounds ylim (cell_y st c)) eqn:Hoob; [|done].
  destruct Hc. by apply Hout.
Qed.

(** ** Bodies and shapes two by two *)

(** X17.  The order that [wipe_space] relies on is kept by every call: if the
    i-th shape of the space hangs on the i-th body when [step_and_update] is
    called, and the shapes of the space exist, it is so again when the call
    returns. *)
Theorem pairing_survives_a_call fuel dt iters ylim len st st' :
  paired st → shapes_ok st →
  step_and_update fuel dt iters ylim len st = Some st' →
  paired st' ∧ shapes_ok st'.
Proof. apply step_and_update_paired. Qed.

(** ** What the run returns and what it has saved *)

Lemma visit_unstamped c st : unstamped (cell_heap st) → unstamped (cell_heap (visit c st)).
Proof.
  intros Hu. destruct (cell_heap st !! c) as [cell|] eqn:Hc.
  2:{ unfold visit. by rewrite Hc. }
  destruct (visit_links c st cell Hc) as (v & new & -> & _ & _ & _ & _ & Ht & Hnew).
  unfold unstamped in *. apply Forall_app. split; [|done].
  apply Forall_insert; [done|]. rewrite Ht.
  rewrite Forall_lookup in Hu. by apply (Hu c cell).
Qed.

Lemma step_unstamped fuel dt iters ylim len st st' :
  live_ok st ∧ unstamped (cell_heap st) →
  step_and_update fuel dt iters ylim len st = Some st' →
  live_ok st' ∧ unstamped (cell_heap st').
Proof.
  intros [Hok Hu] Hstep. split; [by eapply step_live_ok|].
  apply step_and_update_Some in Hstep as (st6 & Ha & ->).
  assert (Hu6 : unstamped (cell_heap st6)).
  { revert Ha. unfold advance. cbn zeta. intros H.
    destruct (update_pm_cells fuel _) as [st4|] eqn:Hrun; [|done]. injection H as <-.
    destruct (remove_shapes_spec dt (shapes_to_remove ylim st) st) as (A1 & _).
    fold (shape_removal_pass dt ylim st) in A1.
    set (st1 := shape_removal_pass dt ylim st) in *.
    unfold logic in A1. injection A1 as A1h _ A1c _.
    destruct (cell_removal_pass_spec dt ylim st1) as (_ & B1 & _ & _ & _ & _ & B2).
    set (st2 := cell_removal_pass dt ylim st1) in *.
    destruct (wipe_space_spec st2) as (C1 & _).
    unfold logic in C1. injection C1 as C1h _ C1c _.
    assert (Hok3 : live_ok (wipe_space st2)).
    { apply (live_ok_transport st); [|by rewrite C1h, B1, A1h|done].
      by rewrite C1c, <- A1c. }
    destruct (update_from_live_ok _ _ _ _ Hok3 Hrun) as [Hnd4 _].
    assert (Hu4 : unstamped (cell_heap st4)).
    { destruct (update_from_ind (λ _ w, unstamped (cell_heap w)))
        with (fuel := fuel) (i := 0) (st := wipe_space st2) (st' := st4) as (j & Hj & _).
      - intros i w c Hw _. by apply visit_unstamped.
      - by rewrite C1h, B1, A1h.
      - exact Hrun.
      - exact Hj. }
    pose proof (steps_logic (Z.to_nat iters) dt st4) as Hlg. unfold logic in Hlg.
    injection Hlg as F1 _ F2 _.
    unfold update_cell_positions, unstamped. apply Forall_lookup. intros l cell.
    rewrite update_positions_fold_sync by (by rewrite F2). rewrite F1.
    unfold unstamped in Hu4. rewrite Forall_lookup in Hu4.
    destruct (decide _).
    - destruct (cell_heap st4 !! l) as [cell0|] eqn:Hl; [|done].
      intros [= <-]. simpl. by apply (Hu4 l).
    - apply Hu4. }
  destruct (1 <? x st6)%Z eqn:Hx.
  - destruct (conclude_record len st6 Hx) as (-> & _). unfold unstamped.
    apply Forall_app. split; [done|]. apply Forall_fmap.
    eapply Forall_impl; [exact Hu6|]. done.
  - by rewrite conclude_plain.
Qed.


(** ** Recorded frames are copies all the way down *)

(** After the pass over the live list, the shape of every live cell hangs on
    that cell's body. *)
Lemma update_pm_cells_hung fuel st st' :
  valid st → update_pm_cells fuel st = Some st' →
  Forall (λ c, cell_shape st' c < length (shape_heap st') ∧
               body_of st' (cell_shape st' c) = cell_body st' c) (cells st').
Proof.
  intros Hv Hrun.
  destruct (update_from_ind
    (λ j w, valid w ∧ j ≤ length (cells w) ∧
            Forall (λ c, cell_shape w c < length (shape_heap w) ∧
                         body_of w (cell_shape w c) = cell_body w c) (take j (cells w))))
    with (fuel := fuel) (i := 0) (st := st) (st' := st')
    as (j & (_ & _ & Hall) & Hnone).
  - intros j w c (Hw & Hj & Hall) Hc.
    pose proof (visit_valid w j c Hw Hc) as Hw'.
    assert (Hclt : c < length (cell_heap w)).
    { unfold valid in Hw. rewrite Forall_lookup in Hw. by eapply Hw. }
    destruct (lookup_lt_is_Some_2 _ _ Hclt) as [cell Hcell].
    destruct (visit_spec c w cell Hcell) as (g2 & new & _ & Hcs & _). cbn zeta in *.
    destruct (visit_refs w c cell Hcell) as (R1 & R2 & R3 & R4 & R5 & R6 & R7).
    pose proof (lookup_lt_Some _ _ _ Hc) as Hjlt.
    assert (Htake : take (S j) (cells (visit c w)) = take j (cells w) ++ [c]).
    { rewrite Hcs, take_app_le by lia. by apply take_S_r. }
    split_and!; [done|rewrite Hcs, length_app; lia|].
    rewrite Htake. apply Forall_app. split.
    + rewrite Forall_forall in Hall. apply Forall_forall. intros a Ha.
      destruct (decide (a = c)) as [->|Hne]; [rewrite R1, R2; split; [lia|done]|].
      destruct (Hall a Ha) as [B1 B2].
      assert (Halt : a < length (cell_heap w)).
      { unfold valid in Hw. rewrite Forall_forall in Hw. apply Hw.
        apply elem_of_take in Ha as (i & Hi & _). by eapply list_elem_of_lookup_2. }
      destruct (R7 a Hne Halt) as [-> ->]. split; [lia|].
      rewrite <- B2. unfold body_of, get_shape.
      destruct R5 as [k ->]. by rewrite lookup_app_l by lia.
    + apply Forall_singleton. rewrite R1, R2. split; [lia|done].
  - split_and!; [done|lia|]. simpl. by apply Forall_nil.
  - exact Hrun.
  - apply lookup_ge_None in Hnone. by rewrite take_ge in Hall by lia.
Qed.

Lemma advance_hung fuel dt iters ylim st st6 :
  valid st → advance fuel dt iters ylim st = Some st6 →
  Forall (λ c, ∀ (cell : Cell E) (sp : Shape),
                 cell_heap st6 !! c = Some cell →
                 shape_heap st6 !! shape cell = Some sp →
                 shape_body sp = body cell) (cells st6).
Proof.
  intros Hv. unfold advance. cbn zeta. intros H.
  destruct (update_pm_cells fuel _) as [st4|] eqn:Hrun; [|done]. injection H as <-.
  destruct (remove_shapes_spec dt (shapes_to_remove ylim st) st) as (A1 & _).
  fold (shape_removal_pass dt ylim st) in A1.
  set (st1 := shape_removal_pass dt ylim st) in *.
  unfold logic in A1. injection A1 as A1h _ A1c _.
  destruct (cell_removal_pass_spec dt ylim st1) as (_ & B1 & _ & _ & _ & _ & B2).
  set (st2 := cell_removal_pass dt ylim st1) in *.
  destruct (wipe_space_spec st2) as (C1 & _).
  unfold logic in C1. injection C1 as C1h _ C1c _.
  assert (Hv3 : valid (wipe_space st2)).
  { unfold valid in *. rewrite C1h, C1c, B1, A1h.
    apply Forall_forall. intros c Hc. rewrite Forall_forall in Hv. apply Hv.
    rewrite <- A1c. by eapply elem_of_sublist. }
  pose proof (update_pm_cells_hung _ _ _ Hv3 Hrun) as Hh.
  pose proof (steps_logic (Z.to_nat iters) dt st4) as D1.
  unfold logic in D1. injection D1 as D1h D1s D1c _.
  destruct (update_cell_positions_spec (steps (Z.to_nat iters) dt st4))
    as (_ & E1 & _ & E3 & _ & _ & _ & _ & _ & E6 & E7).
  rewrite E1, D1c. eapply Forall_impl; [exact Hh|]. simpl.
  intros c [Hlt Hb] cell sp Hcell Hs.
  specialize (E6 c). specialize (E7 c).
  rewrite Hcell, D1h in E6, E7. simpl in E6, E7.
  rewrite E3, D1s in Hs.
  unfold body_of, get_shape, cell_shape, cell_body in Hb.
  destruct (cell_heap st4 !! c) as [cell4|]; [|done]. simpl in *.
  injection E6 as E6. injection E7 as E7. rewrite <- E7, Hs in Hb. simpl in Hb.
  congruence.
Qed.

End Facts.

(** * The statements on the small instance *)

Lemma toy_newborn_rests : newborn_rests Toy.env.
Proof.
  intros k r. simpl. unfold Toy.ready, Toy.grow, Toy.init. simpl.
  apply Nat.leb_gt. lia.
Qed.

Lemma toy_ppf_zero : ∀ p : Q, (p == 0)%Q → norm_ppf Toy.env p = neg_inf.
Proof.
  intros p Hp. simpl. unfold Toy.ppf.
  destruct (Qle_bool p 0) eqn:H; [done|].
  assert (Qle_bool p 0 = true); [|congruence].
  apply Qle_bool_iff. rewrite Hp. apply Qle_refl.
Qed.



(** C10, the claim as it stands fails: with [sim_length = 2] the counter
    stops at 1, and the calls that find it there save again but append no
    frame. *)
Lemma finalize_without_frame :
  let a := Toy.args 2 false in
  let st := Toy.after 1 a in
  let st' := step_and_update 10 (1 # 20) (phys_iters a) (ylim_of a) (sim_length a) st in
  x st = (sim_length a - 1)%Z ∧
  cell_timeseries <$> st' = Some (cell_timeseries st) ∧
  (saved <$> st') ≠ Some None.
Proof. vm_compute. split_and!; [reflexivity|reflexivity|discriminate]. Qed.

Lemma finalize_reentered_witness :
  let a := Toy.args 3 false in
  let st := Toy.after 2 a in
  let st' := Toy.step a st in
  step_and_update 10 (1 # 20) (phys_iters a) (ylim_of a) (sim_length a) st = Some st' ∧
  ((x st ≤ 3 - 1)%Z → (x st' ≤ 3 - 1)%Z) ∧
  (x st = (3 - 1)%Z →
   x st' = x st ∧
   length (cell_timeseries st')
   = length (cell_timeseries st) + (if (1 <? x st)%Z then 1 else 0) ∧
   saved st' = Some (cell_timeseries st', (bodies st', shapes st')) ∧
   has_exit st' = true).
Proof.
  intros a st st'.
  assert (H : step_and_update 10 (1 # 20) (phys_iters a) (ylim_of a) (sim_length a) st
              = Some st') by (vm_compute; reflexivity).
  split; [exact H|].
  exact (finalize_reentered 10 (1 # 20) (phys_iters a) (ylim_of a) 3 st st' H).
Defined.

(** C2, on a run in which the seed cell divides: the daughter at address 1
    is live when the run returns, yet [historic_cells] still holds the seed
    cell alone. *)
Theorem historic_cells_misses_daughter :
  let r := run_simulation 0 10 (Toy.args 3 false) in
  historic_cells <$> r = Some [0] ∧
  (r ≫= λ w, mother <$> cell_heap w !! 1) = Some (Some 0) ∧
  (λ w, bool_decide (1 ∈ cells w)) <$> r = Some true ∧
  (λ w, bool_decide (1 ∈ historic_cells w)) <$> r = Some false.
Proof. vm_compute. split_and!; reflexivity. Qed.

(** C3, the claim as it stands fails: a single cell that is out of the
    trench is removed, and the live list is left empty. *)
Lemma single_cell_removed_counterexample :
  cells Toy.lost = [0] ∧
  cells (cell_removal_pass (1 # 20) 1000 Toy.lost) = [].
Proof. vm_compute. split; reflexivity. Qed.

Lemma single_cell_never_lysed_witness :
  let st := initial_state (Toy.args 5 false) in
  cells st = [0] ∧
  cells (cell_removal_pass (1 # 20) 1000 st)
  = if out_of_bounds 1000 (cell_y st 0) then [] else [0].
Proof.
  intros st. split; [reflexivity|].
  apply (single_cell_never_lysed (1 # 20) 1000 st 0). reflexivity.
Defined.

(** C4, the claim as it stands fails: the visit of a dividing cell appends
    to the very list the loop is iterating. *)
Lemma update_pass_appends_counterexample :
  let st := Toy.after 1 (Toy.args 3 false) in
  cells st !! 0 = Some 0 ∧ cells st = [0] ∧ cells (visit 0 st) = [0; 1] ∧
  cells <$> update_pm_cells 10 st = Some [0; 1].
Proof. vm_compute. split_and!; reflexivity. Qed.

Lemma passes_discipline_witness :
  let st := initial_state (Toy.args 3 false) in
  ∃ st',
    update_pm_cells 10 st = Some st' ∧
    cells st `prefix_of` cells st' ∧
    ∃ bs : list (nat * nat),
      length bs = length (cells st') ∧
      log st' = log st ++ (bs ≫= settle_block) ∧
      bodies st' = bodies st ++ bs.*1 ∧
      shapes st' = shapes st ++ bs.*2.
Proof.
  intros st.
  assert (H : update_pm_cells 10 st = Some (default st (update_pm_cells 10 st)))
    by (vm_compute; reflexivity).
  eexists. split; [exact H|].
  destruct (initial_state_spec (Toy.args 3 false)) as (Hok & _).
  apply (passes_discipline (1 # 20) 1000 10 st _ Hok H).
Defined.



(** C5, the claim as it stands fails: in a space where the wall shape comes
    first and its body is not registered, [wipe_space] takes the wall shape
    out with the cell's body and leaves the cell's shape in. *)
Lemma wipe_space_unpaired_counterexample :
  shapes Toy.unpaired = [0; 1] ∧
  shapes (wipe_space Toy.unpaired) = [1] ∧
  bodies (wipe_space Toy.unpaired) = [] ∧
  body_type (get_body Toy.unpaired (body_of Toy.unpaired 0)) = 2%Z ∧
  dynamic (wipe_space Toy.unpaired) (body_of (wipe_space Toy.unpaired) 1).
Proof. vm_compute. split_and!; reflexivity. Qed.

Lemma wipe_space_paired_witness :
  let st := Toy.after 1 (Toy.args 3 false) in
  paired st ∧
  bodies (wipe_space st) = [0] ∧ shapes (wipe_space st) = [0] ∧
  paired (wipe_space st).
Proof.
  intros st.
  assert (Hp : paired st) by (vm_compute; reflexivity).
  destruct (wipe_space_paired st Hp) as (Hb & Hs & _ & _ & _ & _ & Hp').
  split; [exact Hp|]. split; [vm_compute; reflexivity|].
  split; [vm_compute; reflexivity|exact Hp'].
Defined.

(** C6, the claim as it stands fails: one pass over a cell that divides
    steps the world 300 times, 150 for the cell and 150 for its daughter. *)
Lemma settle_steps_counterexample :
  let st := Toy.after 1 (Toy.args 3 false) in
  (count_steps ∘ log) <$> update_pm_cells 10 st = Some (count_steps (log st) + 300).
Proof. vm_compute. reflexivity. Qed.

Lemma settle_steps_per_cell_witness :
  let st := Toy.after 1 (Toy.args 3 false) in
  live_ok st ∧
  ∃ st' (bs : list (nat * nat)),
    (∀ fuel, 2 * length (cells st) ≤ fuel → update_pm_cells fuel st = Some st') ∧
    length bs = length (cells st') ∧
    log st' = log st ++ (bs ≫= settle_block) ∧
    count_steps (log st') = count_steps (log st) + 150 * length (cells st') ∧
    bodies st' = bodies st ++ bs.*1 ∧
    shapes st' = shapes st ++ bs.*2.
Proof.
  intros st.
  assert (Hok : live_ok st).
  { split; vm_compute; repeat constructor. intros H. inversion H. }
  split; [exact Hok|].
  exact (settle_steps_per_cell st toy_newborn_rests Hok).
Defined.

Lemma population_non_decreasing_witness :
  let a := Toy.args 5 false in
  let st := Toy.after 2 a in
  let st' := Toy.step a st in
  step_and_update 10 (1 # 20) (phys_iters a) (ylim_of a) (sim_length a) st = Some st' ∧
  cells st `prefix_of` cells st' ∧ length (cells st) ≤ length (cells st').
Proof.
  intros a st st'.
  assert (H : step_and_update 10 (1 # 20) (phys_iters a) (ylim_of a) (sim_length a) st
              = Some st') by (vm_compute; reflexivity).
  split; [exact H|].
  apply (population_non_decreasing 10 (1 # 20) (phys_iters a) (ylim_of a) (sim_length a)
           st st' toy_ppf_zero); [| |exact H].
  - change (cells st) with [0; 1].
    repeat (apply Forall_cons; split; [vm_compute; reflexivity|]). by apply Forall_nil.
  - change (cells st) with [0; 1].
    repeat (apply Forall_cons; split; [vm_compute; reflexivity|]). by apply Forall_nil.
Defined.


(** * The further properties on the small instance *)

Ltac toy_decide := apply (bool_decide_unpack _); vm_compute; reflexivity.

Lemma toy_live_ok_two : live_ok (Toy.after 2 (Toy.args 5 false)).
Proof. unfold live_ok, valid. split; toy_decide. Qed.

Lemma toy_live_ok_one : live_ok (Toy.after 1 (Toy.args 5 false)).
Proof. unfold live_ok, valid. split; toy_decide. Qed.

Lemma live_list_stays_sound_witness :
  let a := Toy.args 5 false in
  let st := Toy.after 2 a in
  let st' := Toy.step a st in
  step_and_update 10 (1 # 20) (phys_iters a) (ylim_of a) (sim_length a) st = Some st' ∧
  NoDup (cells st') ∧ Forall (λ c, is_Some (cell_heap st' !! c)) (cells st').
Proof.
  intros a st st'.
  assert (H : step_and_update 10 (1 # 20) (phys_iters a) (ylim_of a) (sim_length a) st
              = Some st') by (vm_compute; reflexivity).
  exact (conj H (live_list_stays_sound _ _ _ _ _ _ _ toy_live_ok_two H)).
Defined.

Lemma extinction_is_permanent_witness :
  cells ToyMore.extinct = [] ∧
  ∃ st', step_and_update 0 (1 # 20) 2 1000 5 ToyMore.extinct = Some st' ∧
         cells st' = [] ∧
         cell_timeseries st'
         = cell_timeseries ToyMore.extinct
           ++ (if (1 <? x ToyMore.extinct)%Z then [[]] else []).
Proof.
  assert (H : cells ToyMore.extinct = []) by (vm_compute; reflexivity).
  exact (conj H (extinction_is_permanent 0 (1 # 20) 2 1000 5 ToyMore.extinct H)).
Defined.

Lemma lysis_can_empty_the_list_witness :
  1 < length (cells ToyMore.fragile) ∧
  cells (cell_removal_pass (1 # 20) 1000 ToyMore.fragile) = [].
Proof.
  assert (Hc : cells ToyMore.fragile = [0; 1]) by (vm_compute; reflexivity).
  assert (Hlen : 1 < length (cells ToyMore.fragile)) by (rewrite Hc; simpl; lia).
  split; [exact Hlen|].
  apply (lysis_can_empty_the_list (1 # 20) 1000 ToyMore.fragile Hlen).
  rewrite Hc.
  apply Forall_cons. split; [right; vm_compute; reflexivity|].
  apply Forall_cons. split; [right; vm_compute; reflexivity|].
  by apply Forall_nil.
Defined.

(** Nothing is removed by this call, three cells are live when it ends and
    [phys_iters] is 2. *)
Lemma world_steps_per_call_witness :
  let a := Toy.args 5 false in
  let st := Toy.after 2 a in
  let st' := Toy.step a st in
  step_and_update 10 (1 # 20) (phys_iters a) (ylim_of a) (sim_length a) st = Some st' ∧
  count_steps (log st') = count_steps (log st) + 0 + 0 + 150 * 3 + 2.
Proof.
  intros a st st'.
  assert (H : step_and_update 10 (1 # 20) (phys_iters a) (ylim_of a) (sim_length a) st
              = Some st') by (vm_compute; reflexivity).
  destruct toy_live_ok_two as [_ Hv].
  pose proof (world_steps_per_call _ _ _ _ _ _ _ Hv H) as W.
  split; [exact H|]. vm_compute in W. vm_compute. exact W.
Defined.

Lemma dead_cell_stays_dead_witness :
  let st := ToyMore.extinct in
  let st' := default st (step_and_update 10 (1 # 20) 2 1000 5 st) in
  (0 ∉ cells st') ∧ cell_heap st' !! 0 = cell_heap st !! 0.
Proof.
  intros st st'.
  apply (dead_cell_stays_dead st st' 0).
  - vm_compute. lia.
  - vm_compute. intros H. inversion H.
  - apply rtc_once. exists 10, (1 # 20)%Q, 2%Z, 1000%Q, 5%Z. vm_compute. reflexivity.
Defined.

Lemma population_at_most_doubles_witness :
  let a := Toy.args 5 false in
  let st := Toy.after 1 a in
  let st' := Toy.step a st in
  step_and_update 10 (1 # 20) (phys_iters a) (ylim_of a) (sim_length a) st = Some st' ∧
  length (cells st') ≤ 2 * length (cells st).
Proof.
  intros a st st'.
  assert (H : step_and_update 10 (1 # 20) (phys_iters a) (ylim_of a) (sim_length a) st
              = Some st') by (vm_compute; reflexivity).
  exact (conj H (population_at_most_doubles _ _ _ _ _ _ _
                   toy_newborn_rests toy_live_ok_one H)).
Defined.

Lemma world_gains_live_cells_witness :
  let st := Toy.after 1 (Toy.args 5 false) in
  let st' := default st (update_pm_cells 10 st) in
  update_pm_cells 10 st = Some st' ∧
  bodies st' = bodies st ++ (cell_body st' <$> cells st') ∧
  shapes st' = shapes st ++ (cell_shape st' <$> cells st').
Proof.
  intros st st'.
  assert (H : update_pm_cells 10 st = Some st') by (vm_compute; reflexivity).
  exact (conj H (world_gains_live_cells 10 st st' toy_live_ok_one H)).
Defined.

Lemma live_cells_own_their_bodies_witness :
  let st := Toy.after 2 (Toy.args 5 false) in
  let st' := default st (update_pm_cells 10 st) in
  update_pm_cells 10 st = Some st' ∧
  Forall (λ c, length (body_heap st) ≤ cell_body st' c < length (body_heap st') ∧
               length (shape_heap st) ≤ cell_shape st' c < length (shape_heap st') ∧
               body_of st' (cell_shape st' c) = cell_body st' c) (cells st') ∧
  NoDup (cell_body st' <$> cells st') ∧
  NoDup (cell_shape st' <$> cells st').
Proof.
  intros st st'.
  assert (H : update_pm_cells 10 st = Some st') by (vm_compute; reflexivity).
  exact (conj H (live_cells_own_their_bodies 10 st st' toy_live_ok_two H)).
Defined.

Lemma positions_follow_bodies_witness :
  let st := Toy.after 2 (Toy.args 5 false) in
  cell_heap (update_cell_positions st) !! 1
  = if decide (1 ∈ cells st) then synced st <$> cell_heap st !! 1 else cell_heap st !! 1.
Proof.
  intros st. apply (positions_follow_bodies st 1). apply toy_live_ok_two.
Defined.

Lemma window_run_never_exits_witness : run_simulation 7 10 (Toy.args 0 true) = None.
Proof. apply (window_run_never_exits (Toy.args 0 true) 7 10); [reflexivity|simpl; lia]. Defined.

Lemma headless_run_without_frames_witness :
  let a := Toy.args 0 false in
  let r := default (initial_state a) (run_simulation 0 10 a) in
  run_simulation 0 10 a = Some r ∧
  cell_timeseries r = [] ∧ saved r = None ∧ x r = Z.max 0 (sim_length a + 2).
Proof.
  intros a r.
  assert (H : run_simulation 0 10 a = Some r) by (vm_compute; reflexivity).
  split; [exact H|].
  apply (headless_run_without_frames a 0 10 r); [reflexivity|simpl; lia|exact H].
Defined.

Lemma frames_share_no_cell_witness :
  let a := Toy.args 3 false in
  let r := default (initial_state a) (run_simulation 0 20 a) in
  run_simulation 0 20 a = Some r ∧
  NoDup (recorded r) ∧
  Forall (λ c, (c ∉ cells r) ∧ (c ∉ historic_cells r)) (recorded r).
Proof.
  intros a r.
  assert (H : run_simulation 0 20 a = Some r) by (vm_compute; reflexivity).
  exact (conj H (frames_share_no_cell 0 20 a r H)).
Defined.

Lemma frames_are_stamped_witness :
  let a := Toy.args 3 false in
  let r := default (initial_state a) (run_simulation 0 20 a) in
  run_simulation 0 20 a = Some r ∧
  (∀ k f c, cell_timeseries r !! k = Some f → c ∈ f →
            t <$> cell_heap r !! c = Some (Some (Z.of_nat k))) ∧
  (∀ st c, drive 0 20 a = Some st → c ∈ cells r ++ historic_cells r →
           cell_heap r !! c = cell_heap st !! c).
Proof.
  intros a r.
  assert (H : run_simulation 0 20 a = Some r) by (vm_compute; reflexivity).
  exact (conj H (frames_are_stamped 0 20 a r H)).
Defined.


Lemma escaped_cells_are_dropped_witness :
  NoDup (cells Toy.lost) ∧
  Forall (in_bounds 1000 Toy.lost) (cells (cell_removal_pass (1 # 20) 1000 Toy.lost)).
Proof.
  assert (H : NoDup (cells Toy.lost)) by toy_decide.
  exact (conj H (escaped_cells_are_dropped (1 # 20) 1000 Toy.lost H)).
Defined.

Lemma pairing_survives_a_call_witness :
  let a := Toy.args 5 false in
  let st := Toy.after 2 a in
  let st' := Toy.step a st in
  paired st ∧ shapes_ok st ∧
  step_and_update 10 (1 # 20) (phys_iters a) (ylim_of a) (sim_length a) st = Some st' ∧
  paired st' ∧ shapes_ok st'.
Proof.
  intros a st st'.
  assert (Hp : paired st) by (vm_compute; reflexivity).
  assert (Hs : shapes_ok st) by (unfold shapes_ok; toy_decide).
  assert (H : step_and_update 10 (1 # 20) (phys_iters a) (ylim_of a) (sim_length a) st
              = Some st') by (vm_compute; reflexivity).
  exact (conj Hp (conj Hs (conj H (pairing_survives_a_call _ _ _ _ _ _ _ Hp Hs H)))).
Defined.
